(** * Intelephense: type aggregate, import/symbol readers and document store

    A shallow embedding of the parts of the PHP language-server core that the
    specification makes claims about:

    - [typeAggregate.ts]  : [TypeAggregate] (constructor, [_getAssociated],
      [members], [_classMembers], [_interfaceMembers], [_mergeMembers]);
    - [visitors.ts]       : [ImportTableReader] (use groups) and
      [SymbolReader._assignFunctionOrMethodPhpDoc];
    - [parsedDocument.ts] : [ParsedDocumentStore];
    - [intelephense.ts]   : [Intelephense.openDocument].

    Further functions of these files are embedded too, and their properties
    proved in the last part: [TypeAggregate.create]; the token functions of
    the namespace [ParsedDocument]; [closeDocument], [discover], [forget]
    and the registration of diagnostics handlers; the reading of a use
    statement, the decoding of modifiers, and the docblocks of properties
    and classes.

    JavaScript values are modelled as follows.  A number used as a bit set is
    a [Z]; [&] and [|] first wrap their operands to 32 bits.  A plain object
    used as a dictionary is a [gmap] of its own properties; where its keys
    are names of members or URIs it is read with [get], which also finds
    the properties inherited from [Object.prototype].  An array is a
    [list].  A value that may be [undefined] or [null] is an [option].  A
    call that may throw returns a [result].  Object identity ([===] on
    objects, [indexOf]) is the [oid] field of a symbol. *)

From stdpp Require Import base numbers list strings gmap.

(** ** Results of calls that may throw *)

Inductive JsError :=
  | Error (message : string)   (* [throw new Error(message)] *)
  | TypeError                  (* a property of [undefined]/[null] was read, or a non-function called *)
  | RangeError.                (* maximum call stack size exceeded *)

Inductive result (A : Type) :=
  | Ok (a : A)
  | Throw (e : JsError).
Arguments Ok {A} a.
Arguments Throw {A} e.

(** Sequencing: a throw skips the rest. *)
Definition bind {A B : Type} (m : result A) (k : A -> result B) : result B :=
  match m with
  | Ok a => k a
  | Throw e => Throw e
  end.

Notation "x <- m ;; k" := (bind m (fun x => k))
  (at level 100, m at next level, right associativity).

(** [for (n = 0; n < l.length; ++n) state = body(state, l[n])], where the
    body may throw. *)
Fixpoint for_each {St A : Type} (body : St -> A -> result St) (l : list A) (s : St)
  : result St :=
  match l with
  | [] => Ok s
  | x :: l' => s' <- body s x ;; for_each body l' s'
  end.

(** [Array.prototype.filter] with a callback that may throw. *)
Fixpoint js_filter {A : Type} (callback : A -> result bool) (l : list A)
  : result (list A) :=
  match l with
  | [] => Ok []
  | x :: l' =>
      keep <- callback x ;;
      rest <- js_filter callback l' ;;
      Ok (if keep then x :: rest else rest)
  end.

(** ** 32-bit bit operations *)

(** [ToInt32]: the value an operand of [&] or [|] is wrapped to. *)
Definition int32 (z : Z) : Z := ((z + 2 ^ 31) mod 2 ^ 32 - 2 ^ 31)%Z.

Definition js_and (a b : Z) : Z := Z.land (int32 a) (int32 b).
Definition js_or (a b : Z) : Z := Z.lor (int32 a) (int32 b).

(** A number in a condition: [0] is false, everything else true. *)
Definition truthy (z : Z) : bool := negb (z =? 0)%Z.

(** ** Plain objects used as dictionaries *)

(** An object written [{}] inherits the properties of [Object.prototype],
    which go by the names below.  [o[key]] is the property of [o] itself
    under [key] when it has one; otherwise, under one of these names, it is
    the property of the prototype (a function, or for [__proto__] the
    prototype itself), and it is undefined under every other name. *)
Definition prototypeKeys : list string :=
  ["constructor"; "toString"; "toLocaleString"; "valueOf"; "hasOwnProperty";
   "isPrototypeOf"; "propertyIsEnumerable"; "__proto__"; "__defineGetter__";
   "__defineSetter__"; "__lookupGetter__"; "__lookupSetter__"].

Definition inheritedKey (key : string) : bool := bool_decide (key ∈ prototypeKeys).

(** What [o[key]] finds. *)
Inductive Property (A : Type) :=
  | Own (a : A)      (* a property of the object itself *)
  | Inherited        (* a property of [Object.prototype] *)
  | Absent.          (* undefined *)
Arguments Own {A} a.
Arguments Inherited {A}.
Arguments Absent {A}.

Definition get {A : Type} (o : gmap string A) (key : string) : Property A :=
  match o !! key with
  | Some a => Own a
  | None => if inheritedKey key then Inherited else Absent
  end.

(** ** The enumerations of symbol.ts *)

(** [Parameter] and [Variable] are written with a trailing underscore: the
    plain words are commands of the proof assistant. *)
Module SymbolKind.
Inductive t :=
  | Namespace | Class | Interface | Trait | Function | Method | Property
  | ClassConstant | Constant | Parameter_ | Variable_.
End SymbolKind.

Module SymbolModifier.
Inductive t :=
  | Public | Protected | Private | Static | Abstract | Final | Magic
  | ReadOnly | WriteOnly | Anonymous | Use.
End SymbolModifier.

#[global] Instance SymbolKind_eq_dec : EqDecision SymbolKind.t.
Proof. solve_decision. Defined.

#[global] Instance SymbolModifier_eq_dec : EqDecision SymbolModifier.t.
Proof. solve_decision. Defined.

(** Modelled from the spec: the numeric values of [SymbolKind] and
    [SymbolModifier] are declared in symbol.ts, which is not among the
    sources.  The spec lists the members (section 3) and calls [modifiers] a
    bitset; the sources test both with [&] and combine them with [|].  The
    values are therefore kept abstract: any assignment of positive 32-bit
    flags in which two different kinds share no bit. *)
Record SymbolEnums := {
  kind_bits : SymbolKind.t -> Z;
  modifier_bits : SymbolModifier.t -> Z;
  kind_bits_range : forall k, (0 < kind_bits k < 2 ^ 31)%Z;
  kind_bits_disjoint : forall j k, j <> k -> Z.land (kind_bits j) (kind_bits k) = 0%Z;
  modifier_bits_range : forall m, (0 < modifier_bits m < 2 ^ 31)%Z
}.

(** One such assignment: the members numbered [1 << 0], [1 << 1], ... in the
    order written above. *)
Definition flag_kind (k : SymbolKind.t) : Z :=
  match k with
  | SymbolKind.Class => 1
  | SymbolKind.Interface => 2
  | SymbolKind.Trait => 4
  | SymbolKind.Constant => 8
  | SymbolKind.Property => 16
  | SymbolKind.Method => 32
  | SymbolKind.Function => 64
  | SymbolKind.Parameter_ => 128
  | SymbolKind.Variable_ => 256
  | SymbolKind.Namespace => 512
  | SymbolKind.ClassConstant => 1024
  end%Z.

Definition flag_modifier (m : SymbolModifier.t) : Z :=
  match m with
  | SymbolModifier.Public => 1
  | SymbolModifier.Protected => 2
  | SymbolModifier.Private => 4
  | SymbolModifier.Final => 8
  | SymbolModifier.Abstract => 16
  | SymbolModifier.Static => 32
  | SymbolModifier.ReadOnly => 64
  | SymbolModifier.WriteOnly => 128
  | SymbolModifier.Magic => 256
  | SymbolModifier.Anonymous => 512
  | SymbolModifier.Use => 4096
  end%Z.

Program Definition flags : SymbolEnums := {|
  kind_bits := flag_kind;
  modifier_bits := flag_modifier
|}.
Next Obligation. intros k. destruct k; simpl; lia. Qed.
Next Obligation. intros j k H. destruct j, k; try reflexivity; congruence. Qed.
Next Obligation. intros m. destruct m; simpl; lia. Qed.

(** ** Symbols, as typeAggregate.ts reads them *)

(** The documentation object of a symbol; only its presence is tested. *)
Record PhpSymbolDoc := { description : string; type : string }.

(** [oid] is the identity of the object: two records with the same [oid]
    are the same object.  [kind] is one of the members of [SymbolKind].
    [children] and [associated] may be undefined.  The elements of
    [associated] are stubs of which only [name] is read. *)
#[warnings="-register-all"]
Inductive PhpSymbol := mkPhpSymbol {
  oid : nat;
  kind : SymbolKind.t;
  name : string;
  modifiers : Z;
  doc : option PhpSymbolDoc;
  children : option (list PhpSymbol);
  associated : option (list PhpSymbol)
}.

(** [a || []] for an array that may be undefined. *)
Definition or_empty (a : option (list PhpSymbol)) : list PhpSymbol :=
  match a with
  | Some l => l
  | None => []
  end.

(** Modelled from the spec: [PhpSymbol.isClassLike] (symbol.ts is not among
    the sources).  The filtering helpers operate on [kind] only, and a
    class-like is a Class, Interface or Trait symbol. *)
Definition isClassLike (s : PhpSymbol) : bool :=
  match kind s with
  | SymbolKind.Class | SymbolKind.Interface | SymbolKind.Trait => true
  | _ => false
  end.

(** Modelled from the spec: [SymbolStore] (symbolStore.ts is not among the
    sources).  [find(fqn, predicate?)] returns the matching symbols, the
    predicate filtering them; the store is a finite index, so every symbol
    it returns is one of the [symbols] it holds.  How names are matched is
    left open. *)
Record SymbolStore := {
  symbols : list PhpSymbol;
  find : string -> (PhpSymbol -> bool) -> list PhpSymbol;
  find_symbols : forall fqn p s, s ∈ find fqn p -> s ∈ symbols;
  find_filter : forall fqn p s, s ∈ find fqn p -> p s = true
}.

(** A store that holds the symbols of [l] and matches names exactly. *)
Program Definition listStore (l : list PhpSymbol) : SymbolStore := {|
  symbols := l;
  find fqn p := filter (fun s => name s = fqn /\ p s = true) l
|}.
Next Obligation. intros l fqn p s H. apply list_elem_of_filter in H. tauto. Qed.
Next Obligation. intros l fqn p s H. apply list_elem_of_filter in H. tauto. Qed.

Module MemberMergeStrategy.
Inductive t :=
  | None        (* returns all symbols *)
  | Override    (* first matching member encountered is chosen ie prefer overrides *)
  | Documented  (* prefer first unless it has no doc and base does *)
  | Base.       (* last matching member encountered ie prefer base *)
End MemberMergeStrategy.

#[global] Instance MemberMergeStrategy_eq_dec : EqDecision MemberMergeStrategy.t.
Proof. solve_decision. Defined.

(** The predicates that reach [filter].  [UserPredicate f] is a function
    passed in by the caller of [members]; [noPrivate] is the arrow function
    created in [_classMembers]. *)
Inductive Predicate :=
  | UserPredicate (f : PhpSymbol -> bool)
  | noPrivate.

Module TypeAggregate.

Record t := {
  symbolStore : SymbolStore;
  _symbol : PhpSymbol;
  _associated : option (list PhpSymbol)
}.

Section WithEnums.
Context (E : SymbolEnums).

(** [x.modifiers & SymbolModifier.M] *)
Definition modifier_and (x : PhpSymbol) (m : SymbolModifier.t) : Z :=
  js_and (modifiers x) (modifier_bits E m).

(** [a.kind === SymbolKind.K] *)
Definition kind_is (x : PhpSymbol) (k : SymbolKind.t) : bool :=
  (kind_bits E (kind x) =? kind_bits E k)%Z.

(** [SymbolKind.Class | SymbolKind.Interface | SymbolKind.Trait] *)
Definition classLikeMask : Z :=
  js_or (js_or (kind_bits E SymbolKind.Class) (kind_bits E SymbolKind.Interface))
        (kind_bits E SymbolKind.Trait).

(** [new TypeAggregate(symbolStore, symbol)]; [symbol] may be null. *)
Definition new (store : SymbolStore) (symbol : option PhpSymbol) : result t :=
  match symbol with
  | None => Throw (Error "Invalid Argument")
  | Some s =>
      if negb (truthy (js_and (kind_bits E (kind s)) classLikeMask))
      then Throw (Error "Invalid Argument")
      else Ok {| symbolStore := store; _symbol := s; _associated := None |}
  end.

(** *** _mergeMembers *)

(** The two locals the loop updates: [map] (name to index in [merged]) and
    [merged]. *)
Record MergeState := {
  map : gmap string nat;
  merged : list PhpSymbol
}.

Definition mergeStart : MergeState := {| map := ∅; merged := [] |}.

(** The condition under which [merged[index] = s] is executed. *)
Definition replaces (strategy : MemberMergeStrategy.t) (kept s : PhpSymbol) : bool :=
  ((0 <? modifier_and kept SymbolModifier.Magic)%Z
     && negb (truthy (modifier_and s SymbolModifier.Magic)))
  || (bool_decide (strategy = MemberMergeStrategy.Documented)
        && negb (bool_decide (is_Some (doc kept))) && bool_decide (is_Some (doc s)))
  || bool_decide (strategy = MemberMergeStrategy.Base).

(** One turn of the loop of [_mergeMembers].  When the name of [s] is that
    of a property of [Object.prototype] and no member of that name has been
    indexed, [index] is that property: it is not undefined, [merged[index]]
    is, and reading [modifiers] of it throws. *)
Definition mergeStep (strategy : MemberMergeStrategy.t) (st : MergeState) (s : PhpSymbol)
  : result MergeState :=
  match get (map st) (name s) with
  | Absent =>
      let merged' := merged st ++ [s] in
      Ok {| map := <[name s := length merged' - 1]> (map st); merged := merged' |}
  | Own index =>
      match merged st !! index with
      | None => Throw TypeError
      | Some kept =>
          if replaces strategy kept s
          then Ok {| map := map st; merged := <[index := s]> (merged st) |}
          else Ok st
      end
  | Inherited => Throw TypeError
  end.

(** No member of [l] goes by the name of a property of [Object.prototype]. *)
Definition plainNames (l : list PhpSymbol) : bool :=
  forallb (fun x => negb (inheritedKey (name x))) l.

Definition _mergeMembers (symbols : list PhpSymbol) (strategy : MemberMergeStrategy.t)
  : result (list PhpSymbol) :=
  if bool_decide (strategy = MemberMergeStrategy.None) then Ok symbols
  else st <- for_each (mergeStep strategy) symbols mergeStart ;; Ok (merged st).

(** "Carries the Magic modifier": [x.modifiers & SymbolModifier.Magic] is
    truthy. *)
Definition isMagic (x : PhpSymbol) : bool :=
  truthy (modifier_and x SymbolModifier.Magic).

(** "Has the Private modifier". *)
Definition isPrivate (x : PhpSymbol) : bool :=
  truthy (modifier_and x SymbolModifier.Private).

(** The member of [l] that the Override strategy is said to keep for the
    name [n]: the first member named [n] that is not magic if there is one,
    and the first member named [n] otherwise. *)
Definition firstNamed (n : string) (l : list PhpSymbol) : option PhpSymbol :=
  List.find (fun x => bool_decide (name x = n)) l.

Definition firstRealNamed (n : string) (l : list PhpSymbol) : option PhpSymbol :=
  List.find (fun x => bool_decide (name x = n) && negb (isMagic x)) l.

Definition keptFor (n : string) (l : list PhpSymbol) : option PhpSymbol :=
  match firstRealNamed n l with
  | Some x => Some x
  | None => firstNamed n l
  end.

(** *** Invariants of the loop of [_mergeMembers] *)

(** [map] is exactly the index of the names in [merged]. *)
Definition MergeInv (st : MergeState) : Prop :=
  forall n i, map st !! n = Some i <-> exists x, merged st !! i = Some x /\ name x = n.

(** Under Override, after the members of [pre]: every kept member is
    [keptFor] its name, and every name met so far is indexed. *)
Definition OverrideInv (pre : list PhpSymbol) (st : MergeState) : Prop :=
  MergeInv st
  /\ (forall i x, merged st !! i = Some x -> keptFor (name x) pre = Some x)
  /\ (forall x, x ∈ pre -> is_Some (map st !! name x)).

(** *** Calling a predicate *)

(** [noPrivate] closes over the variable [predicate] of [_classMembers] and
    reads it when it is called; [captured] is the value the variable holds at
    that moment.  A call made from within [noPrivate] takes one more stack
    frame; [stack] is the number of frames left, and a call with none left
    throws a RangeError. *)
Fixpoint call (stack : nat) (captured : option Predicate) (p : Predicate) (x : PhpSymbol)
  : result bool :=
  match p with
  | UserPredicate f => Ok (f x)
  | noPrivate =>
      if truthy (modifier_and x SymbolModifier.Private) then Ok false
      else match captured with
           | None => Ok true
           | Some q =>
               match stack with
               | O => Throw RangeError
               | S stack' => call stack' captured q x
               end
           end
  end.

(** [predicate ? s.children.filter(predicate) : s.children] *)
Definition filterChildren (stack : nat) (captured predicate : option Predicate)
    (c : list PhpSymbol) : result (list PhpSymbol) :=
  match predicate with
  | Some p => js_filter (call stack captured p) c
  | None => Ok c
  end.

(** *** _interfaceMembers and _traitMembers *)

Definition interfaceStep (stack : nat) (captured predicate : option Predicate)
    (members : list PhpSymbol) (s : PhpSymbol) : result (list PhpSymbol) :=
  match children s with
  | Some c =>
      kept <- filterChildren stack captured predicate c ;;
      Ok (members ++ kept)
  | None => Ok members
  end.

Definition _interfaceMembers (stack : nat) (captured : option Predicate)
    (interfaces : list PhpSymbol) (predicate : option Predicate)
  : result (list PhpSymbol) :=
  for_each (interfaceStep stack captured predicate) interfaces [].

Definition _traitMembers (stack : nat) (captured : option Predicate)
    (traits : list PhpSymbol) (predicate : option Predicate)
  : result (list PhpSymbol) :=
  _interfaceMembers stack captured traits predicate.

(** *** _classMembers *)

(** The locals the loop of [_classMembers] updates; [predicate] is the
    parameter of the method, which the loop assigns to. *)
Record ClassState := {
  members_ : list PhpSymbol;
  traits : list PhpSymbol;
  predicate : option Predicate
}.

Definition classStep (stack : nat) (st : ClassState) (s : PhpSymbol) : result ClassState :=
  if kind_is s SymbolKind.Trait then
    Ok {| members_ := members_ st; traits := traits st ++ [s];
          predicate := Some noPrivate |}
  else
    match children s with
    | Some c =>
        kept <- filterChildren stack (predicate st) (predicate st) c ;;
        Ok {| members_ := members_ st ++ kept; traits := traits st;
              predicate := Some noPrivate |}
    | None =>
        Ok {| members_ := members_ st; traits := traits st;
              predicate := Some noPrivate |}
    end.

Definition _classMembers (stack : nat) (associated : list PhpSymbol)
    (strategy : MemberMergeStrategy.t) (predicate : option Predicate)
  : result (list PhpSymbol) :=
  st <- for_each (classStep stack) associated
          {| members_ := []; traits := []; predicate := predicate |} ;;
  members <- _mergeMembers (members_ st) strategy ;;
  fromTraits <- _traitMembers stack (Some noPrivate) (traits st) (Some noPrivate) ;;
  Ok (members ++ fromTraits).

(** *** _getAssociated *)

(** [a.indexOf(symbol) > -1]: some element of [a] is the object [symbol]. *)
Definition contains (a : list PhpSymbol) (symbol : PhpSymbol) : bool :=
  existsb (fun x => oid x =? oid symbol) a.

(** The [while] loop; each turn takes one unit of [fuel], and [None] means
    the fuel ran out before the queue was empty. *)
Fixpoint associatedLoop (store : SymbolStore) (fuel : nat)
    (queue collected : list PhpSymbol) : option (list PhpSymbol) :=
  match fuel with
  | O => None
  | S fuel' =>
      match queue with
      | [] => Some collected
      | stub :: queue' =>
          match find store (name stub) isClassLike with
          | [] => associatedLoop store fuel' queue' collected
          | symbol :: _ =>
              if contains collected symbol
              then associatedLoop store fuel' queue' collected
              else associatedLoop store fuel'
                     (queue' ++ or_empty (associated symbol))
                     (collected ++ [symbol])
          end
      end
  end.

(** Returns the associated array and the aggregate with its cache filled. *)
Definition _getAssociated (fuel : nat) (this : t) : option (list PhpSymbol * t) :=
  match _associated this with
  | Some cached => Some (cached, this)
  | None =>
      let fill a := (a, {| symbolStore := symbolStore this; _symbol := _symbol this;
                           _associated := Some a |}) in
      match associated (_symbol this) with
      | None | Some [] => Some (fill [])
      | Some (stub :: stubs) =>
          fill <$> associatedLoop (symbolStore this) fuel (stub :: stubs) []
      end
  end.

(** Enough fuel for the loop of [_getAssociated]: one turn for every stub
    that can enter the queue (those of the root and, once each, those of
    every symbol the store holds), and one to see the empty queue. *)
Definition associatedFuel (store : SymbolStore) (root : PhpSymbol) : nat :=
  S (length (or_empty (associated root))
     + sum_list_with (fun s => length (or_empty (associated s))) (symbols store)).

(** The aggregate [new] returns for the root [s]: nothing cached yet. *)
Definition fresh (store : SymbolStore) (s : PhpSymbol) : t :=
  {| symbolStore := store; _symbol := s; _associated := None |}.

(** The aggregate after its associated array [a] has been cached. *)
Definition cached (store : SymbolStore) (s : PhpSymbol) (a : list PhpSymbol) : t :=
  {| symbolStore := store; _symbol := s; _associated := Some a |}.

(** The stubs a symbol would put on the queue, and those that may still
    enter it: the stubs of the symbols of [l] not yet collected. *)
Definition stubs (s : PhpSymbol) : nat := length (or_empty (associated s)).

Definition pending (collected : list PhpSymbol) (l : list PhpSymbol) : nat :=
  sum_list_with (fun s => if contains collected s then 0 else stubs s) l.

(** A symbol the walk may collect: a class-like that the store holds. *)
Definition Resolved (store : SymbolStore) (s : PhpSymbol) : Prop :=
  isClassLike s = true /\ s ∈ symbols store.

(** *** members *)

Definition members (fuel stack : nat) (this : t) (mergeStrategy : MemberMergeStrategy.t)
    (predicate : option (PhpSymbol -> bool))
  : option (result (list PhpSymbol) * t) :=
  '(assoc, this') ← _getAssociated fuel this;
  let associated := _symbol this :: assoc in
  let predicate := UserPredicate <$> predicate in
  Some (if kind_is (_symbol this) SymbolKind.Class then
          _classMembers stack associated mergeStrategy predicate
        else if kind_is (_symbol this) SymbolKind.Interface then
          _interfaceMembers stack None associated predicate
        else if kind_is (_symbol this) SymbolKind.Trait then
          _traitMembers stack None associated predicate
        else Ok [],
        this').

(** *** What the claims say [members] returns *)

(** The members the caller's predicate accepts; all of them without one. *)
Definition accepted (predicate : option (PhpSymbol -> bool)) (l : list PhpSymbol)
  : list PhpSymbol :=
  match predicate with
  | Some f => List.filter f l
  | None => l
  end.

(** The children of the symbols of [l], one after the other. *)
Definition allChildren (l : list PhpSymbol) : list PhpSymbol :=
  concat (List.map (fun s => or_empty (children s)) l).

Definition isTrait (s : PhpSymbol) : bool := bool_decide (kind s = SymbolKind.Trait).

(** Every child of [s] has the Private modifier. *)
Definition onlyPrivateChildren (s : PhpSymbol) : bool :=
  forallb isPrivate (or_empty (children s)).

(** *** create *)

(** [TypeAggregate.create(symbolStore, fqn)]; the null it may return is
    [None]. *)
Definition create (store : SymbolStore) (fqn : string) : result (option t) :=
  if bool_decide (fqn = "") then Ok None
  else
    match find store fqn isClassLike with
    | [] => Ok None
    | symbol :: _ => aggregate <- new store (Some symbol) ;; Ok (Some aggregate)
    end.

(** *** What the merge keeps, name by name *)

(** The names of [l] in the order in which they first occur. *)
Fixpoint firstOccurrences (l : list string) : list string :=
  match l with
  | [] => []
  | n :: l' => n :: List.filter (fun m => negb (bool_decide (m = n))) (firstOccurrences l')
  end.

(** The member kept under the name [n] once [s] has been met, when [kept]
    was kept before. *)
Definition keptStep (strategy : MemberMergeStrategy.t) (n : string)
    (kept : option PhpSymbol) (s : PhpSymbol) : option PhpSymbol :=
  if bool_decide (name s = n) then
    match kept with
    | None => Some s
    | Some k => if replaces strategy k s then Some s else Some k
    end
  else kept.

(** The member kept under the name [n] after the members of [l]. *)
Definition keptBy (strategy : MemberMergeStrategy.t) (n : string) (l : list PhpSymbol)
  : option PhpSymbol :=
  fold_left (keptStep strategy n) l None.

(** After the members of [pre], for every strategy but None: [map] indexes
    [merged], the names of [merged] are those of [pre] in order of first
    occurrence, and every member of [merged] is [keptBy] its name. *)
Definition KeptInv (strategy : MemberMergeStrategy.t) (pre : list PhpSymbol)
    (st : MergeState) : Prop :=
  MergeInv st
  /\ name <$> merged st = firstOccurrences (name <$> pre)
  /\ (forall i x, merged st !! i = Some x -> keptBy strategy (name x) pre = Some x).

(** The last member of [l] named [n]. *)
Definition lastNamed (n : string) (l : list PhpSymbol) : option PhpSymbol :=
  firstNamed n (rev l).

(** A member that is declared in the source (not magic) and has a doc. *)
Definition isDeclaredDocumented (x : PhpSymbol) : bool :=
  negb (isMagic x) && bool_decide (is_Some (doc x)).

Definition firstDeclaredDocumented (n : string) (l : list PhpSymbol) : option PhpSymbol :=
  List.find (fun x => bool_decide (name x = n) && isDeclaredDocumented x) l.

(** *** The links the walk of [_getAssociated] follows *)

(** The symbol a stub stands for: the first class-like the store finds
    under the stub's name. *)
Definition resolve (store : SymbolStore) (stub : PhpSymbol) : option PhpSymbol :=
  head (find store (name stub) isClassLike).

(** [a] holds every symbol that a stub of [root] or of a symbol of [a]
    stands for. *)
Definition Closed (store : SymbolStore) (root : PhpSymbol) (a : list PhpSymbol) : Prop :=
  forall s stub symbol,
    s ∈ root :: a -> stub ∈ or_empty (associated s) -> resolve store stub = Some symbol ->
    contains a symbol = true.

(** Every symbol of [a] is what a stub of [root], or of a symbol that
    stands before it in [a], stands for. *)
Definition Linked (store : SymbolStore) (root : PhpSymbol) (a : list PhpSymbol) : Prop :=
  forall i c,
    a !! i = Some c ->
    exists s stub, s ∈ root :: take i a /\ stub ∈ or_empty (associated s)
                   /\ resolve store stub = Some c.

End WithEnums.
End TypeAggregate.

(** ** ImportTableReader (visitors.ts): reading a use group *)

Module ImportTableReader.

(** [ImportRule]: the object literal [{ kind, fqn, name }] built by
    [_postOrderUseElement]; [name] is the alias. *)
Record ImportRule := {
  kind : Z;
  fqn : string;
  name : option string
}.

(** What the reader keeps on its value stack. *)
#[warnings="-register-all"]
Inductive Value :=
  | Undefined
  | Null
  | Text (s : string)
  | RuleValue (r : ImportRule)
  | Array (l : list Value).

(** A value in a condition. *)
Definition truthyValue (v : Value) : bool :=
  match v with
  | Undefined | Null | Text "" => false
  | _ => true
  end.

(** The flag of a use statement, group or element, as the parser sets it. *)
Inductive NonTerminalFlag :=
  | UseClass
  | UseConstant
  | UseFunction
  | NoUseFlag.

(** The types of non-terminal the reader tells apart. *)
Inductive NonTerminalType :=
  | TopStatementList
  | Namespace
  | NamespaceName
  | UseStatement
  | UseGroup
  | UseList
  | UseElement
  | OtherNonTerminal.

(** [node.value]: null, a non-terminal or a token; a token has no
    [nonTerminalType]. *)
Inductive NodeValue :=
  | NoValue
  | NonTerminal (nonTerminalType : NonTerminalType) (flag : NonTerminalFlag)
  | Token (text : string).

(** Modelled from the spec: [Tree] (types.ts is not among the sources).  A
    node has a value and its children in order. *)
#[warnings="-register-all"]
Inductive Tree := Node (value : NodeValue) (children : list Tree).

Definition value (node : Tree) : NodeValue := let 'Node v _ := node in v.
Definition children (node : Tree) : list Tree := let 'Node _ c := node in c.

(** Modelled from the spec: [ImportTable] (symbol.ts is not among the
    sources).  The import table maps an alias to a target FQN and a kind; an
    import rule consists of an alias name, a target FQN and a kind.
    [addRuleMany] adds the rules it is given, in order. *)
Record ImportTable := { rules : list ImportRule }.

Definition addRuleMany (l : list ImportRule) (table : ImportTable) : ImportTable :=
  {| rules := rules table ++ l |}.

(** The reader: its stack (top of the stack first), the number of use
    statements and groups it is inside of, and the table it fills.
    [_active] starts at 0 and is only ever counted up and down by one. *)
Record t := {
  _stack : list Value;
  _active : nat;
  importTable : ImportTable
}.

Definition new (importTable : ImportTable) : t :=
  {| _stack := []; _active := 0; importTable := importTable |}.

Definition push (v : Value) (this : t) : t :=
  {| _stack := v :: _stack this; _active := _active this; importTable := importTable this |}.

(** Modelled from the spec: [util.popMany] (util.ts is not among the
    sources; util.d.ts declares [popMany<T>(array: T[], count: number): T[]]).
    It pops [count] values and returns them oldest first, as the
    destructuring assignments of its callers require; a pop from an empty
    array yields undefined. *)
Fixpoint popMany (stack : list Value) (count : nat) : list Value * list Value :=
  match count with
  | O => ([], stack)
  | S count' =>
      match stack with
      | [] => let '(popped, rest) := popMany [] count' in (popped ++ [Undefined], rest)
      | v :: stack' => let '(popped, rest) := popMany stack' count' in (popped ++ [v], rest)
      end
  end.

(** [Array.prototype.join]: undefined and null count as the empty string.
    [None] for an array that holds anything but strings, undefined and
    null. *)
Definition joinItem (v : Value) : option string :=
  match v with
  | Undefined | Null => Some ""
  | Text s => Some s
  | _ => None
  end.

Definition join (separator : string) (l : list Value) : option string :=
  String.concat separator <$> mapM joinItem l.

Section WithEnums.
Context (E : SymbolEnums).

Definition _useFlagToSymbolKind (flag : NonTerminalFlag) : Z :=
  match flag with
  | UseClass => kind_bits E SymbolKind.Class
  | UseConstant => kind_bits E SymbolKind.Constant
  | UseFunction => kind_bits E SymbolKind.Function
  | NoUseFlag => 0
  end.

(** The handlers below return [None] on a stack whose values do not have
    the shape the traversal gives them (a string or null where a name is
    expected, an array of rules where a list is expected). *)

Definition _postOrderUseElement (flag : NonTerminalFlag) (this : t) : option t :=
  match popMany (_stack this) 2 with
  | ([fqn; name], rest) =>
      let this' := {| _stack := rest; _active := _active this;
                      importTable := importTable this |} in
      match fqn with
      | Text f =>
          if truthyValue fqn then
            match name with
            | Text a =>
                Some (push (RuleValue {| kind := _useFlagToSymbolKind flag;
                                         fqn := f; name := Some a |}) this')
            | Null | Undefined =>
                Some (push (RuleValue {| kind := _useFlagToSymbolKind flag;
                                         fqn := f; name := None |}) this')
            | _ => None
            end
          else Some (push Null this')
      | Null | Undefined => Some (push Null this')
      | _ => None
      end
  | _ => None
  end.

Definition _postOrderUseList (children : nat) (this : t) : option t :=
  let '(popped, rest) := popMany (_stack this) children in
  Some (push (Array (List.filter truthyValue popped))
             {| _stack := rest; _active := _active this;
                importTable := importTable this |}).

(** The body of the loop of [_postOrderUseGroup]. *)
Definition prefixRule (prefix : Value) (kind : Z) (v : Value) : option ImportRule :=
  match v, prefix with
  | RuleValue rule, Text p =>
      let fqn' := if truthyValue prefix then p +:+ "\" +:+ fqn rule else fqn rule in
      Some {| kind := if truthy kind then kind else ImportTableReader.kind rule;
              fqn := fqn'; name := name rule |}
  | RuleValue rule, (Null | Undefined) =>
      Some {| kind := if truthy kind then kind else ImportTableReader.kind rule;
              fqn := fqn rule; name := name rule |}
  | _, _ => None
  end.

Definition _postOrderUseGroup (flag : NonTerminalFlag) (this : t) : option t :=
  let kind := _useFlagToSymbolKind flag in
  match popMany (_stack this) 2 with
  | ([prefix; Array list], rest) =>
      list' ← mapM (prefixRule prefix kind) list;
      Some {| _stack := rest; _active := _active this;
              importTable := addRuleMany list' (importTable this) |}
  | _ => None
  end.

(** The body of the loop of [_postOrderUseStatement]: [list[n].kind = kind]. *)
Definition setKind (kind : Z) (v : Value) : option ImportRule :=
  match v with
  | RuleValue rule => Some {| kind := kind; fqn := fqn rule; name := name rule |}
  | _ => None
  end.

Definition _postOrderUseStatement (flag : NonTerminalFlag) (this : t) : option t :=
  match _stack this with
  | Array list :: rest =>
      let kind := _useFlagToSymbolKind flag in
      list' ← mapM (setKind kind) list;
      Some {| _stack := rest; _active := _active this;
              importTable := addRuleMany list' (importTable this) |}
  | _ => None
  end.

(** *** The visitor *)

Definition preOrder (node : Tree) (this : t) : t :=
  match value node with
  | NonTerminal (UseStatement | UseGroup) _ =>
      {| _stack := _stack this; _active := S (_active this);
         importTable := importTable this |}
  | _ => this
  end.

Definition shouldDescend (node : Tree) : bool :=
  match value node with
  | NonTerminal (TopStatementList | UseElement | UseList | UseStatement | UseGroup
                 | NamespaceName | Namespace) _ => true
  | _ => false
  end.

(** [--this._active] *)
Definition leave (this : t) : t :=
  {| _stack := _stack this; _active := pred (_active this);
     importTable := importTable this |}.

(** [postOrder].  For a node without value, null is pushed and the
    [switch] then reads [nonTerminalType] of null: nothing returns from the
    function after the push. *)
Definition postOrder (node : Tree) (this : t) : option (result t) :=
  if _active this <? 1 then Some (Ok this)
  else
    match value node with
    | NoValue => Some (Throw TypeError)
    | NonTerminal NamespaceName _ =>
        let '(popped, rest) := popMany (_stack this) (length (children node)) in
        text ← join "\" popped;
        Some (Ok (push (Text text)
                    {| _stack := rest; _active := _active this;
                       importTable := importTable this |}))
    | NonTerminal UseElement flag => Ok <$> _postOrderUseElement flag this
    | NonTerminal UseList _ => Ok <$> _postOrderUseList (length (children node)) this
    | NonTerminal UseStatement flag =>
        (fun this' => Ok (leave this')) <$> _postOrderUseStatement flag this
    | NonTerminal UseGroup flag =>
        (fun this' => Ok (leave this')) <$> _postOrderUseGroup flag this
    | Token text => Some (Ok (push (Text text) this))
    | NonTerminal _ _ => Some (Ok this)
    end.

(** Modelled from the spec: [TreeTraverser.traverse] (types.ts is not among
    the sources).  Depth-first traversal: [preOrder] of the node, then,
    when [shouldDescend] says so, its children in order, then [postOrder]
    of the node.  An exception ends the traversal. *)
Definition visitAll (visit : Tree -> t -> option (result t))
  : list Tree -> t -> option (result t) :=
  fix visitAll (nodes : list Tree) (this : t) : option (result t) :=
    match nodes with
    | [] => Some (Ok this)
    | node :: nodes' =>
        match visit node this with
        | Some (Ok this') => visitAll nodes' this'
        | other => other
        end
    end.

Fixpoint traverse (node : Tree) (this : t) : option (result t) :=
  let this := preOrder node this in
  let descended :=
    if shouldDescend node
    then match node with Node _ children => visitAll traverse children this end
    else Some (Ok this) in
  match descended with
  | Some (Ok this') => postOrder node this'
  | other => other
  end.

(** *** Use statements and groups as trees *)

(** The trees the handlers take for granted.  A namespace name has a token
    for each of its segments.  A use element has two children, its name and
    its alias; the node of an alias that was not written has no value.  A
    use group has two children, its prefix and its list; a use statement
    has one, its list. *)
Record UseClause := {
  segments : list string;
  alias : option string;
  elementFlag : NonTerminalFlag
}.

Definition path (e : UseClause) : string := String.concat "\" (segments e).

Definition tokenNode (text : string) : Tree := Node (Token text) [].

Definition namespaceName (segments : list string) : Tree :=
  Node (NonTerminal NamespaceName NoUseFlag) (tokenNode <$> segments).

Definition aliasNode (alias : option string) : Tree :=
  Node (from_option Token NoValue alias) [].

Definition useElement (e : UseClause) : Tree :=
  Node (NonTerminal UseElement (elementFlag e))
    [namespaceName (segments e); aliasNode (alias e)].

Definition useList (elements : list UseClause) : Tree :=
  Node (NonTerminal UseList NoUseFlag) (useElement <$> elements).

Definition useGroup (flag : NonTerminalFlag) (prefix : list string)
    (elements : list UseClause) : Tree :=
  Node (NonTerminal UseGroup flag) [namespaceName prefix; useList elements].

Definition useStatement (flag : NonTerminalFlag) (elements : list UseClause) : Tree :=
  Node (NonTerminal UseStatement flag) [useList elements].

(** What [_postOrderUseElement] leaves on the stack for an element. *)
Definition elementValue (e : UseClause) : Value :=
  if bool_decide (path e = "") then Null
  else RuleValue {| kind := _useFlagToSymbolKind (elementFlag e);
                    fqn := path e; name := alias e |}.

(** *** What the claim says about the rules *)

(** The kind a flag stands for, if it stands for one. *)
Definition flagKind (flag : NonTerminalFlag) : option SymbolKind.t :=
  match flag with
  | UseClass => Some SymbolKind.Class
  | UseConstant => Some SymbolKind.Constant
  | UseFunction => Some SymbolKind.Function
  | NoUseFlag => None
  end.

Definition written (e : UseClause) : bool := negb (bool_decide (path e = "")).

Definition aliased (e : UseClause) : bool := bool_decide (is_Some (alias e)).

(** The rule of an element of a group with the flag [flag] and the prefix
    [P]: the kind is that of the flag of the group when it has one, and
    that of the element's own flag otherwise. *)
Definition groupRule (flag : NonTerminalFlag) (P : string) (e : UseClause) : ImportRule :=
  {| kind := match flagKind flag, flagKind (elementFlag e) with
             | Some k, _ => kind_bits E k
             | None, Some k => kind_bits E k
             | None, None => 0
             end;
     fqn := if bool_decide (P = "") then path e else P +:+ "\" +:+ path e;
     name := alias e |}.

(** The rule of an element of a use statement with the flag [flag]: the
    kind is that of the flag of the statement, and 0 when it has none. *)
Definition statementRule (flag : NonTerminalFlag) (e : UseClause) : ImportRule :=
  {| kind := match flagKind flag with
             | Some k => kind_bits E k
             | None => 0
             end;
     fqn := path e;
     name := alias e |}.

End WithEnums.
End ImportTableReader.

(** ** SymbolReader (visitors.ts): attaching a docblock to a function *)

Module SymbolReader.

(** A tag of a parsed docblock, read as a [TypeTag]. *)
Record Tag := {
  tagName : string;
  name : string;
  typeString : string;
  description : string
}.

Record PhpDoc := {
  summary : string;
  tags : list Tag
}.

Section WithTypeString.
(** [TypeString] (symbol.ts) and the docblock parser (parse.ts) are not
    among the sources; the reader only constructs a type string from text,
    merges text into one, and parses the text of a docblock (to null when
    there is nothing to read). *)
Context {TypeString : Type}.
Context (newTypeString : string -> TypeString).
Context (merge : TypeString -> string -> TypeString).
Context (parse : string -> option PhpDoc).

(** The fields of a symbol the reader assigns. *)
Record PhpSymbol := {
  symbolKind : SymbolKind.t;
  symbolName : string;
  symbolType : option TypeString;
  symbolDescription : option string;
  symbolModifiers : Z;
  symbolScope : option string
}.

(** [t === undefined ? new TypeString(text) : t.merge(text)] *)
Definition setOrMerge (t : option TypeString) (text : string) : TypeString :=
  match t with
  | None => newTypeString text
  | Some t => merge t text
  end.

(** [param.description = tag.description; param.type = ...] *)
Definition documentParam (tag : Tag) (param : PhpSymbol) : PhpSymbol :=
  {| symbolKind := symbolKind param;
     symbolName := symbolName param;
     symbolType := Some (setOrMerge (symbolType param) (typeString tag));
     symbolDescription := Some (description tag);
     symbolModifiers := symbolModifiers param;
     symbolScope := symbolScope param |}.

(** [s.type = ...] for an [@return] tag *)
Definition documentReturn (tag : Tag) (s : PhpSymbol) : PhpSymbol :=
  {| symbolKind := symbolKind s;
     symbolName := symbolName s;
     symbolType := Some (setOrMerge (symbolType s) (typeString tag));
     symbolDescription := symbolDescription s;
     symbolModifiers := symbolModifiers s;
     symbolScope := symbolScope s |}.

(** [s.description = phpDoc.summary] *)
Definition describe (summary : string) (s : PhpSymbol) : PhpSymbol :=
  {| symbolKind := symbolKind s;
     symbolName := symbolName s;
     symbolType := symbolType s;
     symbolDescription := Some summary;
     symbolModifiers := symbolModifiers s;
     symbolScope := symbolScope s |}.

(** The objects the method assigns to: the function or method [s] and its
    parameters; an entry of [params] is null for a parameter without name. *)
Record Symbols := {
  s : PhpSymbol;
  params : list (option PhpSymbol)
}.

(** The first loop: [param = params[n].value; paramMap[param.name] = param].
    The map refers to a parameter by its index in [params]. *)
Definition paramMapStep (st : nat * gmap string nat) (param : option PhpSymbol)
  : result (nat * gmap string nat) :=
  match param with
  | None => Throw TypeError
  | Some p => Ok (S (fst st), <[symbolName p := fst st]> (snd st))
  end.

(** The second loop, one tag.  Under the name of a function of
    [Object.prototype], [paramMap] holds that function: the assignments go
    to it, and no symbol changes. *)
Definition tagStep (paramMap : gmap string nat) (st : Symbols) (tag : Tag) : Symbols :=
  if bool_decide (tagName tag = "@param") then
    match paramMap !! name tag with
    | Some i => {| s := s st; params := alter (fmap (documentParam tag)) i (params st) |}
    | None => st
    end
  else if bool_decide (tagName tag = "@return") then
    {| s := documentReturn tag (s st); params := params st |}
  else st.

(** [doc] is the docblock token's text, null when there is no docblock. *)
Definition _assignFunctionOrMethodPhpDoc (st : Symbols) (doc : option string)
  : result Symbols :=
  match doc with
  | None => Ok st
  | Some text =>
      match parse text with
      | None => Ok st
      | Some phpDoc =>
          let st := {| s := describe (summary phpDoc) (s st); params := params st |} in
          m <- for_each paramMapStep (params st) (0, ∅) ;;
          Ok (fold_left (tagStep (snd m)) (tags phpDoc) st)
      end
  end.

(** The parameter [p] after the [@param] tags of [l], and the function [f]
    after the [@return] tags of [l], as the second loop leaves them. *)
Definition paramAfter (p : PhpSymbol) (l : list Tag) : PhpSymbol :=
  fold_left (fun p tag => documentParam tag p) l p.

Definition functionAfter (f : PhpSymbol) (l : list Tag) : PhpSymbol :=
  fold_left (fun f tag => documentReturn tag f) l f.

(** [paramMap] refers, under each parameter name, to the last parameter of
    that name. *)
Definition LastIndex (names : list string) (m : gmap string nat) : Prop :=
  forall n i, m !! n = Some i <-> names !! i = Some n /\ n ∉ drop (S i) names.

(** *** What the claim says about the tags *)

(** The definitions of this part follow the words of the claim and use
    nothing of the reader; the theorems compare them with what the reader
    does. *)

(** A type after the tags of [l] have reached it, in order: the type
    "becomes the tag's type if [there was] no type yet, and otherwise the
    union (merge) of the existing type with the tag's type". *)
Definition typeAfter (t : option TypeString) (l : list Tag) : option TypeString :=
  fold_left (fun t tag =>
               match t with
               | None => Some (newTypeString (typeString tag))
               | Some existing => Some (merge existing (typeString tag))
               end) l t.

(** A description after the tags of [l]: that of the last of them. *)
Definition descriptionAfter (d : option string) (l : list Tag) : option string :=
  fold_left (fun _ tag => Some (description tag)) l d.

Definition isReturnTag (tag : Tag) : bool := bool_decide (tagName tag = "@return").

(** The [@param] tags that name the parameter at index [i]: those whose
    name is [n], provided no later parameter is called [n] too. *)
Definition namesParam (names : list string) (i : nat) (n : string) (tag : Tag) : bool :=
  bool_decide (tagName tag = "@param") && bool_decide (name tag = n)
  && bool_decide (n ∉ drop (S i) names).

(** The function [f] and its parameters [ps] with the docblock [phpDoc]
    attached: the function has the summary for its description and has met
    the [@return] tags; every parameter has met the [@param] tags that name
    it; nothing else has changed. *)
Definition documented (phpDoc : PhpDoc) (f : PhpSymbol) (ps : list PhpSymbol) : Symbols :=
  {| s :=
       {| symbolKind := symbolKind f;
          symbolName := symbolName f;
          symbolType := typeAfter (symbolType f) (List.filter isReturnTag (tags phpDoc));
          symbolDescription := Some (summary phpDoc);
          symbolModifiers := symbolModifiers f;
          symbolScope := symbolScope f |};
     params :=
       imap (fun i p =>
               let named :=
                 List.filter (namesParam (symbolName <$> ps) i (symbolName p))
                   (tags phpDoc) in
               Some {| symbolKind := symbolKind p;
                       symbolName := symbolName p;
                       symbolType := typeAfter (symbolType p) named;
                       symbolDescription := descriptionAfter (symbolDescription p) named;
                       symbolModifiers := symbolModifiers p;
                       symbolScope := symbolScope p |}) ps |}.

(** *** Modifiers of a declaration *)

Context (E : SymbolEnums).

(** The modifier flags of [NonTerminalFlag] (php7parser); their numeric
    values are left open. *)
Context (ModifierFinal ModifierAbstract ModifierPrivate ModifierProtected
         ModifierPublic ModifierStatic : Z).

(** [(flag & F) === F] *)
Definition flagSet (flag F : Z) : bool := (js_and flag F =? F)%Z.

Definition _nonTerminalFlagToSymbolModifier (flag : Z) : Z :=
  let symbolModifier := 0%Z in
  let symbolModifier :=
    if flagSet flag ModifierFinal then modifier_bits E SymbolModifier.Final
    else symbolModifier in
  let symbolModifier :=
    if flagSet flag ModifierAbstract
    then js_or symbolModifier (modifier_bits E SymbolModifier.Abstract)
    else symbolModifier in
  let symbolModifier :=
    if flagSet flag ModifierPrivate
    then js_or symbolModifier (modifier_bits E SymbolModifier.Private)
    else symbolModifier in
  let symbolModifier :=
    if flagSet flag ModifierProtected
    then js_or symbolModifier (modifier_bits E SymbolModifier.Protected)
    else symbolModifier in
  let symbolModifier :=
    if flagSet flag ModifierPublic
    then js_or symbolModifier (modifier_bits E SymbolModifier.Public)
    else symbolModifier in
  let symbolModifier :=
    if flagSet flag ModifierStatic
    then js_or symbolModifier (modifier_bits E SymbolModifier.Static)
    else symbolModifier in
  symbolModifier.

(** The parser flag that stands for a modifier, if it has one. *)
Definition parserFlag (m : SymbolModifier.t) : option Z :=
  match m with
  | SymbolModifier.Final => Some ModifierFinal
  | SymbolModifier.Abstract => Some ModifierAbstract
  | SymbolModifier.Private => Some ModifierPrivate
  | SymbolModifier.Protected => Some ModifierProtected
  | SymbolModifier.Public => Some ModifierPublic
  | SymbolModifier.Static => Some ModifierStatic
  | _ => None
  end.

(** [modifiers & SymbolModifier.M] is truthy. *)
Definition carries (m : SymbolModifier.t) (modifiers : Z) : bool :=
  truthy (js_and modifiers (modifier_bits E m)).

(** No two modifiers share a bit. *)
Definition DisjointModifiers : Prop :=
  forall m m', m <> m' -> Z.land (modifier_bits E m) (modifier_bits E m') = 0%Z.

(** The bits of the modifiers of [l], taken together. *)
Definition orBits (l : list SymbolModifier.t) : Z :=
  foldr (fun m acc => Z.lor (modifier_bits E m) acc) 0%Z l.

(** The modifiers a declaration can be written with, in the order in which
    [_nonTerminalFlagToSymbolModifier] looks for them, and those of them
    that the flag [flag] has. *)
Definition declarable : list SymbolModifier.t :=
  [SymbolModifier.Final; SymbolModifier.Abstract; SymbolModifier.Private;
   SymbolModifier.Protected; SymbolModifier.Public; SymbolModifier.Static].

Definition declared (flag : Z) (m : SymbolModifier.t) : bool :=
  match parserFlag m with
  | Some F => flagSet flag F
  | None => false
  end.

(** *** Symbols in the tree *)

(** Modelled from the spec: [Tree] (types.ts) and the constructor of
    [PhpSymbol] (symbol.ts) are not among the sources.  The children of a
    symbol are an ordered list, to which [addChild] adds at the end; a new
    symbol has the kind and the name it is given, no modifier, and neither
    type, description nor scope. *)
#[warnings="-register-all"]
Inductive Tree := mkTree {
  value : PhpSymbol;
  treeChildren : list Tree
}.

Definition addChild (child : Tree) (t : Tree) : Tree :=
  mkTree (value t) (treeChildren t ++ [child]).

Definition newPhpSymbol (kind : SymbolKind.t) (name : string) : PhpSymbol :=
  {| symbolKind := kind; symbolName := name; symbolType := None;
     symbolDescription := None; symbolModifiers := 0; symbolScope := None |}.

(** *** The docblock of a property declaration *)

(** [tag.tagName === '@var' && (!tag.name || tag.name === s.name)]; the
    name of a tag without name is empty. *)
Definition isVarTagFor (s : PhpSymbol) (tag : Tag) : bool :=
  bool_decide (tagName tag = "@var")
  && (bool_decide (name tag = "") || bool_decide (name tag = symbolName s)).

(** [s.description = tag.description; s.type = new TypeString(tag.typeString)] *)
Definition documentProperty (tag : Tag) (s : PhpSymbol) : PhpSymbol :=
  {| symbolKind := symbolKind s;
     symbolName := symbolName s;
     symbolType := Some (newTypeString (typeString tag));
     symbolDescription := Some (description tag);
     symbolModifiers := symbolModifiers s;
     symbolScope := symbolScope s |}.

(** The loop of [_assignPropertyPhpDoc], which ends at the first tag it
    applies. *)
Fixpoint propertyTagLoop (s : PhpSymbol) (l : list Tag) : PhpSymbol :=
  match l with
  | [] => s
  | tag :: l' => if isVarTagFor s tag then documentProperty tag s else propertyTagLoop s l'
  end.

Definition _assignPropertyPhpDoc (s : PhpSymbol) (doc : option PhpDoc) : PhpSymbol :=
  match doc with
  | None => s
  | Some phpDoc => propertyTagLoop s (tags phpDoc)
  end.

(** [prop.value.modifiers = modifiers] *)
Definition setModifiers (modifiers : Z) (s : PhpSymbol) : PhpSymbol :=
  {| symbolKind := symbolKind s;
     symbolName := symbolName s;
     symbolType := symbolType s;
     symbolDescription := symbolDescription s;
     symbolModifiers := modifiers;
     symbolScope := symbolScope s |}.

(** [_postOrderPropertyOrClassConstantDeclarationStatement], from the list
    it pops (a null entry for a declaration without name) to the list it
    pushes; [flag] and [doc] are those of the node, [doc] the text of its
    docblock token when it has one. *)
Definition _postOrderPropertyOrClassConstantDeclarationStatement
    (popped : list (option Tree)) (flag : Z) (doc : option string) : list Tree :=
  let modifiers := _nonTerminalFlagToSymbolModifier flag in
  let doc := match doc with Some text => parse text | None => None end in
  fold_left
    (fun filtered prop =>
       match prop with
       | None => filtered
       | Some prop =>
           filtered
           ++ [mkTree (_assignPropertyPhpDoc (setModifiers modifiers (value prop)) doc)
                 (treeChildren prop)]
       end)
    popped [].

(** The first [@var] tag of [l] that bears no name or the name of [s]. *)
Definition varTagFor (s : PhpSymbol) (l : list Tag) : option Tag :=
  List.find (isVarTagFor s) l.

(** The non-null entries of an array. *)
Definition nonNull {A : Type} (l : list (option A)) : list A := omap id l.

(** *** The docblock of a class *)

(** A parameter of a [@method] tag, and the tag itself, read as a
    [MethodTag]. *)
Record MethodTagParam := {
  parameterTypeString : string;
  parameterName : string
}.

Record MethodTag := {
  methodTagName : string;
  methodName : string;
  methodDescription : string;
  returnTypeString : string;
  parameters : list MethodTagParam
}.

(** A tag of a class docblock is read as a [TypeTag] or as a [MethodTag]. *)
Inductive AnyTag :=
  | IsTypeTag (tag : Tag)
  | IsMethodTag (tag : MethodTag).

Record ClassPhpDoc := {
  classSummary : string;
  classTags : list AnyTag
}.

(** [docBlockParser.parse] once more, its result read with its method
    tags. *)
Context (parseClassDoc : string -> option ClassPhpDoc).

Definition anyTagName (tag : AnyTag) : string :=
  match tag with
  | IsTypeTag t => tagName t
  | IsMethodTag m => methodTagName m
  end.

(** [hay.indexOf(needle) !== -1] *)
Definition includes (needle hay : string) : bool :=
  match String.index 0 needle hay with
  | Some _ => true
  | None => false
  end.

Definition _propertyTagToTreeSymbol (tag : Tag) : Tree :=
  let modifiers :=
    js_or (modifier_bits E SymbolModifier.Public) (modifier_bits E SymbolModifier.Magic) in
  let modifiers :=
    if bool_decide (tagName tag = "@property-write")
    then js_or modifiers (modifier_bits E SymbolModifier.WriteOnly)
    else if bool_decide (tagName tag = "@property-read")
    then js_or modifiers (modifier_bits E SymbolModifier.ReadOnly)
    else modifiers in
  let s := newPhpSymbol SymbolKind.Property (name tag) in
  mkTree {| symbolKind := symbolKind s;
            symbolName := symbolName s;
            symbolType := Some (newTypeString (typeString tag));
            symbolDescription := Some (description tag);
            symbolModifiers := modifiers;
            symbolScope := symbolScope s |} [].

Definition _methodTagParamToSymbol (methodTagParam : MethodTagParam) : Tree :=
  let s := newPhpSymbol SymbolKind.Parameter_ (parameterName methodTagParam) in
  mkTree {| symbolKind := symbolKind s;
            symbolName := symbolName s;
            symbolType := Some (newTypeString (parameterTypeString methodTagParam));
            symbolDescription := symbolDescription s;
            symbolModifiers := symbolModifiers s;
            symbolScope := symbolScope s |} [].

Definition _methodTagToTreeSymbol (tag : MethodTag) : Tree :=
  let s := newPhpSymbol SymbolKind.Method (methodName tag) in
  let t :=
    mkTree {| symbolKind := symbolKind s;
              symbolName := symbolName s;
              symbolType := Some (newTypeString (returnTypeString tag));
              symbolDescription := Some (methodDescription tag);
              symbolModifiers :=
                js_or (modifier_bits E SymbolModifier.Public)
                      (modifier_bits E SymbolModifier.Magic);
              symbolScope := symbolScope s |} [] in
  fold_left (fun t p => addChild (_methodTagParamToSymbol p) t) (parameters tag) t.

(** One turn of the loop of [_addClassMagicMembers].  [None] stands for a
    tag whose shape does not fit its name (a [@method] tag read as a
    [TypeTag], or the other way round), which the parser does not
    produce. *)
Definition magicMemberStep (classNode : Tree) (tag : AnyTag) : option Tree :=
  if includes "@property" (anyTagName tag) then
    match tag with
    | IsTypeTag t => Some (addChild (_propertyTagToTreeSymbol t) classNode)
    | IsMethodTag _ => None
    end
  else if bool_decide (anyTagName tag = "@method") then
    match tag with
    | IsMethodTag m => Some (addChild (_methodTagToTreeSymbol m) classNode)
    | IsTypeTag _ => None
    end
  else Some classNode.

Fixpoint _addClassMagicMembers (classNode : Tree) (l : list AnyTag) : option Tree :=
  match l with
  | [] => Some classNode
  | tag :: l' =>
      classNode' ← magicMemberStep classNode tag;
      _addClassMagicMembers classNode' l'
  end.

(** [doc] is the text of the docblock token, null when the class has no
    docblock.  What the parser returns is used without a test. *)
Definition _assignClassPhpDoc (t : Tree) (doc : option string) : option (result Tree) :=
  match doc with
  | None => Some (Ok t)
  | Some text =>
      match parseClassDoc text with
      | None => Some (Throw TypeError)      (* [phpDoc.summary] with [phpDoc] null *)
      | Some phpDoc =>
          Ok <$> _addClassMagicMembers
                   (mkTree (describe (classSummary phpDoc) (value t)) (treeChildren t))
                   (classTags phpDoc)
      end
  end.

(** *** The members a class docblock declares *)

Definition isMemberTag (tag : AnyTag) : bool :=
  includes "@property" (anyTagName tag) || bool_decide (anyTagName tag = "@method").

Definition wellShaped (tag : AnyTag) : bool :=
  match tag with
  | IsTypeTag t => negb (bool_decide (tagName t = "@method"))
  | IsMethodTag m => negb (includes "@property" (methodTagName m))
  end.

Definition memberKind (tag : AnyTag) : SymbolKind.t :=
  match tag with
  | IsTypeTag _ => SymbolKind.Property
  | IsMethodTag _ => SymbolKind.Method
  end.

Definition memberName (tag : AnyTag) : string :=
  match tag with
  | IsTypeTag t => name t
  | IsMethodTag m => methodName m
  end.

(** The modifiers of the member a tag declares. *)
Definition memberModifiers (tag : AnyTag) : list SymbolModifier.t :=
  SymbolModifier.Public :: SymbolModifier.Magic ::
  match tag with
  | IsTypeTag t =>
      if bool_decide (tagName t = "@property-write") then [SymbolModifier.WriteOnly]
      else if bool_decide (tagName t = "@property-read") then [SymbolModifier.ReadOnly]
      else []
  | IsMethodTag _ => []
  end.

(** The member a tag declares. *)
Definition memberOf (tag : AnyTag) : Tree :=
  match tag with
  | IsTypeTag t => _propertyTagToTreeSymbol t
  | IsMethodTag m => _methodTagToTreeSymbol m
  end.

(** A member as the docblock of a class declares it: public and magic, and
    without scope. *)
Definition isMagicMember (m : Tree) : bool :=
  carries SymbolModifier.Magic (symbolModifiers (value m))
  && carries SymbolModifier.Public (symbolModifiers (value m))
  && bool_decide (symbolScope (value m) = None).

End WithTypeString.
End SymbolReader.

(** ** ParsedDocumentStore (parsedDocument.ts) *)

Module ParsedDocumentStore.

(** A parsed document; of its fields the store reads [uri] only. *)
Record ParsedDocument := {
  uri : string;
  text : string
}.

Section WithEvent.
(** [Event] (types.ts) is not among the sources: [subscribe] hands back the
    function that undoes the subscription. *)
Context {Unsubscribe : Type}.
Context (subscribe : ParsedDocument -> Unsubscribe).

Record t := {
  _parsedDocumentmap : gmap string ParsedDocument;
  _unsubscribeMap : gmap string Unsubscribe
}.

(** [new ParsedDocumentStore()] *)
Definition new : t := {| _parsedDocumentmap := ∅; _unsubscribeMap := ∅ |}.

Definition count (this : t) : nat := size (_parsedDocumentmap this).

(** [_parsedDocumentmap[uri] !== undefined]: true of a document filed
    under [uri], and of a property that [_parsedDocumentmap] inherits. *)
Definition has (uri : string) (this : t) : bool :=
  match get (_parsedDocumentmap this) uri with
  | Absent => false
  | Own _ | Inherited => true
  end.

(** Each method returns what the call did (returned or threw) and the store
    as the call left it. *)
Definition add (parsedDocument : ParsedDocument) (this : t) : result unit * t :=
  if has (uri parsedDocument) this then (Throw (Error "Duplicate key"), this)
  else
    (Ok (),
     {| _parsedDocumentmap := <[uri parsedDocument := parsedDocument]> (_parsedDocumentmap this);
        _unsubscribeMap := <[uri parsedDocument := subscribe parsedDocument]> (_unsubscribeMap this) |}).

(** [unsubscribe()] when [unsubscribe] is the property of
    [Object.prototype] called [key]: a call without arguments, with
    [undefined] for [this] (the file is in strict mode).  [constructor] is
    [Object], which returns a new object; [toString] returns
    ['[object Undefined]']; [isPrototypeOf] returns false for an argument
    that is not an object.  [__proto__] is [Object.prototype] itself, not a
    function; the other functions first turn [this] into an object; both
    throw a TypeError. *)
Definition callInherited (key : string) : result unit :=
  if bool_decide (key ∈ ["constructor"; "toString"; "isPrototypeOf"]) then Ok ()
  else Throw TypeError.

(** [delete] of a key the object has no property of its own under does
    nothing. *)
Definition remove (uri : string) (this : t) : result unit * t :=
  if negb (has uri this) then (Ok (), this)
  else
    let removed :=
      {| _parsedDocumentmap := delete uri (_parsedDocumentmap this);
         _unsubscribeMap := _unsubscribeMap this |} in
    match get (_unsubscribeMap this) uri with
    | Absent => (Throw TypeError, this)      (* [unsubscribe()] with [unsubscribe] undefined *)
    | Own unsubscribe => (Ok (), removed)
    | Inherited =>
        match callInherited uri with
        | Ok _ => (Ok (), removed)
        | Throw e => (Throw e, this)
        end
    end.

(** [find] returns whatever [_parsedDocumentmap[uri]] is. *)
Definition find (uri : string) (this : t) : Property ParsedDocument :=
  get (_parsedDocumentmap this) uri.

(** Every document of the store has its subscription recorded, and no
    subscription is recorded under the name of a property of
    [Object.prototype]: true of the new store and kept by [add] and
    [remove]. *)
Definition subscribed (this : t) : Prop :=
  (forall uri, is_Some (_parsedDocumentmap this !! uri) ->
               is_Some (_unsubscribeMap this !! uri))
  /\ (forall uri, is_Some (_unsubscribeMap this !! uri) -> inheritedKey uri = false).

(** The stores a program can get hold of: the new store, and what a call
    of [add] or [remove] leaves behind, whether it returned or threw. *)
Inductive reachable : t -> Prop :=
  | reachable_new : reachable new
  | reachable_add parsedDocument this :
      reachable this -> reachable (snd (add parsedDocument this))
  | reachable_remove uri this :
      reachable this -> reachable (snd (remove uri this)).

End WithEvent.
End ParsedDocumentStore.

(** ** Intelephense.openDocument (intelephense.ts) *)

Module Intelephense.

Definition phpLanguageId : string := "php".

(** [lsp.TextDocumentItem] *)
Record TextDocumentItem := {
  uri : string;
  languageId : string;
  version : Z;
  text : string
}.

Section WithCollaborators.
(** The symbol store, the symbol table and the diagnostics provider are not
    among the sources; [openDocument] only calls them, and what a call does
    to the collaborator's own state is all that is modelled of it. *)
Context {Unsubscribe SymbolStore SymbolTable DiagnosticsProvider : Type}.
Context (subscribe : ParsedDocumentStore.ParsedDocument -> Unsubscribe).
Context (SymbolTable_create : ParsedDocumentStore.ParsedDocument -> SymbolTable).
Context (SymbolTable_uri : SymbolTable -> string).
Context (symbolStore_remove : string -> SymbolStore -> SymbolStore).
Context (symbolStore_add : SymbolTable -> SymbolStore -> SymbolStore).
Context (diagnosticsProvider_add :
  ParsedDocumentStore.ParsedDocument -> DiagnosticsProvider -> DiagnosticsProvider).

(** The module-level bindings [openDocument] uses. *)
Record t := {
  documentStore : ParsedDocumentStore.t (Unsubscribe := Unsubscribe);
  symbolStore : SymbolStore;
  diagnosticsProvider : DiagnosticsProvider
}.

(** What a call did: returned or threw, the bindings as it left them, and
    the symbol tables it created. *)
Record Outcome := {
  completion : result unit;
  after : t;
  created : list SymbolTable
}.

Definition openDocument (textDocument : TextDocumentItem) (this : t) : Outcome :=
  if negb (bool_decide (languageId textDocument = phpLanguageId))
     || ParsedDocumentStore.has (uri textDocument) (documentStore this)
  then {| completion := Ok (); after := this; created := [] |}
  else
    let parsedDocument :=
      {| ParsedDocumentStore.uri := uri textDocument;
         ParsedDocumentStore.text := text textDocument |} in
    match ParsedDocumentStore.add subscribe parsedDocument (documentStore this) with
    | (Throw e, documents) =>
        {| completion := Throw e;
           after := {| documentStore := documents; symbolStore := symbolStore this;
                       diagnosticsProvider := diagnosticsProvider this |};
           created := [] |}
    | (Ok _, documents) =>
        let symbolTable := SymbolTable_create parsedDocument in
        (* must remove before adding as entry may exist already from workspace discovery *)
        let symbols := symbolStore_remove (SymbolTable_uri symbolTable) (symbolStore this) in
        let symbols := symbolStore_add symbolTable symbols in
        {| completion := Ok ();
           after := {| documentStore := documents; symbolStore := symbols;
                       diagnosticsProvider :=
                         diagnosticsProvider_add parsedDocument (diagnosticsProvider this) |};
           created := [symbolTable] |}
    end.

(** *** closeDocument, discover, forget *)

(** Further calls on the collaborators: [diagnosticsProvider.remove],
    [symbolStore.getSymbolTable] (undefined when the store has no table
    for the URI) and [symbolTable.count]. *)
Context (diagnosticsProvider_remove : string -> DiagnosticsProvider -> DiagnosticsProvider).
Context (symbolStore_getSymbolTable : string -> SymbolStore -> option SymbolTable).
Context (SymbolTable_count : SymbolTable -> Z).

(** [closeDocument(textDocument)] reads [textDocument.uri] only. *)
Definition closeDocument (uri : string) (this : t) : result unit * t :=
  match ParsedDocumentStore.remove uri (documentStore this) with
  | (Throw e, documents) =>
      (Throw e,
       {| documentStore := documents; symbolStore := symbolStore this;
          diagnosticsProvider := diagnosticsProvider this |})
  | (Ok _, documents) =>
      (Ok (),
       {| documentStore := documents; symbolStore := symbolStore this;
          diagnosticsProvider := diagnosticsProvider_remove uri (diagnosticsProvider this) |})
  end.

(** [discover] and [forget] return a number of symbols. *)
Definition discover (textDocument : TextDocumentItem) (this : t) : Z * t :=
  let uri := uri textDocument in
  if ParsedDocumentStore.has uri (documentStore this) then
    (* if document is in doc store/opened then dont rediscover *)
    (match symbolStore_getSymbolTable uri (symbolStore this) with
     | Some symbolTable => SymbolTable_count symbolTable
     | None => 0%Z
     end, this)
  else
    let parsedDocument :=
      {| ParsedDocumentStore.uri := uri;
         ParsedDocumentStore.text := text textDocument |} in
    let symbolTable := SymbolTable_create parsedDocument in
    let symbols := symbolStore_remove uri (symbolStore this) in
    let symbols := symbolStore_add symbolTable symbols in
    (SymbolTable_count symbolTable,
     {| documentStore := documentStore this; symbolStore := symbols;
        diagnosticsProvider := diagnosticsProvider this |}).

Definition forget (uri : string) (this : t) : Z * t :=
  match symbolStore_getSymbolTable uri (symbolStore this) with
  | None => (0%Z, this)
  | Some table =>
      if ParsedDocumentStore.has uri (documentStore this) then (0%Z, this)
      else
        (SymbolTable_count table,
         {| documentStore := documentStore this;
            symbolStore := symbolStore_remove (SymbolTable_uri table) (symbolStore this);
            diagnosticsProvider := diagnosticsProvider this |})
  end.

Definition numberDocumentsOpen (this : t) : nat :=
  ParsedDocumentStore.count (documentStore this).

(** *** onDiagnosticsStart and onPublishDiagnostics *)

(** The two events of the diagnostics provider: [subscribe] registers a
    handler with the provider and hands back the function that undoes it. *)
Context {StartHandler PublishHandler : Type}.
Context (startDiagnosticsEvent_subscribe :
  StartHandler -> DiagnosticsProvider -> Unsubscribe * DiagnosticsProvider).
Context (publishDiagnosticsEvent_subscribe :
  PublishHandler -> DiagnosticsProvider -> Unsubscribe * DiagnosticsProvider).

(** The module-level bindings the two functions use. *)
Record Handlers := {
  unsubscribeMap : gmap string Unsubscribe;
  provider : DiagnosticsProvider
}.

(** [unsubscribe(key)].  In [unsubscribe[key]()] the name [unsubscribe] is
    this very function, and a function has no property called
    [diagnosticsStart] or [publishDiagnostics], the two keys it is called
    with: the call is a call of undefined. *)
Definition unsubscribe (key : string) (map : gmap string Unsubscribe)
  : result (gmap string Unsubscribe) :=
  match map !! key with
  | Some _ =>
      _ <- (Throw TypeError : result unit) ;;
      Ok (delete key map)
  | None => Ok map
  end.

Definition onDiagnosticsStart (fn : option StartHandler) (this : Handlers)
  : result unit * Handlers :=
  let key := "diagnosticsStart" in
  match unsubscribe key (unsubscribeMap this) with
  | Throw e => (Throw e, this)
  | Ok map =>
      match fn with
      | Some f =>
          let '(u, p) := startDiagnosticsEvent_subscribe f (provider this) in
          (Ok (), {| unsubscribeMap := <[key := u]> map; provider := p |})
      | None => (Ok (), {| unsubscribeMap := map; provider := provider this |})
      end
  end.

Definition onPublishDiagnostics (fn : option PublishHandler) (this : Handlers)
  : result unit * Handlers :=
  let key := "publishDiagnostics" in
  match unsubscribe key (unsubscribeMap this) with
  | Throw e => (Throw e, this)
  | Ok map =>
      match fn with
      | Some f =>
          let '(u, p) := publishDiagnosticsEvent_subscribe f (provider this) in
          (Ok (), {| unsubscribeMap := <[key := u]> map; provider := p |})
      | None => (Ok (), {| unsubscribeMap := map; provider := provider this |})
      end
  end.

End WithCollaborators.
End Intelephense.

(** ** The namespace ParsedDocument (parsedDocument.ts): tokens and phrases *)

Module ParsedDocument.

(** [Token] and [Phrase] of php7parser, as the functions below read them.
    [tokenType] and [phraseType] are members of numeric enumerations; a
    node is a token when it has a [tokenType] and a phrase when it has a
    [phraseType]. *)
Record Token := {
  tokenType : Z;
  offset : Z;
  length : Z
}.

#[warnings="-register-all"]
Inductive Node :=
  | TokenNode (t : Token)
  | PhraseNode (phraseType : Z) (children : list Node).

(** [node && node.tokenType !== undefined &&
     (!types || types.indexOf(node.tokenType) > -1)], as a condition reads
    it; [node] may be null and [types] may be left out. *)
Definition isToken (node : option Node) (types : option (list Z)) : bool :=
  match node with
  | Some (TokenNode t) =>
      match types with
      | None => true
      | Some l => bool_decide (tokenType t ∈ l)
      end
  | _ => false
  end.

Definition isPhrase (node : option Node) (types : option (list Z)) : bool :=
  match node with
  | Some (PhraseNode phraseType _) =>
      match types with
      | None => true
      | Some l => bool_decide (phraseType ∈ l)
      end
  | _ => false
  end.

(** The loop of [firstToken]: the children from the first on, returning at
    the first one in which [f] finds a token. *)
Definition firstSome {A B : Type} (f : A -> option B) : list A -> option B :=
  fix loop (l : list A) : option B :=
    match l with
    | [] => None
    | child :: l' =>
        match f child with
        | Some t => Some t
        | None => loop l'
        end
    end.

(** The loop of [lastToken]: the children from the last one down,
    returning at the first one in which [f] finds a token. *)
Definition lastSome {A B : Type} (f : A -> option B) : list A -> option B :=
  fix loop (l : list A) : option B :=
    match l with
    | [] => None
    | child :: l' =>
        match loop l' with
        | Some t => Some t
        | None => f child
        end
    end.

Fixpoint firstToken (node : Node) : option Token :=
  match node with
  | TokenNode t => Some t
  | PhraseNode _ children => firstSome firstToken children
  end.

Fixpoint lastToken (node : Node) : option Token :=
  match node with
  | TokenNode t => Some t
  | PhraseNode _ children => lastSome lastToken children
  end.

(** [offset > -1 && isToken(t) && t.offset <= offset &&
     t.offset + t.length - 1 >= offset] *)
Definition isOffsetInToken (offset_ : Z) (t : option Node) : bool :=
  match t with
  | Some (TokenNode t') =>
      (-1 <? offset_)%Z && isToken t None
      && (offset t' <=? offset_)%Z && (offset_ <=? offset t' + length t' - 1)%Z
  | _ => false
  end.

Definition isOffsetInNode (offset_ : Z) (node : option Node) : bool :=
  match node with
  | None => false
  | Some n =>
      if (offset_ <? 0)%Z then false
      else if isToken node None then isOffsetInToken offset_ node
      else
        match firstToken n, lastToken n with
        | Some tFirst, Some tLast =>
            (offset tFirst <=? offset_)%Z && (offset_ <=? offset tLast + length tLast - 1)%Z
        | _, _ => false
        end
  end.

(** [findChild] and [filterChildren]; a parent that is null or has no
    array of children (a token) has no child to offer. *)
Definition findChild (parent : option Node) (fn : Node -> bool) : option Node :=
  match parent with
  | Some (PhraseNode _ children) =>
      (fix loop (l : list Node) : option Node :=
         match l with
         | [] => None
         | child :: l' => if fn child then Some child else loop l'
         end) children
  | _ => None
  end.

Definition filterChildren (parent : option Node) (fn : Node -> bool) : list Node :=
  match parent with
  | Some (PhraseNode _ children) =>
      fold_left (fun filtered child => if fn child then filtered ++ [child] else filtered)
        children []
  | _ => []
  end.

(** *** The tokens of a node *)

(** The tokens of the subtree of [node], from left to right. *)
Fixpoint tokens (node : Node) : list Token :=
  match node with
  | TokenNode t => [t]
  | PhraseNode _ children => concat (List.map tokens children)
  end.

(** Every token starts where the token before it ends, and none has a
    negative length. *)
Fixpoint contiguous (l : list Token) : bool :=
  match l with
  | [] => true
  | t :: l' =>
      (0 <=? length t)%Z
      && match l' with
         | [] => true
         | t' :: _ => (offset t' =? offset t + length t)%Z
         end
      && contiguous l'
  end.

End ParsedDocument.

(** ** Sample programs *)

Module Samples.

Definition method (o : nat) (n : string) (m : Z) : PhpSymbol :=
  mkPhpSymbol o SymbolKind.Method n m None None None.

Definition stub (n : string) : PhpSymbol :=
  mkPhpSymbol 0 SymbolKind.Class n 0 None None None.

Definition classLike (o : nat) (k : SymbolKind.t) (n : string)
    (c : list PhpSymbol) (a : option (list PhpSymbol)) : PhpSymbol :=
  mkPhpSymbol o k n 0 None (Some c) a.

Definition public : Z := flag_modifier SymbolModifier.Public.
Definition private : Z := flag_modifier SymbolModifier.Private.
Definition magic : Z :=
  Z.lor (flag_modifier SymbolModifier.Public) (flag_modifier SymbolModifier.Magic).

(** [class Base { public function m() {} }  class Sub extends Base {}] *)
Definition publicM : PhpSymbol := method 10 "m" public.
Definition baseClass : PhpSymbol := classLike 1 SymbolKind.Class "Base" [publicM] None.
Definition subClass : PhpSymbol :=
  classLike 2 SymbolKind.Class "Sub" [] (Some [stub "Base"]).
Definition inheritance : SymbolStore := listStore [baseClass; subClass].

(** A class whose magic method [foo] stands before its declared [foo]. *)
Definition fooMagic : PhpSymbol := method 12 "foo" magic.
Definition fooReal : PhpSymbol := method 13 "foo" public.
Definition magicFirst : PhpSymbol :=
  classLike 3 SymbolKind.Class "MagicFirst" [fooMagic; fooReal] None.

(** [trait T { public function m() {} }
     class Stringable { use T; public function toString() {} }] *)
Definition toStringMethod : PhpSymbol := method 17 "toString" public.
Definition helperTrait : PhpSymbol := classLike 18 SymbolKind.Trait "T" [publicM] None.
Definition stringable : PhpSymbol :=
  classLike 19 SymbolKind.Class "Stringable" [toStringMethod] (Some [stub "T"]).
Definition withTrait : SymbolStore := listStore [helperTrait; stringable].

(** A class with two members of different names, one of them private. *)
Definition secret : PhpSymbol := method 14 "secret" private.
Definition plain : PhpSymbol := classLike 4 SymbolKind.Class "Plain" [publicM; secret] None.

(** [class A extends B {}  class B extends A {}] *)
Definition cycleA : PhpSymbol := classLike 5 SymbolKind.Class "A" [] (Some [stub "B"]).
Definition cycleB : PhpSymbol := classLike 6 SymbolKind.Class "B" [] (Some [stub "A"]).
Definition cycle : SymbolStore := listStore [cycleA; cycleB].

(** [interface J { m }  interface I extends J { secret }] *)
Definition parentInterface : PhpSymbol :=
  classLike 7 SymbolKind.Interface "J" [publicM] None.
Definition childInterface : PhpSymbol :=
  classLike 8 SymbolKind.Interface "I" [secret] (Some [stub "J"]).
Definition interfaces : SymbolStore := listStore [parentInterface; childInterface].

(** [use P\{a\b as A, c};] and [use P\{a\b as A, c as C};], read by a new
    reader into an empty table. *)
Definition groupElements : list ImportTableReader.UseClause :=
  [ {| ImportTableReader.segments := ["a"; "b"]; ImportTableReader.alias := Some "A";
       ImportTableReader.elementFlag := ImportTableReader.NoUseFlag |};
    {| ImportTableReader.segments := ["c"]; ImportTableReader.alias := None;
       ImportTableReader.elementFlag := ImportTableReader.NoUseFlag |} ].

Definition aliasedElements : list ImportTableReader.UseClause :=
  [ {| ImportTableReader.segments := ["a"; "b"]; ImportTableReader.alias := Some "A";
       ImportTableReader.elementFlag := ImportTableReader.NoUseFlag |};
    {| ImportTableReader.segments := ["c"]; ImportTableReader.alias := Some "C";
       ImportTableReader.elementFlag := ImportTableReader.UseFunction |} ].

Definition emptyReader : ImportTableReader.t :=
  ImportTableReader.new {| ImportTableReader.rules := [] |}.

(** A type string as the list of its atoms, merging by appending; the
    docblock [@param int $x @return string] of [function f($x)]. *)
Definition atoms (text : string) : list string := [text].
Definition mergeAtoms (t : list string) (text : string) : list string := t ++ [text].

Definition sampleDoc : SymbolReader.PhpDoc :=
  {| SymbolReader.summary := "Sums.";
     SymbolReader.tags :=
       [ {| SymbolReader.tagName := "@param"; SymbolReader.name := "$x";
            SymbolReader.typeString := "int"; SymbolReader.description := "" |};
         {| SymbolReader.tagName := "@return"; SymbolReader.name := "";
            SymbolReader.typeString := "string"; SymbolReader.description := "" |} ] |}.

Definition sampleFunction : SymbolReader.PhpSymbol (TypeString := list string) :=
  {| SymbolReader.symbolKind := SymbolKind.Function;
     SymbolReader.symbolName := "f";
     SymbolReader.symbolType := None;
     SymbolReader.symbolDescription := None;
     SymbolReader.symbolModifiers := 0;
     SymbolReader.symbolScope := None |}.

Definition sampleParam : SymbolReader.PhpSymbol (TypeString := list string) :=
  {| SymbolReader.symbolKind := SymbolKind.Parameter_;
     SymbolReader.symbolName := "$x";
     SymbolReader.symbolType := Some ["array"];
     SymbolReader.symbolDescription := None;
     SymbolReader.symbolModifiers := 0;
     SymbolReader.symbolScope := Some "f" |}.

(** A document store that holds one document. *)
Definition index : ParsedDocumentStore.ParsedDocument :=
  {| ParsedDocumentStore.uri := "file:///index.php"; ParsedDocumentStore.text := "<?php" |}.

Definition oneDocument : ParsedDocumentStore.t (Unsubscribe := unit) :=
  snd (ParsedDocumentStore.add (fun _ => ()) index ParsedDocumentStore.new).

(** The engine with that document open, and a stylesheet offered to it. *)
Definition engine : Intelephense.t (Unsubscribe := unit) (SymbolStore := unit)
                      (DiagnosticsProvider := unit) :=
  {| Intelephense.documentStore := oneDocument;
     Intelephense.symbolStore := ();
     Intelephense.diagnosticsProvider := () |}.

Definition stylesheet : Intelephense.TextDocumentItem :=
  {| Intelephense.uri := "file:///site.css"; Intelephense.languageId := "css";
     Intelephense.version := 1; Intelephense.text := "" |}.

(** Three members called [foo]: a magic one with a doc, a declared one
    without, and a declared one with a doc. *)
Definition documentedMethod (o : nat) (n : string) (m : Z) : PhpSymbol :=
  mkPhpSymbol o SymbolKind.Method n m
    (Some {| description := "Does it."; type := "void" |}) None None.

Definition fooMagicDocumented : PhpSymbol := documentedMethod 15 "foo" magic.
Definition fooRealDocumented : PhpSymbol := documentedMethod 16 "foo" public.
Definition threeFoos : list PhpSymbol := [fooMagicDocumented; fooReal; fooRealDocumented].

(** A phrase of three tokens that cover the offsets 0 to 8, with an empty
    phrase among its children. *)
Definition word (type offset length : Z) : ParsedDocument.Node :=
  ParsedDocument.TokenNode
    {| ParsedDocument.tokenType := type; ParsedDocument.offset := offset;
       ParsedDocument.length := length |}.

Definition phrase : ParsedDocument.Node :=
  ParsedDocument.PhraseNode 1
    [word 1 0 5; ParsedDocument.PhraseNode 2 [];
     ParsedDocument.PhraseNode 3 [word 2 5 1; word 1 6 3]].

(** A php document that is not open, and an engine whose symbol store and
    diagnostics provider are the lists of the URIs they know; a symbol
    table is the URI of its document. *)
Definition page : Intelephense.TextDocumentItem :=
  {| Intelephense.uri := "file:///page.php"; Intelephense.languageId := "php";
     Intelephense.version := 1; Intelephense.text := "<?php" |}.

Definition workspace : Intelephense.t (Unsubscribe := unit) (SymbolStore := list string)
                         (DiagnosticsProvider := list string) :=
  {| Intelephense.documentStore := oneDocument;
     Intelephense.symbolStore := ["file:///index.php"];
     Intelephense.diagnosticsProvider := ["file:///index.php"] |}.

Definition without (u : string) (l : list string) : list string :=
  List.filter (fun v => negb (bool_decide (v = u))) l.

Definition tableAt (u : string) (l : list string) : option string :=
  List.find (fun v => bool_decide (v = u)) l.

(** The parser flags of the modifiers, numbered [1 << 0], [1 << 1], ... *)
Definition decodeSample (flag : Z) : Z :=
  SymbolReader._nonTerminalFlagToSymbolModifier flags 1 2 4 8 16 32 flag.

(** [class C] with the docblock [@property string $x]. *)
Definition classC : SymbolReader.Tree (TypeString := list string) :=
  SymbolReader.mkTree
    {| SymbolReader.symbolKind := SymbolKind.Class;
       SymbolReader.symbolName := "C";
       SymbolReader.symbolType := None;
       SymbolReader.symbolDescription := None;
       SymbolReader.symbolModifiers := 0;
       SymbolReader.symbolScope := None |} [].

Definition classDoc : SymbolReader.ClassPhpDoc :=
  {| SymbolReader.classSummary := "";
     SymbolReader.classTags :=
       [ SymbolReader.IsTypeTag
           {| SymbolReader.tagName := "@property"; SymbolReader.name := "x";
              SymbolReader.typeString := "string"; SymbolReader.description := "" |} ] |}.

End Samples.

(** * Theorems *)

(** ** Sequencing and bit flags *)

Lemma for_each_app {St A} (body : St -> A -> result St) l1 l2 s :
  for_each body (l1 ++ l2) s = (s' <- for_each body l1 s ;; for_each body l2 s').
Proof.
  revert s. induction l1 as [|x l1 IH]; intros s; simpl; [reflexivity|].
  destruct (body s x) as [s'|e]; simpl; [apply IH | reflexivity].
Qed.

Lemma find_snoc {A} (f : A -> bool) l x :
  List.find f (l ++ [x]) =
  match List.find f l with
  | Some y => Some y
  | None => if f x then Some x else None
  end.
Proof.
  induction l as [|y l IH]; simpl; [reflexivity|].
  destruct (f y); [reflexivity | apply IH].
Qed.

Lemma forallb_split {A} (p q : A -> bool) l :
  forallb p l = forallb p (List.filter (fun x => negb (q x)) l) && forallb p (List.filter q l).
Proof.
  induction l as [|x l IH]; simpl; [done|].
  destruct (q x); simpl; rewrite IH; destruct (p x); simpl; try done.
  by rewrite andb_false_r.
Qed.

Lemma int32_small z : (0 <= z < 2 ^ 31)%Z -> int32 z = z.
Proof. intros H. unfold int32. rewrite Z.mod_small; lia. Qed.

Lemma lor_small a b : (0 <= a < 2 ^ 31)%Z -> (0 <= b < 2 ^ 31)%Z -> (0 <= Z.lor a b < 2 ^ 31)%Z.
Proof.
  intros Ha Hb. split; [apply Z.lor_nonneg; lia|].
  destruct (decide (Z.lor a b = 0%Z)) as [->|Hne]; [lia|].
  assert (0 < Z.lor a b)%Z by (pose proof (proj2 (Z.lor_nonneg a b)); lia).
  apply Z.log2_lt_pow2; [lia|].
  rewrite Z.log2_lor by lia.
  apply Z.max_lub_lt.
  - destruct (decide (a = 0%Z)) as [->|]; [simpl; lia|]. apply Z.log2_lt_pow2; lia.
  - destruct (decide (b = 0%Z)) as [->|]; [simpl; lia|]. apply Z.log2_lt_pow2; lia.
Qed.

Section EnumFacts.
Context (E : SymbolEnums).
Import TypeAggregate.

Lemma kind_bits_small k : (0 <= kind_bits E k < 2 ^ 31)%Z.
Proof. pose proof (kind_bits_range E k). lia. Qed.

(** Two kinds with the same value are the same kind, so [===] on [kind]
    decides which member it is. *)
Lemma kind_bits_inj j k : kind_bits E j = kind_bits E k -> j = k.
Proof.
  intros Heq. destruct (decide (j = k)) as [|Hne]; [done|].
  pose proof (kind_bits_disjoint E j k Hne) as H.
  rewrite Heq, Z.land_diag in H. pose proof (kind_bits_range E k). lia.
Qed.

Lemma kind_is_decide x k : kind_is E x k = bool_decide (kind x = k).
Proof.
  unfold kind_is. case_bool_decide as H.
  - rewrite H. apply Z.eqb_refl.
  - apply Z.eqb_neq. intros Heq. apply H, kind_bits_inj, Heq.
Qed.

Lemma land_kind_bits j k :
  Z.land (kind_bits E j) (kind_bits E k) = if decide (j = k) then kind_bits E k else 0%Z.
Proof.
  destruct (decide (j = k)) as [->|Hne]; [apply Z.land_diag | by apply kind_bits_disjoint].
Qed.

Lemma classLikeMask_eq :
  classLikeMask E =
  Z.lor (Z.lor (kind_bits E SymbolKind.Class) (kind_bits E SymbolKind.Interface))
        (kind_bits E SymbolKind.Trait).
Proof.
  unfold classLikeMask, js_or.
  rewrite !(int32_small (kind_bits E _)) by apply kind_bits_small.
  rewrite int32_small; [done|]. apply lor_small; apply kind_bits_small.
Qed.

(** The test of the constructor singles out the three class-like kinds. *)
Lemma classLike_test s :
  truthy (js_and (kind_bits E (kind s)) (classLikeMask E)) = isClassLike s.
Proof.
  unfold js_and. rewrite classLikeMask_eq.
  rewrite (int32_small (kind_bits E _)) by apply kind_bits_small.
  rewrite int32_small
    by (apply lor_small; [apply lor_small|]; apply kind_bits_small).
  rewrite !Z.land_lor_distr_r, !land_kind_bits.
  pose proof (kind_bits_range E SymbolKind.Class).
  pose proof (kind_bits_range E SymbolKind.Interface).
  pose proof (kind_bits_range E SymbolKind.Trait).
  unfold isClassLike, truthy.
  destruct (kind s); simpl; rewrite ?Z.lor_0_r, ?Z.lor_0_l; try reflexivity;
    apply negb_true_iff, Z.eqb_neq; lia.
Qed.

Lemma modifier_and_nonneg x m : (0 <= modifier_and E x m)%Z.
Proof.
  unfold modifier_and, js_and. apply Z.land_nonneg. right.
  pose proof (modifier_bits_range E m). rewrite int32_small; lia.
Qed.

(** [(x.modifiers & Magic) > 0] and the truthiness of [x.modifiers & Magic]
    agree. *)
Lemma magic_positive x : (0 <? modifier_and E x SymbolModifier.Magic)%Z = isMagic E x.
Proof.
  unfold isMagic, truthy. pose proof (modifier_and_nonneg x SymbolModifier.Magic).
  destruct (Z.eqb_spec (modifier_and E x SymbolModifier.Magic) 0) as [->|Hne]; simpl.
  - reflexivity.
  - apply Z.ltb_lt. lia.
Qed.

(** C4. Constructing a TypeAggregate from a null symbol, or from a symbol
    whose kind is not Class, Interface or Trait, throws
    [Error('Invalid Argument')] at once; constructing one from a class-like
    symbol returns the aggregate, with nothing cached. *)
Theorem new_rejects_all_but_class_likes store symbol :
  new E store symbol =
  match symbol with
  | Some s =>
      if isClassLike s then Ok (fresh store s)
      else Throw (Error "Invalid Argument")
  | None => Throw (Error "Invalid Argument")
  end.
Proof.
  destruct symbol as [s|]; [|reflexivity].
  unfold new. rewrite classLike_test. by destruct (isClassLike s).
Qed.

End EnumFacts.

(** ** _mergeMembers *)

Section MergeFacts.
Context (E : SymbolEnums).
Import TypeAggregate.

Lemma replaces_magic strategy kept s :
  isMagic E kept = true -> isMagic E s = false -> replaces E strategy kept s = true.
Proof.
  intros Hk Hs. unfold replaces. rewrite magic_positive. fold (isMagic E s).
  rewrite Hk, Hs. reflexivity.
Qed.

Lemma replaces_Override kept s :
  replaces E MemberMergeStrategy.Override kept s = isMagic E kept && negb (isMagic E s).
Proof.
  unfold replaces. rewrite magic_positive. fold (isMagic E s).
  simpl. rewrite !orb_false_r. reflexivity.
Qed.

Lemma MergeInv_start : MergeInv mergeStart.
Proof.
  intros n i. simpl. rewrite lookup_empty. split; [done|].
  intros (x & Hx & _). by rewrite lookup_nil in Hx.
Qed.

Lemma MergeInv_push st s :
  MergeInv st -> map st !! name s = None ->
  MergeInv {| map := <[name s := length (merged st ++ [s]) - 1]> (map st);
              merged := merged st ++ [s] |}.
Proof.
  intros Hinv Hnone n i. simpl.
  rewrite length_app. simpl.
  replace (length (merged st) + 1 - 1) with (length (merged st)) by lia.
  split.
  - intros H. destruct (decide (name s = n)) as [<-|Hne].
    + rewrite lookup_insert_eq in H. injection H as <-.
      exists s. split; [|done]. by rewrite list_lookup_middle.
    + rewrite lookup_insert_ne in H by done.
      apply Hinv in H as (x & Hx & Hn). exists x. split; [|done].
      by apply lookup_app_l_Some.
  - intros (x & Hx & Hn).
    destruct (decide (i < length (merged st))) as [Hlt|Hge].
    + rewrite lookup_app_l in Hx by done.
      assert (map st !! n = Some i) as Hm by (apply Hinv; eauto).
      rewrite lookup_insert_ne; [done|]. intros Heq. congruence.
    + apply lookup_lt_Some in Hx as Hlen. rewrite length_app in Hlen. simpl in Hlen.
      assert (i = length (merged st)) as -> by lia.
      rewrite list_lookup_middle in Hx by done. injection Hx as <-.
      rewrite <- Hn. apply lookup_insert_eq.
Qed.

Lemma MergeInv_replace st s index kept :
  MergeInv st -> merged st !! index = Some kept -> name kept = name s ->
  MergeInv {| map := map st; merged := <[index := s]> (merged st) |}.
Proof.
  intros Hinv Hk Hname n i. simpl. rewrite (Hinv n i).
  destruct (decide (i = index)) as [->|Hne].
  - apply lookup_lt_Some in Hk as Hlt.
    rewrite list_lookup_insert_eq by done. rewrite Hk.
    split; intros (x & [= <-] & Hn); eexists; (split; [done|]); congruence.
  - by rewrite list_lookup_insert_ne.
Qed.

(** Under the invariant a turn of the loop never reads [merged] out of
    range, so it does not throw. *)
Lemma mergeStep_push strategy st s :
  map st !! name s = None -> inheritedKey (name s) = false ->
  mergeStep E strategy st s =
  Ok {| map := <[name s := length (merged st ++ [s]) - 1]> (map st);
        merged := merged st ++ [s] |}.
Proof. intros H Hk. unfold mergeStep, get. rewrite H, Hk. reflexivity. Qed.

Lemma mergeStep_inherited strategy st s :
  map st !! name s = None -> inheritedKey (name s) = true ->
  mergeStep E strategy st s = Throw TypeError.
Proof. intros H Hk. unfold mergeStep, get. rewrite H, Hk. reflexivity. Qed.

Lemma mergeStep_kept strategy st s index kept :
  map st !! name s = Some index -> merged st !! index = Some kept ->
  mergeStep E strategy st s =
  Ok (if replaces E strategy kept s
      then {| map := map st; merged := <[index := s]> (merged st) |}
      else st).
Proof.
  intros Hm Hk. unfold mergeStep, get. rewrite Hm, Hk.
  by destruct (replaces E strategy kept s).
Qed.

(** A turn of the loop that returns keeps the invariant. *)
Lemma mergeStep_inv strategy st s st' :
  MergeInv st -> mergeStep E strategy st s = Ok st' -> MergeInv st'.
Proof.
  intros Hinv. destruct (map st !! name s) as [index|] eqn:Hm.
  - destruct (proj1 (Hinv _ _) Hm) as (kept & Hk & Hn).
    rewrite (mergeStep_kept _ _ _ _ _ Hm Hk).
    destruct (replaces E strategy kept s); intros [= <-]; [|done].
    by eapply MergeInv_replace.
  - destruct (inheritedKey (name s)) eqn:Hkey.
    + by rewrite mergeStep_inherited.
    + rewrite mergeStep_push by done. intros [= <-]. by apply MergeInv_push.
Qed.

Lemma mergeLoop_inv strategy symbols st st' :
  MergeInv st -> for_each (mergeStep E strategy) symbols st = Ok st' -> MergeInv st'.
Proof.
  revert st. induction symbols as [|s symbols IH]; intros st Hinv; simpl.
  - by intros [= <-].
  - destruct (mergeStep E strategy st s) as [st1|e] eqn:Hstep; simpl; [|done].
    apply IH. by eapply mergeStep_inv.
Qed.

(** Under the invariant, a turn for a member whose name is not that of a
    property of [Object.prototype] returns. *)
Lemma mergeStep_returns strategy st s :
  MergeInv st -> inheritedKey (name s) = false ->
  exists st', mergeStep E strategy st s = Ok st'.
Proof.
  intros Hinv Hkey. destruct (map st !! name s) as [index|] eqn:Hm.
  - destruct (proj1 (Hinv _ _) Hm) as (kept & Hk & Hn).
    rewrite (mergeStep_kept _ _ _ _ _ Hm Hk).
    destruct (replaces E strategy kept s); eauto.
  - rewrite mergeStep_push by done. eauto.
Qed.

Lemma plainNames_cons s l :
  plainNames (s :: l) = true <-> inheritedKey (name s) = false /\ plainNames l = true.
Proof. unfold plainNames. simpl. by rewrite andb_true_iff, negb_true_iff. Qed.

Lemma plainNames_app l1 l2 :
  plainNames (l1 ++ l2) = plainNames l1 && plainNames l2.
Proof. apply forallb_app. Qed.

Lemma plainNames_elem l x : plainNames l = true -> x ∈ l -> inheritedKey (name x) = false.
Proof.
  unfold plainNames. rewrite forallb_forall. intros H Hin.
  apply negb_true_iff, H. by apply list_elem_of_In.
Qed.

Lemma mergeLoop_returns strategy symbols st :
  MergeInv st -> plainNames symbols = true ->
  exists st', for_each (mergeStep E strategy) symbols st = Ok st' /\ MergeInv st'.
Proof.
  revert st. induction symbols as [|s symbols IH]; intros st Hinv Hplain; simpl.
  - eauto.
  - apply plainNames_cons in Hplain as [Hs Hplain].
    destruct (mergeStep_returns strategy st s Hinv Hs) as [st1 Hstep].
    rewrite Hstep. simpl. apply IH; [|done]. by eapply mergeStep_inv.
Qed.

(** [_mergeMembers] returns for every input without such a name. *)
Lemma mergeMembers_total symbols strategy :
  plainNames symbols = true ->
  exists merged, _mergeMembers E symbols strategy = Ok merged.
Proof.
  intros Hplain. unfold _mergeMembers. case_bool_decide; [eauto|].
  destruct (mergeLoop_returns strategy symbols mergeStart MergeInv_start Hplain)
    as (st & -> & _).
  simpl. eauto.
Qed.

(** Only names of members are indexed: a turn of the loop adds no other
    key to [map]. *)
Lemma mergeStep_keys strategy st s st' n :
  mergeStep E strategy st s = Ok st' ->
  is_Some (map st' !! n) -> is_Some (map st !! n) \/ n = name s.
Proof.
  unfold mergeStep, get. destruct (map st !! name s) as [index|] eqn:Hm.
  - destruct (merged st !! index) as [kept|]; [|done].
    destruct (replaces E strategy kept s); intros [= <-]; simpl; auto.
  - destruct (inheritedKey (name s)); [done|]. intros [= <-]. simpl.
    destruct (decide (name s = n)) as [<-|Hne]; [auto|].
    rewrite lookup_insert_ne by done. auto.
Qed.

(** With a member that goes by the name of a property of
    [Object.prototype], the loop throws a TypeError: at the first such
    member, [map] has no key of its own for the name and the inherited
    property is read. *)
Lemma mergeLoop_throws strategy symbols st :
  MergeInv st -> (forall n, is_Some (map st !! n) -> inheritedKey n = false) ->
  plainNames symbols = false ->
  for_each (mergeStep E strategy) symbols st = Throw TypeError.
Proof.
  revert st. induction symbols as [|s symbols IH]; intros st Hinv Hkeys Hplain;
    simpl; [done|].
  destruct (inheritedKey (name s)) eqn:Hs.
  - destruct (map st !! name s) as [index|] eqn:Hm.
    + rewrite (Hkeys (name s)) in Hs; [done|]. by rewrite Hm.
    + by rewrite mergeStep_inherited.
  - destruct (mergeStep_returns strategy st s Hinv Hs) as [st1 Hstep].
    rewrite Hstep. simpl. apply IH.
    + by eapply mergeStep_inv.
    + intros n Hn. destruct (mergeStep_keys _ _ _ _ _ Hstep Hn) as [Hold| ->]; auto.
    + unfold plainNames in *. simpl in Hplain. by rewrite Hs in Hplain.
Qed.

Lemma mergeMembers_throws symbols strategy :
  strategy <> MemberMergeStrategy.None -> plainNames symbols = false ->
  _mergeMembers E symbols strategy = Throw TypeError.
Proof.
  intros Hs Hplain. unfold _mergeMembers. rewrite bool_decide_eq_false_2 by done.
  rewrite mergeLoop_throws; [done|apply MergeInv_start| |done].
  intros n [i Hi]. simpl in Hi. by rewrite lookup_empty in Hi.
Qed.

Lemma mergeMembers_loop symbols strategy merged0 :
  strategy <> MemberMergeStrategy.None ->
  _mergeMembers E symbols strategy = Ok merged0 ->
  exists st, for_each (mergeStep E strategy) symbols mergeStart = Ok st
             /\ merged st = merged0 /\ MergeInv st.
Proof.
  intros Hs. unfold _mergeMembers. rewrite bool_decide_eq_false_2 by done.
  destruct (for_each (mergeStep E strategy) symbols mergeStart) as [st|e] eqn:Hloop;
    simpl; [|done].
  intros [= <-]. exists st. split; [done|]. split; [done|].
  eapply mergeLoop_inv; [apply MergeInv_start | exact Hloop].
Qed.

(** C1. For every merge strategy other than None: when the members merged
    so far ([pre]) have left a member [kept] in the result that carries the
    Magic modifier, and the next member [s] has the same name and does not
    carry it, then [s] takes the place of [kept] in the result, whatever the
    strategy. *)
Theorem merge_non_magic_replaces_magic strategy pre s kept_so_far index kept :
  strategy <> MemberMergeStrategy.None ->
  _mergeMembers E pre strategy = Ok kept_so_far ->
  kept_so_far !! index = Some kept ->
  name kept = name s ->
  isMagic E kept = true ->
  isMagic E s = false ->
  _mergeMembers E (pre ++ [s]) strategy = Ok (<[index := s]> kept_so_far).
Proof.
  intros Hs Hpre Hk Hname Hmk Hms.
  destruct (mergeMembers_loop _ _ _ Hs Hpre) as (st & Hloop & <- & Hinv).
  unfold _mergeMembers. rewrite bool_decide_eq_false_2 by done.
  rewrite for_each_app, Hloop. simpl.
  assert (map st !! name s = Some index) as Hm by (apply Hinv; eauto).
  rewrite (mergeStep_kept _ _ _ _ _ Hm Hk), replaces_magic by done.
  reflexivity.
Qed.

(** *** Override *)

Lemma firstNamed_snoc n l s :
  firstNamed n (l ++ [s]) =
  match firstNamed n l with
  | Some y => Some y
  | None => if bool_decide (name s = n) then Some s else None
  end.
Proof. exact (find_snoc _ l s). Qed.

Lemma firstRealNamed_snoc n l s :
  firstRealNamed E n (l ++ [s]) =
  match firstRealNamed E n l with
  | Some y => Some y
  | None => if bool_decide (name s = n) && negb (isMagic E s) then Some s else None
  end.
Proof. exact (find_snoc _ l s). Qed.

Lemma keptFor_snoc_other n l s : name s <> n -> keptFor E n (l ++ [s]) = keptFor E n l.
Proof.
  intros Hne. unfold keptFor. rewrite firstRealNamed_snoc, firstNamed_snoc.
  rewrite bool_decide_eq_false_2 by done. simpl.
  destruct (firstRealNamed E n l); [done|]. by destruct (firstNamed n l).
Qed.

Lemma keptFor_elem n l x : keptFor E n l = Some x -> x ∈ l /\ name x = n.
Proof.
  unfold keptFor, firstRealNamed, firstNamed. intros H.
  destruct (List.find _ l) as [y|] eqn:Hf.
  - injection H as <-. apply find_some in Hf as [Hin Hp].
    apply andb_true_iff in Hp as [Hp _]. apply bool_decide_eq_true in Hp.
    split; [by apply list_elem_of_In | done].
  - apply find_some in H as [Hin Hp]. apply bool_decide_eq_true in Hp.
    split; [by apply list_elem_of_In | done].
Qed.

Lemma firstNamed_None n l : (forall x, x ∈ l -> name x <> n) -> firstNamed n l = None.
Proof.
  intros H. unfold firstNamed. destruct (List.find _ l) as [y|] eqn:Hf; [|done].
  apply find_some in Hf as [Hin Hp]. apply bool_decide_eq_true in Hp.
  apply list_elem_of_In in Hin. by destruct (H y Hin).
Qed.

Lemma firstRealNamed_None n l : (forall x, x ∈ l -> name x <> n) -> firstRealNamed E n l = None.
Proof.
  intros H. unfold firstRealNamed. destruct (List.find _ l) as [y|] eqn:Hf; [|done].
  apply find_some in Hf as [Hin Hp]. apply andb_true_iff in Hp as [Hp _].
  apply bool_decide_eq_true in Hp. apply list_elem_of_In in Hin. by destruct (H y Hin).
Qed.

(** A kept member that is magic was kept for want of a real one. *)
Lemma keptFor_magic n l x :
  keptFor E n l = Some x -> isMagic E x = true -> firstRealNamed E n l = None.
Proof.
  unfold keptFor. intros H Hm. destruct (firstRealNamed E n l) as [y|] eqn:Hf; [|done].
  injection H as ->. unfold firstRealNamed in Hf. apply find_some in Hf as [_ Hp].
  apply andb_true_iff in Hp as [_ Hp]. rewrite Hm in Hp. done.
Qed.

(** A kept member that is not magic is the first real one. *)
Lemma keptFor_real n l x :
  keptFor E n l = Some x -> isMagic E x = false -> firstRealNamed E n l = Some x.
Proof.
  unfold keptFor. intros H Hm. destruct (firstRealNamed E n l) as [y|] eqn:Hf; [done|].
  exfalso. apply find_some in H as [Hin Hp]. apply bool_decide_eq_true in Hp.
  unfold firstRealNamed in Hf.
  pose proof (find_none _ _ Hf x Hin) as Hnone. simpl in Hnone.
  rewrite bool_decide_eq_true_2, Hm in Hnone by done. done.
Qed.

Lemma OverrideInv_start : OverrideInv E [] mergeStart.
Proof.
  split; [apply MergeInv_start|]. split.
  - intros i x H. simpl in H. by rewrite lookup_nil in H.
  - intros x H. by apply elem_of_nil in H.
Qed.

Lemma OverrideInv_step pre st s :
  OverrideInv E pre st -> inheritedKey (name s) = false ->
  exists st', mergeStep E MemberMergeStrategy.Override st s = Ok st'
              /\ OverrideInv E (pre ++ [s]) st'.
Proof.
  intros (Hinv & Hkept & Hcov) Hplain.
  destruct (map st !! name s) as [index|] eqn:Hm.
  - destruct (proj1 (Hinv _ _) Hm) as (kept & Hk & Hn).
    rewrite (mergeStep_kept _ _ _ _ _ Hm Hk), replaces_Override.
    pose proof (Hkept _ _ Hk) as Hkf. rewrite Hn in Hkf.
    destruct (isMagic E kept) eqn:Hmk, (isMagic E s) eqn:Hms; simpl;
      eexists; (split; [reflexivity|]).
    + (* both magic: kept stays *)
      split; [done|]. split.
      * intros i x Hx. destruct (decide (name x = name s)) as [Heq|Hne].
        -- assert (i = index) as ->.
           { assert (map st !! name s = Some i) as Hi by (apply Hinv; eauto). congruence. }
           assert (x = kept) as -> by congruence.
           rewrite Heq. unfold keptFor. rewrite firstRealNamed_snoc, firstNamed_snoc.
           rewrite (keptFor_magic _ _ _ Hkf Hmk), Hms, andb_false_r.
           unfold keptFor in Hkf. rewrite (keptFor_magic _ _ _ Hkf Hmk) in Hkf.
           by rewrite Hkf.
        -- rewrite keptFor_snoc_other by done. eauto.
      * intros x [Hx|Hx%list_elem_of_singleton]%elem_of_app; [eauto|].
        subst x. by rewrite Hm.
    + (* kept magic, s real: s replaces kept *)
      split; [by eapply MergeInv_replace|]. split.
      * intros i x. simpl. destruct (decide (i = index)) as [->|Hne].
        -- apply lookup_lt_Some in Hk as Hlt. rewrite list_lookup_insert_eq by done.
           intros [= <-]. unfold keptFor. rewrite firstRealNamed_snoc.
           rewrite (keptFor_magic _ _ _ Hkf Hmk), Hms, bool_decide_eq_true_2 by done.
           reflexivity.
        -- rewrite list_lookup_insert_ne by done. intros Hx.
           assert (name x <> name s) as Hxs.
           { intros Heq. apply Hne.
             assert (map st !! name s = Some i) as Hi by (apply Hinv; eauto). congruence. }
           rewrite keptFor_snoc_other by done. eauto.
      * simpl. intros x [Hx|Hx%list_elem_of_singleton]%elem_of_app; [eauto|].
        subst x. by rewrite Hm.
    + (* kept real, s magic *)
      split; [done|]. split.
      * intros i x Hx. destruct (decide (name x = name s)) as [Heq|Hne].
        -- assert (i = index) as ->.
           { assert (map st !! name s = Some i) as Hi by (apply Hinv; eauto). congruence. }
           assert (x = kept) as -> by congruence.
           rewrite Heq. unfold keptFor. rewrite firstRealNamed_snoc.
           by rewrite (keptFor_real _ _ _ Hkf Hmk).
        -- rewrite keptFor_snoc_other by done. eauto.
      * intros x [Hx|Hx%list_elem_of_singleton]%elem_of_app; [eauto|].
        subst x. by rewrite Hm.
    + (* both real *)
      split; [done|]. split.
      * intros i x Hx. destruct (decide (name x = name s)) as [Heq|Hne].
        -- assert (i = index) as ->.
           { assert (map st !! name s = Some i) as Hi by (apply Hinv; eauto). congruence. }
           assert (x = kept) as -> by congruence.
           rewrite Heq. unfold keptFor. rewrite firstRealNamed_snoc.
           by rewrite (keptFor_real _ _ _ Hkf Hmk).
        -- rewrite keptFor_snoc_other by done. eauto.
      * intros x [Hx|Hx%list_elem_of_singleton]%elem_of_app; [eauto|].
        subst x. by rewrite Hm.
  - rewrite mergeStep_push by done. eexists. split; [reflexivity|].
    assert (forall x, x ∈ pre -> name x <> name s) as Hfresh.
    { intros x Hx Heq. destruct (Hcov x Hx) as [i Hi]. congruence. }
    split; [by apply MergeInv_push|]. split.
    + intros i x. simpl. intros Hx.
      destruct (decide (i < length (merged st))) as [Hlt|Hge].
      * rewrite lookup_app_l in Hx by done.
        assert (name x <> name s) as Hxs.
        { intros Heq. assert (map st !! name s = Some i) as Hi by (apply Hinv; eauto).
          congruence. }
        rewrite keptFor_snoc_other by done. eauto.
      * apply lookup_lt_Some in Hx as Hlen. rewrite length_app in Hlen. simpl in Hlen.
        assert (i = length (merged st)) as -> by lia.
        rewrite list_lookup_middle in Hx by done. injection Hx as <-.
        unfold keptFor. rewrite firstRealNamed_snoc, firstNamed_snoc.
        rewrite firstRealNamed_None, firstNamed_None by done.
        rewrite bool_decide_eq_true_2 by done. simpl. by destruct (isMagic E s).
    + simpl. intros x [Hx|Hx%list_elem_of_singleton]%elem_of_app.
      * rewrite lookup_insert_ne by (symmetry; eauto). eauto.
      * subst x. rewrite lookup_insert_eq. eauto.
Qed.

Lemma OverrideInv_loop symbols :
  plainNames symbols = true ->
  exists st, for_each (mergeStep E MemberMergeStrategy.Override) symbols mergeStart = Ok st
             /\ OverrideInv E symbols st.
Proof.
  induction symbols as [|s pre IH] using rev_ind; intros Hplain.
  - exists mergeStart. split; [done | apply OverrideInv_start].
  - rewrite plainNames_app in Hplain. apply andb_true_iff in Hplain as [Hpre Hs].
    apply plainNames_cons in Hs as [Hs _].
    destruct (IH Hpre) as (st & Hloop & Hinv).
    destruct (OverrideInv_step pre st s Hinv Hs) as (st' & Hstep & Hinv').
    exists st'. split; [|done]. rewrite for_each_app, Hloop. simpl. by rewrite Hstep.
Qed.

Lemma MergeInv_NoDup st : MergeInv st -> NoDup (name <$> merged st).
Proof.
  intros Hinv. apply NoDup_alt. intros i j n.
  rewrite !list_lookup_fmap. intros Hi Hj.
  destruct (merged st !! i) as [x|] eqn:Hx; [|done].
  destruct (merged st !! j) as [y|] eqn:Hy; [|done].
  simpl in *. injection Hi as Hi. injection Hj as Hj.
  assert (map st !! n = Some i) by (apply Hinv; eauto).
  assert (map st !! n = Some j) by (apply Hinv; eauto).
  congruence.
Qed.

(** What Override keeps: one member for each name that occurs, namely
    [keptFor] of that name: the first member of the name that is not magic,
    or the first one when all of them are magic. *)
Lemma mergeMembers_Override symbols :
  plainNames symbols = true ->
  exists merged0, _mergeMembers E symbols MemberMergeStrategy.Override = Ok merged0
    /\ NoDup (name <$> merged0)
    /\ (forall x, x ∈ symbols -> exists y, y ∈ merged0 /\ name y = name x)
    /\ (forall y, y ∈ merged0 -> keptFor E (name y) symbols = Some y).
Proof.
  intros Hplain.
  destruct (OverrideInv_loop symbols Hplain) as (st & Hloop & Hinv & Hkept & Hcov).
  exists (merged st). unfold _mergeMembers. simpl. rewrite Hloop. simpl.
  split; [done|]. split; [by apply MergeInv_NoDup|]. split.
  - intros x Hx. destruct (Hcov x Hx) as [i Hi].
    apply Hinv in Hi as (y & Hy & Hn). exists y. split; [|done].
    by eapply list_elem_of_lookup_2.
  - intros y [i Hi]%list_elem_of_lookup. eauto.
Qed.

(** Members with pairwise distinct names, none of them that of a property
    of [Object.prototype], are returned as they are, whatever the strategy. *)
Lemma mergeMembers_distinct symbols strategy :
  NoDup (name <$> symbols) -> plainNames symbols = true ->
  _mergeMembers E symbols strategy = Ok symbols.
Proof.
  intros Hnd Hplain. unfold _mergeMembers. case_bool_decide; [done|].
  assert (exists st, for_each (mergeStep E strategy) symbols mergeStart = Ok st
                     /\ merged st = symbols /\ MergeInv st) as (st & -> & <- & _); [|done].
  induction symbols as [|s pre IH] using rev_ind.
  - exists mergeStart. split; [done|]. split; [done | apply MergeInv_start].
  - rewrite fmap_app in Hnd. apply NoDup_app in Hnd as (Hpre & Hdisj & _).
    rewrite plainNames_app in Hplain. apply andb_true_iff in Hplain as [Hplain Hs].
    apply plainNames_cons in Hs as [Hs _].
    destruct (IH Hpre Hplain) as (st & Hloop & Hm & Hinv).
    assert (map st !! name s = None) as Hnone.
    { destruct (map st !! name s) as [i|] eqn:Hi; [|done].
      apply Hinv in Hi as (x & Hx & Hn). exfalso.
      apply (Hdisj (name s)).
      - rewrite <- Hn. apply list_elem_of_fmap_2. rewrite <- Hm.
        by eapply list_elem_of_lookup_2.
      - simpl. apply list_elem_of_singleton. done. }
    eexists. split; [|split].
    + rewrite for_each_app, Hloop. simpl. rewrite mergeStep_push by done. reflexivity.
    + simpl. by rewrite Hm.
    + by apply MergeInv_push.
Qed.

End MergeFacts.

(** ** _getAssociated *)

Section AssociatedFacts.
Context (store : SymbolStore).
Import TypeAggregate.

Lemma contains_snoc collected s x :
  contains (collected ++ [s]) x = contains collected x || (oid s =? oid x).
Proof. unfold contains. rewrite existsb_app. simpl. by rewrite orb_false_r. Qed.

Lemma contains_false collected s :
  contains collected s = false -> oid s ∉ oid <$> collected.
Proof.
  unfold contains. intros H [x [Heq Hx]]%list_elem_of_fmap.
  assert (existsb (fun y => oid y =? oid s) collected = true) as Ht; [|congruence].
  apply existsb_exists. exists x. split; [by apply list_elem_of_In|].
  apply Nat.eqb_eq. done.
Qed.

Lemma pending_mono collected s l : pending (collected ++ [s]) l <= pending collected l.
Proof.
  unfold pending. induction l as [|x l IH]; simpl; [lia|].
  rewrite contains_snoc. destruct (contains collected x); simpl; [lia|].
  destruct (oid s =? oid x); lia.
Qed.

Lemma pending_collect collected s l :
  s ∈ l -> contains collected s = false ->
  pending (collected ++ [s]) l + stubs s <= pending collected l.
Proof.
  intros Hin Hc. induction Hin as [s l|s x l Hin IH].
  - pose proof (pending_mono collected s l). unfold pending in *. simpl.
    rewrite contains_snoc, Hc, Nat.eqb_refl. simpl. lia.
  - specialize (IH Hc). unfold pending in *. simpl.
    rewrite contains_snoc. destruct (contains collected x); simpl; [lia|].
    destruct (oid s =? oid x); lia.
Qed.

Lemma associatedLoop_terminates n : forall queue collected,
  length queue + pending collected (symbols store) <= n ->
  NoDup (oid <$> collected) -> Forall (Resolved store) collected ->
  exists assoc,
    (forall fuel, length queue + pending collected (symbols store) < fuel ->
       associatedLoop store fuel queue collected = Some assoc)
    /\ NoDup (oid <$> assoc) /\ Forall (Resolved store) assoc.
Proof.
  induction n as [|n IH]; intros queue collected Hn Hnd Hres.
  - destruct queue as [|stub queue]; [|simpl in Hn; lia].
    exists collected. split; [|done]. intros [|fuel] Hf; [lia | done].
  - destruct queue as [|stub queue].
    { exists collected. split; [|done]. intros [|fuel] Hf; [lia | done]. }
    simpl in Hn.
    destruct (find store (name stub) isClassLike) as [|symbol rest] eqn:Hfind.
    { destruct (IH queue collected) as (assoc & Hrun & Hok); [lia|done|done|].
      exists assoc. split; [|done]. intros [|fuel] Hf; [lia|]. simpl in *.
      rewrite Hfind. apply Hrun. lia. }
    destruct (contains collected symbol) eqn:Hc.
    { destruct (IH queue collected) as (assoc & Hrun & Hok); [lia|done|done|].
      exists assoc. split; [|done]. intros [|fuel] Hf; [lia|]. simpl in *.
      rewrite Hfind, Hc. apply Hrun. lia. }
    assert (symbol ∈ find store (name stub) isClassLike) as Hin
      by (rewrite Hfind; apply list_elem_of_here).
    assert (Resolved store symbol) as Hsym.
    { split; [eapply find_filter | eapply find_symbols]; exact Hin. }
    pose proof (pending_collect collected symbol _ (proj2 Hsym) Hc) as Hdec.
    unfold stubs in Hdec.
    destruct (IH (queue ++ or_empty (associated symbol)) (collected ++ [symbol]))
      as (assoc & Hrun & Hok).
    + rewrite length_app. lia.
    + rewrite fmap_app. apply NoDup_app. split; [done|]. split.
      * intros o Ho [->|[]%elem_of_nil]%elem_of_cons. by apply contains_false in Hc.
      * apply NoDup_singleton.
    + apply Forall_app. split; [done|]. by apply Forall_singleton.
    + exists assoc. split; [|done]. intros [|fuel] Hf; [lia|]. simpl in *.
      rewrite Hfind, Hc. apply Hrun. rewrite length_app. lia.
Qed.

Lemma pending_start l : pending [] l = sum_list_with stubs l.
Proof. reflexivity. Qed.

(** The associated array of a fresh aggregate: computed within
    [associatedFuel] turns, without repeats, of class-likes of the store. *)
Lemma getAssociated_fresh root :
  exists assoc,
    (forall fuel, associatedFuel store root <= fuel ->
       _getAssociated fuel (fresh store root) = Some (assoc, cached store root assoc))
    /\ NoDup (oid <$> assoc)
    /\ Forall (Resolved store) assoc.
Proof.
  unfold _getAssociated, fresh, cached, associatedFuel. simpl.
  destruct (associated root) as [[|stub stubs0]|] eqn:Ha; simpl.
  - exists []. split; [done|]. split; [apply NoDup_nil_2 | done].
  - destruct (associatedLoop_terminates
                (length (stub :: stubs0) + pending [] (symbols store))
                (stub :: stubs0) []) as (assoc & Hrun & Hnd & Hres);
      [done | apply NoDup_nil_2 | done |].
    exists assoc. split; [|done]. intros fuel Hf.
    rewrite Hrun; [done|]. unfold pending, stubs. simpl in *. lia.
  - exists []. split; [done|]. split; [apply NoDup_nil_2 | done].
Qed.

(** C3. For every symbol store and every root, also when the associated
    links form a cycle: the loop of [_getAssociated] reaches the empty queue
    within [associatedFuel] turns, and the array it returns holds no object
    twice, holds only class-like symbols of the store, and a stub that
    resolves to a symbol already collected is dropped without its own
    associated stubs being queued. *)
Theorem associated_terminates_without_repeats root :
  exists assoc,
    (forall fuel, associatedFuel store root <= fuel ->
       _getAssociated fuel (fresh store root) = Some (assoc, cached store root assoc))
    /\ NoDup (oid <$> assoc)
    /\ Forall (fun s => isClassLike s = true /\ s ∈ symbols store) assoc
    /\ (forall fuel stub queue collected symbol rest,
          find store (name stub) isClassLike = symbol :: rest ->
          contains collected symbol = true ->
          associatedLoop store (S fuel) (stub :: queue) collected
          = associatedLoop store fuel queue collected).
Proof.
  assert (forall fuel stub queue collected symbol rest,
          find store (name stub) isClassLike = symbol :: rest ->
          contains collected symbol = true ->
          associatedLoop store (S fuel) (stub :: queue) collected
          = associatedLoop store fuel queue collected) as Hskip.
  { intros fuel stub queue collected symbol rest Hfind Hc. simpl. by rewrite Hfind, Hc. }
  destruct (getAssociated_fresh root) as (assoc & Hrun & Hnd & Hres).
  exists assoc. split; [exact Hrun|]. split; [exact Hnd|]. split; [exact Hres | exact Hskip].
Qed.

End AssociatedFacts.

(** The walk over the cycle [A extends B extends A], started at [A],
    collects [B] and then [A], and stops. *)
Example associated_of_cycle :
  TypeAggregate._getAssociated 4 (TypeAggregate.fresh Samples.cycle Samples.cycleA)
  = Some ([Samples.cycleB; Samples.cycleA],
          TypeAggregate.cached Samples.cycle Samples.cycleA [Samples.cycleB; Samples.cycleA]).
Proof. reflexivity. Qed.

(** ** members *)

Section MembersFacts.
Context (E : SymbolEnums).
Import TypeAggregate.

Lemma call_user stack captured f x :
  call E stack captured (UserPredicate f) x = Ok (f x).
Proof. by destruct stack. Qed.

Lemma js_filter_user stack captured f c :
  js_filter (call E stack captured (UserPredicate f)) c = Ok (List.filter f c).
Proof.
  induction c as [|x c IH]; simpl; [done|].
  rewrite call_user, IH. simpl. by destruct (f x).
Qed.

Lemma filterChildren_user stack captured predicate c :
  filterChildren E stack captured (UserPredicate <$> predicate) c = Ok (accepted predicate c).
Proof. destruct predicate as [f|]; simpl; [apply js_filter_user | done]. Qed.

(** Once the variable [predicate] holds [noPrivate] itself, [noPrivate]
    calls itself on every member that is not private, until the stack is
    exhausted, whatever its depth. *)
Lemma call_noPrivate stack x :
  call E stack (Some noPrivate) noPrivate x =
  if isPrivate E x then Ok false else Throw RangeError.
Proof.
  induction stack as [|stack IH]; simpl; fold (isPrivate E x);
    destruct (isPrivate E x) eqn:Hp; done.
Qed.

Lemma js_filter_noPrivate stack c :
  js_filter (call E stack (Some noPrivate) noPrivate) c =
  if forallb (isPrivate E) c then Ok [] else Throw RangeError.
Proof.
  induction c as [|x c IH]; simpl; [done|].
  rewrite call_noPrivate. destruct (isPrivate E x); simpl; [|done].
  rewrite IH. by destruct (forallb (isPrivate E) c).
Qed.

Lemma interfaceMembers_user stack captured predicate l acc :
  for_each (interfaceStep E stack captured (UserPredicate <$> predicate)) l acc
  = Ok (acc ++ accepted predicate (allChildren l)).
Proof.
  revert acc. induction l as [|s l IH]; intros acc; simpl.
  - unfold allChildren. simpl. destruct predicate; simpl; by rewrite app_nil_r.
  - unfold interfaceStep at 1. destruct (children s) as [c|] eqn:Hc; simpl.
    + rewrite filterChildren_user. simpl. rewrite IH. f_equal.
      unfold allChildren. simpl. rewrite Hc. simpl.
      rewrite <- app_assoc. f_equal.
      destruct predicate; simpl; [by rewrite List.filter_app | done].
    + rewrite IH. unfold allChildren. simpl. by rewrite Hc.
Qed.

Lemma interfaceMembers_noPrivate stack l acc :
  for_each (interfaceStep E stack (Some noPrivate) (Some noPrivate)) l acc
  = if forallb (onlyPrivateChildren E) l then Ok acc else Throw RangeError.
Proof.
  revert acc. induction l as [|s l IH]; intros acc; simpl; [done|].
  unfold interfaceStep at 1, onlyPrivateChildren at 1.
  destruct (children s) as [c|]; simpl.
  - rewrite js_filter_noPrivate. destruct (forallb (isPrivate E) c); simpl; [|done].
    rewrite app_nil_r. apply IH.
  - apply IH.
Qed.

Lemma classLoop_noPrivate stack l st :
  predicate st = Some noPrivate ->
  for_each (classStep E stack) l st
  = if forallb (onlyPrivateChildren E) (List.filter (fun s => negb (isTrait s)) l)
    then Ok {| members_ := members_ st;
               traits := traits st ++ List.filter isTrait l;
               predicate := Some noPrivate |}
    else Throw RangeError.
Proof.
  revert st. induction l as [|s l IH]; intros [ms ts p] Hp; simpl in *.
  - subst p. by rewrite app_nil_r.
  - subst p. unfold classStep at 1. rewrite kind_is_decide. fold (isTrait s).
    destruct (isTrait s) eqn:Ht; simpl.
    + rewrite IH by done. simpl. by rewrite <- app_assoc.
    + unfold onlyPrivateChildren at 1. destruct (children s) as [c|]; simpl.
      * rewrite js_filter_noPrivate. destruct (forallb (isPrivate E) c); simpl; [|done].
        rewrite IH by done. simpl. by rewrite app_nil_r.
      * by rewrite IH.
Qed.

(** What [_classMembers] does for a class root [root] followed by its
    associated symbols: the members of the associated symbols are filtered
    with [noPrivate] while the variable it reads holds [noPrivate].  The
    classes and interfaces among them are filtered in the loop, before the
    merge, and the traits after it. *)
Lemma classMembers_root stack root assoc strategy predicate :
  kind root = SymbolKind.Class ->
  _classMembers E stack (root :: assoc) strategy (UserPredicate <$> predicate)
  = if forallb (onlyPrivateChildren E) (List.filter (fun s => negb (isTrait s)) assoc)
    then members <- _mergeMembers E (accepted predicate (or_empty (children root)))
                      strategy ;;
         if forallb (onlyPrivateChildren E) (List.filter isTrait assoc)
         then Ok members else Throw RangeError
    else Throw RangeError.
Proof.
  intros Hk. unfold _classMembers. simpl.
  unfold classStep at 1. rewrite kind_is_decide, Hk. simpl.
  assert (forall ms,
    (st <- for_each (classStep E stack) assoc
             {| members_ := ms; traits := []; predicate := Some noPrivate |} ;;
     members <- _mergeMembers E (members_ st) strategy ;;
     fromTraits <- _traitMembers E stack (Some noPrivate) (traits st) (Some noPrivate) ;;
     Ok (members ++ fromTraits))
    = if forallb (onlyPrivateChildren E) (List.filter (fun s => negb (isTrait s)) assoc)
      then members <- _mergeMembers E ms strategy ;;
           if forallb (onlyPrivateChildren E) (List.filter isTrait assoc)
           then Ok members else Throw RangeError
      else Throw RangeError) as Hrest.
  { intros ms. rewrite classLoop_noPrivate by done.
    destruct (forallb _ (List.filter (fun s => negb (isTrait s)) assoc)); simpl; [|done].
    destruct (_mergeMembers E ms strategy) as [m|e]; simpl; [|done].
    unfold _traitMembers, _interfaceMembers. rewrite interfaceMembers_noPrivate.
    destruct (forallb _ (List.filter isTrait assoc)); simpl; [|done].
    by rewrite app_nil_r. }
  destruct (children root) as [c|]; simpl.
  - rewrite filterChildren_user. simpl. apply Hrest.
  - destruct predicate; apply Hrest.
Qed.

Lemma members_class fuel stack this strategy predicate assoc this' :
  kind (_symbol this) = SymbolKind.Class ->
  _getAssociated fuel this = Some (assoc, this') ->
  members E fuel stack this strategy predicate
  = Some (if forallb (onlyPrivateChildren E) (List.filter (fun s => negb (isTrait s)) assoc)
          then members <- _mergeMembers E
                            (accepted predicate (or_empty (children (_symbol this))))
                            strategy ;;
               if forallb (onlyPrivateChildren E) (List.filter isTrait assoc)
               then Ok members else Throw RangeError
          else Throw RangeError, this').
Proof.
  intros Hk Ha. unfold members. rewrite Ha. simpl.
  rewrite kind_is_decide, Hk. simpl. by rewrite classMembers_root.
Qed.

(** Once an associated class or interface has a child that is not private,
    [members] of a class root ends in a stack overflow, however deep the
    stack. *)
Lemma class_members_overflow fuel stack this strategy predicate assoc this' :
  kind (_symbol this) = SymbolKind.Class ->
  _getAssociated fuel this = Some (assoc, this') ->
  forallb (onlyPrivateChildren E) (List.filter (fun s => negb (isTrait s)) assoc) = false ->
  members E fuel stack this strategy predicate = Some (Throw RangeError, this').
Proof.
  intros Hk Ha Hbad. rewrite (members_class _ _ _ _ _ _ _ Hk Ha), Hbad. done.
Qed.

(** When the associated symbols have private children only, [members] of
    a class root does what the merge of the root's own members does: it
    returns them merged, private ones included, and none of the members of
    the associated symbols. *)
Lemma class_members_own fuel stack this strategy predicate assoc this' :
  kind (_symbol this) = SymbolKind.Class ->
  _getAssociated fuel this = Some (assoc, this') ->
  forallb (onlyPrivateChildren E) assoc = true ->
  members E fuel stack this strategy predicate
  = Some (_mergeMembers E (accepted predicate (or_empty (children (_symbol this)))) strategy,
          this').
Proof.
  intros Hk Ha Hgood. rewrite (members_class _ _ _ _ _ _ _ Hk Ha).
  rewrite (forallb_split (onlyPrivateChildren E) isTrait assoc) in Hgood.
  apply andb_true_iff in Hgood as [-> ->].
  by destruct (_mergeMembers E _ strategy).
Qed.

(** C5 (as amended). [members] of a class root under the Override strategy,
    with the associated array [assoc] computed within [associatedFuel]
    turns, when every associated symbol has private children only
    (otherwise the call ends in the stack overflow of C2).  [own] is the
    list of the children of the root that the caller's predicate accepts:
    it is all that the walk collects.  When a member of [own] goes by the name of a
    property of [Object.prototype], the call throws a TypeError.  Otherwise
    it returns one member of [own] for each name that occurs in [own]: the
    first member of that name, unless that one is magic and a member of that
    name that is not magic follows, in which case the first such member is
    returned.  Consequently, for a class [C] with no ancestors and no traits
    whose children have pairwise distinct names, none of them that of a
    property of [Object.prototype], [members(Override)] is the list of the
    children of [C]. *)
Theorem override_keeps_first_real_member :
  (forall store root stack predicate,
     kind root = SymbolKind.Class ->
     exists assoc,
       forall fuel, associatedFuel store root <= fuel ->
         _getAssociated fuel (fresh store root) = Some (assoc, cached store root assoc)
         /\ (forallb (onlyPrivateChildren E) assoc = true ->
             let own := accepted predicate (or_empty (children root)) in
             if plainNames own
             then exists kept,
                    members E fuel stack (fresh store root)
                      MemberMergeStrategy.Override predicate
                    = Some (Ok kept, cached store root assoc)
                    /\ NoDup (name <$> kept)
                    /\ (forall x, x ∈ own -> exists y, y ∈ kept /\ name y = name x)
                    /\ (forall y, y ∈ kept ->
                         y ∈ own
                         /\ match List.find (fun x => bool_decide (name x = name y)
                                                       && negb (isMagic E x)) own with
                            | Some real => y = real
                            | None =>
                                List.find (fun x => bool_decide (name x = name y)) own
                                = Some y
                            end)
             else members E fuel stack (fresh store root)
                    MemberMergeStrategy.Override predicate
                  = Some (Throw TypeError, cached store root assoc)))
  /\ (forall fuel stack store C,
        kind C = SymbolKind.Class ->
        or_empty (associated C) = [] ->
        NoDup (name <$> or_empty (children C)) ->
        plainNames (or_empty (children C)) = true ->
        members E fuel stack (fresh store C) MemberMergeStrategy.Override None
        = Some (Ok (or_empty (children C)), cached store C [])).
Proof.
  split.
  - intros store root stack predicate Hk.
    destruct (getAssociated_fresh store root) as (assoc & Hrun & _).
    exists assoc. intros fuel Hfuel. split; [by apply Hrun|]. intros Hprivate own.
    rewrite (class_members_own fuel stack (fresh store root) _ predicate assoc _ Hk
               (Hrun fuel Hfuel) Hprivate).
    simpl. fold own. destruct (plainNames own) eqn:Hplain.
    + destruct (mergeMembers_Override E own Hplain) as (kept & -> & Hnd & Hcov & Hkept).
      exists kept. split; [done|]. split; [done|]. split; [done|].
      intros y Hy. specialize (Hkept y Hy). split; [by destruct (keptFor_elem E _ _ _ Hkept)|].
      unfold keptFor, firstRealNamed, firstNamed in Hkept.
      destruct (List.find _ own) as [real|]; [congruence|done].
    + by rewrite mergeMembers_throws.
  - intros fuel stack store C Hk Hassoc Hnd Hplain.
    assert (_getAssociated fuel (fresh store C) = Some ([], cached store C [])) as Ha.
    { unfold _getAssociated, fresh, cached. simpl.
      destruct (associated C) as [[|? ?]|]; simpl in *; done. }
    rewrite (class_members_own fuel stack (fresh store C) _ None [] _ Hk Ha eq_refl). simpl.
    by rewrite mergeMembers_distinct.
Qed.

(** For an interface or trait root: the children of the root and of its
    associated symbols, in that order, filtered by the caller's predicate. *)
Lemma interface_members fuel stack this strategy predicate assoc this' :
  kind (_symbol this) = SymbolKind.Interface \/ kind (_symbol this) = SymbolKind.Trait ->
  _getAssociated fuel this = Some (assoc, this') ->
  members E fuel stack this strategy predicate
  = Some (Ok (accepted predicate (allChildren (_symbol this :: assoc))), this').
Proof.
  intros Hk Ha. unfold members. rewrite Ha. simpl.
  rewrite !kind_is_decide.
  unfold _traitMembers, _interfaceMembers.
  destruct Hk as [Hk|Hk]; rewrite Hk.
  - rewrite bool_decide_eq_false_2, bool_decide_eq_true_2 by done.
    by rewrite interfaceMembers_user.
  - rewrite !bool_decide_eq_false_2, bool_decide_eq_true_2 by done.
    by rewrite interfaceMembers_user.
Qed.

(** C6. For a root of kind Interface, and likewise for a root of kind
    Trait, [members] returns the children of the root followed by the
    children of every associated symbol, in order and without merging by
    name, whatever the strategy; a predicate passed by the caller filters
    that list.  [assoc] is the associated array of the root. *)
Theorem interface_members_concatenate store root stack strategy predicate :
  kind root = SymbolKind.Interface \/ kind root = SymbolKind.Trait ->
  exists assoc,
    forall fuel, associatedFuel store root <= fuel ->
      _getAssociated fuel (fresh store root) = Some (assoc, cached store root assoc)
      /\ members E fuel stack (fresh store root) strategy predicate
         = Some (Ok (accepted predicate (allChildren (root :: assoc))),
                 cached store root assoc).
Proof.
  intros Hk. destruct (getAssociated_fresh store root) as (assoc & Hrun & _).
  exists assoc. intros fuel Hfuel. split; [by apply Hrun|].
  by rewrite (interface_members fuel stack (fresh store root) strategy predicate
                assoc (cached store root assoc) Hk (Hrun fuel Hfuel)).
Qed.

End MembersFacts.

(** ** The type aggregate on the sample programs *)

(** C1, on a sample: the magic [foo] kept first is replaced by the declared
    [foo] that follows, here under Override. *)
Lemma merge_non_magic_replaces_magic_witness :
  TypeAggregate._mergeMembers flags ([Samples.fooMagic] ++ [Samples.fooReal])
    MemberMergeStrategy.Override
  = Ok (<[0 := Samples.fooReal]> [Samples.fooMagic]).
Proof.
  apply (merge_non_magic_replaces_magic flags MemberMergeStrategy.Override
           [Samples.fooMagic] Samples.fooReal [Samples.fooMagic] 0 Samples.fooMagic).
  - discriminate.
  - reflexivity.
  - reflexivity.
  - reflexivity.
  - reflexivity.
  - reflexivity.
Defined.

(** C2. [class Base { public function m() {} } class Sub extends Base {}]:
    [members] of [Sub] should return [m]; instead the call ends in a
    RangeError, for every strategy, every predicate of the caller and every
    depth of the stack.  [noPrivate] reads the variable [predicate], which by
    then holds [noPrivate] itself, so it calls itself without end on [m]. *)
Theorem subclass_members_overflow stack strategy predicate :
  TypeAggregate.members flags 3 stack
    (TypeAggregate.fresh Samples.inheritance Samples.subClass) strategy predicate
  = Some (Throw RangeError,
          TypeAggregate.cached Samples.inheritance Samples.subClass [Samples.baseClass]).
Proof.
  apply (class_members_overflow flags 3 stack _ strategy predicate [Samples.baseClass]);
    reflexivity.
Qed.

(** C5, the claim as it stood: under Override the first member met
    under the name [foo] is the magic one, and [members] keeps the declared
    one that follows it. *)
Lemma override_drops_first_magic_member :
  TypeAggregate.members flags 0 0
    (TypeAggregate.fresh (listStore []) Samples.magicFirst)
    MemberMergeStrategy.Override None
  = Some (Ok [Samples.fooReal], TypeAggregate.cached (listStore []) Samples.magicFirst [])
  /\ TypeAggregate.firstNamed "foo" (or_empty (children Samples.magicFirst))
     = Some Samples.fooMagic
  /\ TypeAggregate.isMagic flags Samples.fooMagic = true
  /\ TypeAggregate.isMagic flags Samples.fooReal = false.
Proof. repeat split; reflexivity. Qed.

(** C5 as amended, on a sample: a class without ancestors whose two members
    have different names. *)
Lemma override_keeps_first_real_member_witness :
  TypeAggregate.members flags 0 0
    (TypeAggregate.fresh (listStore []) Samples.plain) MemberMergeStrategy.Override None
  = Some (Ok [Samples.publicM; Samples.secret],
          TypeAggregate.cached (listStore []) Samples.plain []).
Proof.
  apply (proj2 (override_keeps_first_real_member flags) 0 0 (listStore []) Samples.plain).
  - reflexivity.
  - reflexivity.
  - compute_done.
  - reflexivity.
Defined.

(** C6, on a sample: interface [I] extends [J]; the members of [I] are its
    own followed by those of [J], also under the Base strategy. *)
Lemma interface_members_concatenate_witness :
  TypeAggregate.members flags 3 0
    (TypeAggregate.fresh Samples.interfaces Samples.childInterface)
    MemberMergeStrategy.Base None
  = Some (Ok [Samples.secret; Samples.publicM],
          TypeAggregate.cached Samples.interfaces Samples.childInterface
            [Samples.parentInterface]).
Proof.
  destruct (interface_members_concatenate flags Samples.interfaces Samples.childInterface
              0 MemberMergeStrategy.Base None) as (assoc & Hrun).
  - left. reflexivity.
  - destruct (Hrun 3) as [Hassoc Hmembers].
    + vm_compute. lia.
    + vm_compute in Hassoc. injection Hassoc as <-. exact Hmembers.
Defined.

(** ** Reading a use group *)

Section UseGroupFacts.
Context (E : SymbolEnums).
Import ImportTableReader.

Lemma popMany_pushed items stack :
  popMany (rev items ++ stack) (length items) = (items, stack).
Proof.
  induction items as [|v items IH] using rev_ind; [done|].
  rewrite rev_app_distr, length_app. simpl.
  rewrite Nat.add_1_r. simpl. by rewrite IH.
Qed.

Lemma truthy_Text s : truthyValue (Text s) = negb (bool_decide (s = "")).
Proof. by destruct s. Qed.

Lemma active_test (this : t) : _active this <> 0 -> (_active this <? 1) = false.
Proof. intros H. apply Nat.ltb_ge. lia. Qed.

Lemma traverse_unfold v nodes this :
  traverse E (Node v nodes) this
  = match (if shouldDescend (Node v nodes)
           then visitAll (traverse E) nodes (preOrder (Node v nodes) this)
           else Some (Ok (preOrder (Node v nodes) this))) with
    | Some (Ok this') => postOrder E (Node v nodes) this'
    | other => other
    end.
Proof.
  simpl. by destruct (if shouldDescend (Node v nodes) then _ else _) as [[this'|e]|].
Qed.

Lemma visitAll_nil visit this : visitAll visit [] this = Some (Ok this).
Proof. reflexivity. Qed.

Lemma visitAll_cons visit node nodes this :
  visitAll visit (node :: nodes) this
  = match visit node this with
    | Some (Ok this') => visitAll visit nodes this'
    | other => other
    end.
Proof. simpl. by destruct (visit node this) as [[this'|e]|]. Qed.

(** The tokens of a name are pushed one by one. *)
Lemma traverse_tokens texts this :
  _active this <> 0 ->
  visitAll (traverse E) (tokenNode <$> texts) this
  = Some (Ok {| _stack := rev (Text <$> texts) ++ _stack this; _active := _active this;
                importTable := importTable this |}).
Proof.
  revert this. induction texts as [|text texts IH]; intros this Hactive.
  - by destruct this.
  - rewrite fmap_cons, visitAll_cons. unfold tokenNode at 1. rewrite traverse_unfold.
    cbn -[Nat.ltb]. unfold postOrder. rewrite active_test by done. cbn -[Nat.ltb].
    rewrite IH by done. simpl. by rewrite <- app_assoc.
Qed.

Lemma join_texts texts : join "\" (Text <$> texts) = Some (String.concat "\" texts).
Proof.
  unfold join. assert (mapM joinItem (Text <$> texts) = Some texts) as ->; [|done].
  induction texts as [|text texts IH]; [done|]. cbn. cbn in IH. by rewrite IH.
Qed.

(** A namespace name is pushed as its segments joined by backslashes. *)
Lemma traverse_namespaceName texts this :
  _active this <> 0 ->
  traverse E (namespaceName texts) this
  = Some (Ok (push (Text (String.concat "\" texts)) this)).
Proof.
  intros Hactive. unfold namespaceName. rewrite traverse_unfold.
  change (shouldDescend _) with true. change (preOrder _ this) with this. cbv iota.
  rewrite traverse_tokens by done. unfold postOrder. cbn -[Nat.ltb join].
  rewrite active_test by done.
  rewrite length_fmap, <- (length_fmap Text texts), popMany_pushed.
  rewrite join_texts. by destruct this.
Qed.

(** An element with an alias leaves its rule on the stack, or null when
    its name is empty; at the node of an alias that was not written the
    traversal throws. *)
Lemma traverse_useElement e this :
  _active this <> 0 ->
  traverse E (useElement e) this
  = if aliased e then Some (Ok (push (elementValue E e) this))
    else Some (Throw TypeError).
Proof.
  intros Hactive. unfold useElement, aliased, elementValue.
  rewrite traverse_unfold. change (shouldDescend _) with true.
  change (preOrder _ this) with this. cbv iota.
  rewrite visitAll_cons, traverse_namespaceName by done. fold (path e).
  rewrite visitAll_cons. unfold aliasNode.
  destruct (alias e) as [a|]; rewrite traverse_unfold; cbn -[Nat.ltb truthyValue].
  - unfold postOrder. cbn -[Nat.ltb truthyValue]. rewrite !active_test by done.
    cbn -[Nat.ltb truthyValue]. unfold _postOrderUseElement. cbn -[Nat.ltb truthyValue].
    rewrite truthy_Text. destruct this. by case_bool_decide.
  - unfold postOrder. cbn -[Nat.ltb]. by rewrite active_test.
Qed.

Lemma traverse_useElements elements this :
  _active this <> 0 ->
  visitAll (traverse E) (useElement <$> elements) this
  = if forallb aliased elements
    then Some (Ok {| _stack := rev (elementValue E <$> elements) ++ _stack this;
                     _active := _active this; importTable := importTable this |})
    else Some (Throw TypeError).
Proof.
  revert this. induction elements as [|e elements IH]; intros this Hactive.
  - by destruct this.
  - rewrite fmap_cons, visitAll_cons, traverse_useElement by done.
    cbn [forallb]. destruct (aliased e); [|done]. cbn [andb].
    rewrite IH by done. destruct (forallb aliased elements); [|done].
    simpl. by rewrite <- app_assoc.
Qed.

Lemma filter_elementValues elements :
  List.filter truthyValue (elementValue E <$> elements)
  = (fun e => RuleValue {| kind := _useFlagToSymbolKind E (elementFlag e);
                           fqn := path e; name := alias e |})
    <$> List.filter written elements.
Proof.
  induction elements as [|e elements IH]; [done|].
  rewrite fmap_cons. unfold elementValue at 1, written at 1. simpl.
  destruct (bool_decide (path e = "")) eqn:Hb; simpl; [exact IH | f_equal; exact IH].
Qed.

(** A use list leaves the array of the rules of its elements on the
    stack. *)
Lemma traverse_useList elements this :
  _active this <> 0 ->
  traverse E (useList elements) this
  = if forallb aliased elements
    then Some (Ok (push (Array ((fun e =>
                                   RuleValue {| kind := _useFlagToSymbolKind E (elementFlag e);
                                                fqn := path e; name := alias e |})
                                <$> List.filter written elements)) this))
    else Some (Throw TypeError).
Proof.
  intros Hactive. unfold useList. rewrite traverse_unfold.
  change (shouldDescend _) with true. change (preOrder _ this) with this. cbv iota.
  rewrite traverse_useElements by done.
  destruct (forallb aliased elements); [|done].
  unfold postOrder. cbn -[Nat.ltb]. rewrite active_test by done.
  unfold _postOrderUseList. cbn -[Nat.ltb].
  rewrite length_fmap, <- (length_fmap (elementValue E) elements), popMany_pushed.
  cbn. by rewrite filter_elementValues.
Qed.

Lemma useFlag_kind flag :
  _useFlagToSymbolKind E flag
  = match flagKind flag with Some k => kind_bits E k | None => 0%Z end.
Proof. by destruct flag. Qed.

Lemma useFlag_truthy flag :
  truthy (_useFlagToSymbolKind E flag) = bool_decide (is_Some (flagKind flag)).
Proof.
  unfold truthy. destruct flag; simpl; try reflexivity;
    match goal with |- context [kind_bits E ?k] => pose proof (kind_bits_range E k) end;
    apply negb_true_iff, Z.eqb_neq; lia.
Qed.

Lemma prefixRule_group flag P e :
  prefixRule (Text P) (_useFlagToSymbolKind E flag)
    (RuleValue {| kind := _useFlagToSymbolKind E (elementFlag e);
                  fqn := path e; name := alias e |})
  = Some (groupRule E flag P e).
Proof.
  unfold prefixRule, groupRule. cbn -[truthyValue].
  rewrite truthy_Text, useFlag_truthy, !useFlag_kind. f_equal. f_equal.
  - by destruct (flagKind flag), (flagKind (elementFlag e)).
  - by case_bool_decide.
Qed.

(** C7. Reading a use group whose prefix is [P].  When every element of
    the group has an alias, the reader adds to the import table, for each
    element with a path [p], a rule whose target FQN is [P\p], whose alias
    is the alias written for the element, and whose kind is that of the
    flag of the group when the group has one and that of the element's own
    flag otherwise; the rules are added in the order of the elements and
    the reader is otherwise left as it was found.  When an element has no
    alias, as [c] in the group [use P\{a\b as A, c}] of the claim, no rule
    is added: at the node of the missing alias [postOrder] pushes null and
    goes on to read [nonTerminalType] of null, which throws a
    TypeError. *)
Theorem use_group_adds_prefixed_rules flag prefix elements this :
  traverse E (useGroup flag prefix elements) this
  = if forallb (fun e => bool_decide (is_Some (alias e))) elements
    then Some (Ok {| _stack := _stack this;
                     _active := _active this;
                     importTable :=
                       addRuleMany
                         (groupRule E flag (String.concat "\" prefix)
                            <$> List.filter written elements)
                         (importTable this) |})
    else Some (Throw TypeError).
Proof.
  unfold useGroup. rewrite traverse_unfold. change (shouldDescend _) with true.
  unfold preOrder. cbn [value].
  rewrite visitAll_cons, traverse_namespaceName by done.
  rewrite visitAll_cons, traverse_useList by done. fold aliased.
  destruct (forallb aliased elements); [|done].
  rewrite visitAll_nil. unfold postOrder. cbn.
  unfold _postOrderUseGroup. cbn.
  set (kept := List.filter written elements).
  assert (mapM (prefixRule (Text (String.concat "\" prefix)) (_useFlagToSymbolKind E flag))
            ((fun e => RuleValue {| kind := _useFlagToSymbolKind E (elementFlag e);
                                    fqn := path e; name := alias e |}) <$> kept)
          = Some (groupRule E flag (String.concat "\" prefix) <$> kept)) as ->; [|done].
  induction kept as [|e kept IH]; [done|].
  cbn -[prefixRule]. rewrite prefixRule_group.
  cbn -[prefixRule]. cbn -[prefixRule] in IH. by rewrite IH.
Qed.

End UseGroupFacts.

(** C7, on the example of the specification: [use P\{a\b as A, c}] cannot
    be read by a new reader; with an alias for [c] too, as in
    [use P\{a\b as A, function c as C}], the rules are [A -> P\a\b] and
    [C -> P\c]. *)
Lemma use_group_adds_prefixed_rules_witness :
  ImportTableReader.traverse flags
    (ImportTableReader.useGroup ImportTableReader.NoUseFlag ["P"] Samples.groupElements)
    Samples.emptyReader
  = Some (Throw TypeError)
  /\ ImportTableReader.traverse flags
       (ImportTableReader.useGroup ImportTableReader.NoUseFlag ["P"] Samples.aliasedElements)
       Samples.emptyReader
     = Some (Ok (ImportTableReader.new
                   {| ImportTableReader.rules :=
                        [ {| ImportTableReader.kind := 0;
                             ImportTableReader.fqn := "P\a\b";
                             ImportTableReader.name := Some "A" |};
                          {| ImportTableReader.kind := flag_kind SymbolKind.Function;
                             ImportTableReader.fqn := "P\c";
                             ImportTableReader.name := Some "C" |} ] |})).
Proof.
  split.
  - exact (use_group_adds_prefixed_rules flags ImportTableReader.NoUseFlag ["P"]
             Samples.groupElements Samples.emptyReader).
  - exact (use_group_adds_prefixed_rules flags ImportTableReader.NoUseFlag ["P"]
             Samples.aliasedElements Samples.emptyReader).
Defined.

(** ** Attaching a docblock to a function or method *)

Section DocblockFacts.
Import SymbolReader.
Context {TypeString : Type}.
Context (newTypeString : string -> TypeString).
Context (merge : TypeString -> string -> TypeString).
Context (parse : string -> option PhpDoc).

Abbreviation PhpSymbol := (SymbolReader.PhpSymbol (TypeString := TypeString)).

Lemma LastIndex_covers names m n : LastIndex names m -> n ∈ names -> is_Some (m !! n).
Proof.
  intros Hm. induction names as [|n0 names IH] using rev_ind in m, Hm |- *.
  - intros []%elem_of_nil.
  - intros [Hin|Heq%list_elem_of_singleton]%elem_of_app.
    + (* the last occurrence of n within names, or the new last element *)
      destruct (decide (n = n0)) as [->|Hne].
      * exists (length names). apply Hm. split; [by rewrite list_lookup_middle|].
        rewrite drop_ge by (rewrite length_app; simpl; lia). apply not_elem_of_nil.
      * assert (exists i, names !! i = Some n /\ n ∉ drop (S i) names) as (i & Hi & Hlast).
        { clear -Hin. induction names as [|x names IH]; [by apply elem_of_nil in Hin|].
          destruct (decide (n ∈ names)) as [Hn|Hn].
          - destruct (IH Hn) as (i & Hi & Hl). exists (S i). done.
          - apply elem_of_cons in Hin as [->|]; [|done]. exists 0. done. }
        exists i. apply Hm. apply lookup_lt_Some in Hi as Hlt. split.
        -- by apply lookup_app_l_Some.
        -- rewrite drop_app_le by lia. intros [?|?%list_elem_of_singleton]%elem_of_app; done.
    + subst n. exists (length names). apply Hm. split; [by rewrite list_lookup_middle|].
      rewrite drop_ge by (rewrite length_app; simpl; lia). apply not_elem_of_nil.
Qed.

Lemma LastIndex_other names m n i j :
  LastIndex names m -> m !! n = Some i -> names !! j = Some n -> j <> i ->
  n ∈ drop (S j) names.
Proof.
  intros Hm Hi Hj Hne. apply Hm in Hi as [Hi Hlast].
  destruct (decide (j < i)) as [Hlt|Hge].
  - apply list_elem_of_lookup. exists (i - S j). rewrite lookup_drop.
    replace (S j + (i - S j)) with i by lia. done.
  - exfalso. apply Hlast. apply list_elem_of_lookup. exists (j - S i).
    rewrite lookup_drop. replace (S i + (j - S i)) with j by lia. done.
Qed.

Lemma paramMap_built (ps : list PhpSymbol) :
  exists m, for_each paramMapStep (Some <$> ps) (0, ∅) = Ok (length ps, m)
            /\ LastIndex (symbolName <$> ps) m.
Proof.
  induction ps as [|p ps IH] using rev_ind.
  - exists ∅. split; [done|]. intros n i. rewrite lookup_empty. simpl.
    split; [done|]. intros [H _]. by rewrite lookup_nil in H.
  - destruct IH as (m & Hloop & Hm).
    exists (<[symbolName p := length ps]> m). split.
    + rewrite fmap_app, for_each_app, Hloop. simpl. rewrite length_app. simpl.
      by rewrite Nat.add_1_r.
    + rewrite fmap_app. simpl. set (names := symbolName <$> ps) in *.
      assert (length names = length ps) as Hlen by apply length_fmap.
      rewrite <- Hlen. intros n i. split.
      * intros H. destruct (decide (symbolName p = n)) as [<-|Hne].
        -- rewrite lookup_insert_eq in H. injection H as <-.
           split; [by rewrite list_lookup_middle|].
           rewrite drop_ge by (rewrite length_app; simpl; lia). apply not_elem_of_nil.
        -- rewrite lookup_insert_ne in H by done. apply Hm in H as [Hi Hlast].
           apply lookup_lt_Some in Hi as Hlt. split; [by apply lookup_app_l_Some|].
           rewrite drop_app_le by lia.
           intros [?|?%list_elem_of_singleton]%elem_of_app; done.
      * intros [Hi Hlast]. destruct (decide (i < length names)) as [Hlt|Hge].
        -- rewrite lookup_app_l in Hi by done. rewrite drop_app_le in Hlast by lia.
           rewrite lookup_insert_ne.
           ++ apply Hm. split; [done|]. intros ?. apply Hlast, elem_of_app. by left.
           ++ intros <-. apply Hlast, elem_of_app. right. by apply list_elem_of_singleton.
        -- apply lookup_lt_Some in Hi as Hl. rewrite length_app in Hl. simpl in Hl.
           assert (i = length names) as -> by lia.
           rewrite list_lookup_middle in Hi by done. injection Hi as <-.
           apply lookup_insert_eq.
Qed.

Lemma paramAfter_name p l : symbolName (paramAfter newTypeString merge p l) = symbolName p.
Proof. revert p. induction l as [|tag l IH]; intros p; simpl; [done|]. by rewrite IH. Qed.

(** What the loop leaves of a parameter and of the function is what the
    claim says. *)
Lemma paramAfter_claimed p l :
  paramAfter newTypeString merge p l
  = {| symbolKind := symbolKind p;
       symbolName := symbolName p;
       symbolType := typeAfter newTypeString merge (symbolType p) l;
       symbolDescription := descriptionAfter (symbolDescription p) l;
       symbolModifiers := symbolModifiers p;
       symbolScope := symbolScope p |}.
Proof.
  revert p. induction l as [|tag l IH]; intros p; [by destruct p|].
  unfold paramAfter in *. simpl. rewrite IH. unfold typeAfter, descriptionAfter. simpl.
  by destruct (symbolType p).
Qed.

Lemma functionAfter_claimed f l :
  functionAfter newTypeString merge f l
  = {| symbolKind := symbolKind f;
       symbolName := symbolName f;
       symbolType := typeAfter newTypeString merge (symbolType f) l;
       symbolDescription := symbolDescription f;
       symbolModifiers := symbolModifiers f;
       symbolScope := symbolScope f |}.
Proof.
  revert f. induction l as [|tag l IH]; intros f; [by destruct f|].
  unfold functionAfter in *. simpl. rewrite IH. unfold typeAfter. simpl.
  by destruct (symbolType f).
Qed.

Lemma tags_applied names m :
  LastIndex names m ->
  forall tags (f : PhpSymbol) (ps : list PhpSymbol),
  symbolName <$> ps = names ->
  exists ps',
    fold_left (tagStep newTypeString merge m) tags {| s := f; params := Some <$> ps |}
    = {| s := functionAfter newTypeString merge f (List.filter isReturnTag tags); params := Some <$> ps' |}
    /\ length ps' = length ps
    /\ forall i p, ps !! i = Some p ->
         ps' !! i = Some (paramAfter newTypeString merge p (List.filter (namesParam names i (symbolName p)) tags)).
Proof.
  intros Hm tags. induction tags as [|tag tags IH]; intros f ps Hnames.
  - exists ps. simpl. done.
  - simpl. unfold tagStep at 2. unfold isReturnTag at 1.
    destruct (bool_decide (tagName tag = "@param")) eqn:Hparam.
    + apply bool_decide_eq_true in Hparam.
      rewrite (bool_decide_eq_false_2 (tagName tag = "@return")) by (rewrite Hparam; done).
      destruct (m !! name tag) as [i|] eqn:Hi; simpl.
      * rewrite <- (list_fmap_alter Some (documentParam newTypeString merge tag))
          by (by apply Forall_true).
        destruct (IH f (alter (documentParam newTypeString merge tag) i ps))
          as (ps' & Hfold & Hlen & Hps').
        { rewrite <- Hnames. apply list_eq. intros j. rewrite !list_lookup_fmap.
          destruct (decide (j = i)) as [->|Hne].
          - rewrite list_lookup_alter_eq. by destruct (ps !! i).
          - by rewrite list_lookup_alter_ne by done. }
        exists ps'. split; [done|]. split; [by rewrite Hlen, length_alter|].
        intros j p Hj. pose proof (proj1 (Hm _ _) Hi) as [Hni Hlast].
        destruct (decide (j = i)) as [->|Hne].
        -- assert (symbolName p = name tag) as Hp.
           { rewrite <- Hnames, list_lookup_fmap, Hj in Hni. by injection Hni. }
           unfold namesParam at 1.
           rewrite !bool_decide_eq_true_2 by (done || by rewrite Hp). simpl.
           rewrite (Hps' i (documentParam newTypeString merge tag p))
             by (by rewrite list_lookup_alter_eq, Hj).
           done.
        -- rewrite (Hps' j p) by (by rewrite list_lookup_alter_ne).
           unfold namesParam at 2.
           destruct (decide (name tag = symbolName p)) as [Heq|Hneq].
           ++ rewrite (bool_decide_eq_false_2 (symbolName p ∉ _)); [by rewrite andb_false_r|].
              intros Hnot. apply Hnot. rewrite <- Heq.
              eapply LastIndex_other; [done..| |done].
              by rewrite <- Hnames, list_lookup_fmap, Hj, Heq.
           ++ by rewrite (bool_decide_eq_false_2 (name tag = _)), andb_false_r.
      * destruct (IH f ps Hnames) as (ps' & Hfold & Hlen & Hps').
        exists ps'. split; [done|]. split; [done|].
        intros j p Hj. rewrite (Hps' j p Hj). unfold namesParam at 2.
        rewrite (bool_decide_eq_false_2 (name tag = _)); [by rewrite andb_false_r|].
        intros Heq. assert (is_Some (m !! name tag)) as [? ?]; [|congruence].
        eapply LastIndex_covers; [done|]. rewrite Heq, <- Hnames.
        apply list_elem_of_fmap_2. by eapply list_elem_of_lookup_2.
    + assert (forall names i n, namesParam names i n tag = false) as Hno.
      { intros. unfold namesParam. by rewrite Hparam. }
      destruct (bool_decide (tagName tag = "@return")) eqn:Hret; simpl.
      * destruct (IH (documentReturn newTypeString merge tag f) ps Hnames)
          as (ps' & Hfold & Hlen & Hps').
        exists ps'. split; [done|]. split; [done|].
        intros j p Hj. by rewrite Hno, (Hps' j p Hj).
      * destruct (IH f ps Hnames) as (ps' & Hfold & Hlen & Hps').
        exists ps'. split; [done|]. split; [done|].
        intros j p Hj. by rewrite Hno, (Hps' j p Hj).
Qed.

Lemma tags_documented names m :
  LastIndex names m ->
  forall phpDoc (f : PhpSymbol) (ps : list PhpSymbol),
  symbolName <$> ps = names ->
  fold_left (tagStep newTypeString merge m) (tags phpDoc)
    {| s := describe (summary phpDoc) f; params := Some <$> ps |}
  = documented newTypeString merge phpDoc f ps.
Proof.
  intros Hm phpDoc f ps Hnames.
  destruct (tags_applied names m Hm (tags phpDoc) (describe (summary phpDoc) f) ps Hnames)
    as (ps' & -> & Hlen & Hps').
  unfold documented. f_equal; [by rewrite functionAfter_claimed|].
  apply list_eq. intros i.
  rewrite list_lookup_fmap, list_lookup_imap. destruct (ps !! i) as [p|] eqn:Hi; simpl.
  - rewrite Hnames, (Hps' i p Hi). simpl. by rewrite paramAfter_claimed.
  - assert (ps' !! i = None) as ->; [|done].
    apply lookup_ge_None. apply lookup_ge_None in Hi. lia.
Qed.

(** The first loop throws at a parameter without name. *)
Lemma paramMap_nameless (params : list (option PhpSymbol)) st :
  None ∈ params -> for_each paramMapStep params st = Throw TypeError.
Proof.
  revert st. induction params as [|[p|] params IH]; intros st Hin.
  - by apply elem_of_nil in Hin.
  - simpl. apply IH. by apply elem_of_cons in Hin as [|].
  - done.
Qed.

(** C8. When a docblock is attached to a function or method whose
    parameters all have a name: every parameter meets, in order, the
    [@param] tags that name it, and each of them sets its type to the tag's
    type when it has none yet and merges the tag's type into it otherwise;
    the function meets the [@return] tags in the same way.  A [@param] tag
    that names no parameter changes nothing: the result is the same as
    without the tag.  (No parameter and no tag is to be called [__proto__]:
    under that name [paramMap] has its prototype, not an entry.)  When a
    parameter has no name, its entry of [params] being null, the docblock
    is not attached: the first loop reads [.value] of null and throws a
    TypeError, where [_assignFunctionOrMethodParameters] skips such an
    entry. *)
Theorem docblock_sets_or_merges_types (f : PhpSymbol) text phpDoc :
  parse text = Some phpDoc ->
  (forall ps : list PhpSymbol,
     "__proto__" ∉ symbolName <$> ps ->
     "__proto__" ∉ name <$> tags phpDoc ->
     _assignFunctionOrMethodPhpDoc newTypeString merge parse
       {| s := f; params := Some <$> ps |} (Some text)
     = Ok (documented newTypeString merge phpDoc f ps)
     /\ symbolType (s (documented newTypeString merge phpDoc f ps))
        = fold_left (fun t tag =>
                       match t with
                       | None => Some (newTypeString (typeString tag))
                       | Some existing => Some (merge existing (typeString tag))
                       end)
            (List.filter (fun tag => bool_decide (tagName tag = "@return")) (tags phpDoc))
            (symbolType f)
     /\ (forall i p, ps !! i = Some p ->
           exists p',
             params (documented newTypeString merge phpDoc f ps) !! i = Some (Some p')
             /\ symbolName p' = symbolName p
             /\ symbolType p'
                = fold_left (fun t tag =>
                               match t with
                               | None => Some (newTypeString (typeString tag))
                               | Some existing => Some (merge existing (typeString tag))
                               end)
                    (List.filter
                       (fun tag => bool_decide (tagName tag = "@param")
                                   && bool_decide (name tag = symbolName p)
                                   && bool_decide (symbolName p ∉ drop (S i) (symbolName <$> ps)))
                       (tags phpDoc))
                    (symbolType p))
     /\ (forall before tag after,
           tags phpDoc = before ++ tag :: after ->
           tagName tag = "@param" ->
           name tag ∉ symbolName <$> ps ->
           documented newTypeString merge phpDoc f ps
           = documented newTypeString merge
               {| summary := summary phpDoc; tags := before ++ after |} f ps))
  /\ (forall params0 : list (option PhpSymbol),
        None ∈ params0 ->
        _assignFunctionOrMethodPhpDoc newTypeString merge parse
          {| s := f; params := params0 |} (Some text)
        = Throw TypeError).
Proof.
  intros Hparse. split.
  - intros ps _ _. split; [|split; [|split]].
    + unfold _assignFunctionOrMethodPhpDoc. rewrite Hparse. simpl.
      destruct (paramMap_built ps) as (m & -> & Hm). simpl.
      by rewrite (tags_documented _ m Hm).
    + reflexivity.
    + intros i p Hi. eexists. split; [|split].
      * simpl. rewrite list_lookup_imap, Hi. reflexivity.
      * reflexivity.
      * reflexivity.
    + intros before tag after Htags Hparam Hname. unfold documented. simpl.
      rewrite Htags, !List.filter_app. simpl.
      unfold isReturnTag at 2. rewrite (bool_decide_eq_false_2 (tagName tag = "@return"))
        by (rewrite Hparam; done).
      f_equal. apply imap_ext. intros i p Hi. simpl.
      assert (namesParam (symbolName <$> ps) i (symbolName p) tag = false) as Hother.
      { unfold namesParam. rewrite (bool_decide_eq_false_2 (name tag = symbolName p)).
        - by rewrite andb_false_r.
        - intros Heq. apply Hname. rewrite Heq. apply list_elem_of_fmap_2.
          by eapply list_elem_of_lookup_2. }
      rewrite !List.filter_app. simpl. by rewrite Hother.
  - intros params0 Hin. unfold _assignFunctionOrMethodPhpDoc. rewrite Hparse. simpl.
    by rewrite paramMap_nameless.
Qed.

End DocblockFacts.

(** C8, on a sample: [function f($x)], with [$x] of type [array], and the
    docblock [@param int $x  @return string]: the type of [$x] is merged
    with [int], the result type, undefined before, is set to [string].
    With a second parameter that has no name, attaching the docblock
    throws. *)
Lemma docblock_sets_or_merges_types_witness :
  (exists f' x',
     SymbolReader._assignFunctionOrMethodPhpDoc Samples.atoms Samples.mergeAtoms
       (fun _ => Some Samples.sampleDoc)
       {| SymbolReader.s := Samples.sampleFunction;
          SymbolReader.params := [Some Samples.sampleParam] |} (Some "/** ... */")
     = Ok {| SymbolReader.s := f'; SymbolReader.params := [Some x'] |}
     /\ SymbolReader.symbolType f' = Some ["string"]
     /\ SymbolReader.symbolType x' = Some ["array"; "int"])
  /\ SymbolReader._assignFunctionOrMethodPhpDoc Samples.atoms Samples.mergeAtoms
       (fun _ => Some Samples.sampleDoc)
       {| SymbolReader.s := Samples.sampleFunction;
          SymbolReader.params := [Some Samples.sampleParam; None] |} (Some "/** ... */")
     = Throw TypeError.
Proof.
  destruct (docblock_sets_or_merges_types Samples.atoms Samples.mergeAtoms
              (fun _ => Some Samples.sampleDoc) Samples.sampleFunction
              "/** ... */" Samples.sampleDoc eq_refl) as [Hnamed Hnameless].
  split.
  - destruct (Hnamed [Samples.sampleParam]) as (Hrun & _).
    + apply (bool_decide_eq_false_1 (_ ∈ _)). reflexivity.
    + apply (bool_decide_eq_false_1 (_ ∈ _)). reflexivity.
    + eexists _, _. split; [exact Hrun|]. split; reflexivity.
  - apply Hnameless. apply list_elem_of_further, list_elem_of_here.
Defined.

(** ** The document store *)

Section DocumentStoreFacts.
Context {Unsubscribe : Type}.
Context (subscribe : ParsedDocumentStore.ParsedDocument -> Unsubscribe).
Import ParsedDocumentStore.

Abbreviation store := (ParsedDocumentStore.t (Unsubscribe := Unsubscribe)).

Lemma has_own url (this : store) :
  is_Some (_parsedDocumentmap this !! url) -> has url this = true.
Proof. intros [d Hd]. unfold has, get. by rewrite Hd. Qed.

Lemma has_inherited url (this : store) : inheritedKey url = true -> has url this = true.
Proof.
  intros Hk. unfold has, get. destruct (_parsedDocumentmap this !! url); [done|].
  by rewrite Hk.
Qed.

Lemma has_false url (this : store) :
  has url this = false <-> _parsedDocumentmap this !! url = None /\ inheritedKey url = false.
Proof.
  unfold has, get. destruct (_parsedDocumentmap this !! url).
  - split; [done|]. by intros [? _].
  - destruct (inheritedKey url); (split; [done|]); by intros [_ ?].
Qed.

Lemma has_spec url (this : store) :
  has url this = bool_decide (is_Some (_parsedDocumentmap this !! url)) || inheritedKey url.
Proof.
  unfold has, get. destruct (_parsedDocumentmap this !! url) as [d|].
  - by rewrite bool_decide_eq_true_2 by eauto.
  - rewrite bool_decide_eq_false_2 by (by intros [? ?]). by destruct (inheritedKey url).
Qed.

Lemma subscribed_new : subscribed (new (Unsubscribe := Unsubscribe)).
Proof. split; intros url [d Hd]; simpl in Hd; by rewrite lookup_empty in Hd. Qed.

Lemma subscribed_add d (this : store) : subscribed this -> subscribed (snd (add subscribe d this)).
Proof.
  intros [Hs Hplain]. unfold add. destruct (has (uri d) this) eqn:Hhas; simpl; [done|].
  apply has_false in Hhas as [_ Hkey].
  split; intros url; simpl; (destruct (decide (uri d = url)) as [<-|Hne]);
    rewrite ?lookup_insert_eq, ?lookup_insert_ne by done; eauto.
Qed.

(** [remove] of a URI under which no document is filed leaves the store
    as it is, whether the call returns or throws. *)
Lemma remove_not_filed url (this : store) :
  _parsedDocumentmap this !! url = None -> snd (remove url this) = this.
Proof.
  intros Hnone. unfold remove.
  assert ({| _parsedDocumentmap := delete url (_parsedDocumentmap this);
             _unsubscribeMap := _unsubscribeMap this |} = this) as ->.
  { destruct this as [docs unsub]. simpl in *. by rewrite delete_id. }
  destruct (has url this); simpl; [|done].
  destruct (get (_unsubscribeMap this) url); [done| |done].
  by destruct (callInherited url).
Qed.

(** [remove] of a URI under which a document is filed. *)
Lemma remove_filed url (this : store) :
  subscribed this -> is_Some (_parsedDocumentmap this !! url) ->
  remove url this
  = (Ok (), {| _parsedDocumentmap := delete url (_parsedDocumentmap this);
               _unsubscribeMap := _unsubscribeMap this |}).
Proof.
  intros [Hs _] Hdoc. unfold remove. rewrite (has_own _ _ Hdoc). simpl.
  destruct (Hs _ Hdoc) as [u Hu]. unfold get. by rewrite Hu.
Qed.

Lemma subscribed_remove url (this : store) : subscribed this -> subscribed (snd (remove url this)).
Proof.
  intros Hs. destruct (_parsedDocumentmap this !! url) as [d|] eqn:Hd.
  - rewrite remove_filed by eauto. simpl. destruct Hs as [Hs Hplain].
    split; [|done]. intros url'. simpl. destruct (decide (url = url')) as [<-|Hne].
    + rewrite lookup_delete_eq. by intros [? ?].
    + rewrite lookup_delete_ne by done. apply Hs.
  - by rewrite remove_not_filed.
Qed.

(** C9. In a store built by [add] and [remove], [add] of a document under
    whose URI a document is filed throws [Error('Duplicate key')] and
    leaves the store as it was; after [remove] of that URI, which returns,
    the URI is absent and [add] of the document returns, with the document
    in the store. *)
Theorem add_duplicate_raises d (this : store) :
  subscribed this ->
  is_Some (_parsedDocumentmap this !! uri d) ->
  add subscribe d this = (Throw (Error "Duplicate key"), this)
  /\ exists removed,
       remove (uri d) this = (Ok (), removed)
       /\ has (uri d) removed = false
       /\ exists added,
            add subscribe d removed = (Ok (), added)
            /\ find (uri d) added = Own d
            /\ subscribed added.
Proof.
  intros Hs Hdoc. split; [unfold add; by rewrite has_own|].
  eexists. split; [by apply remove_filed|].
  assert (has (uri d)
            {| _parsedDocumentmap := delete (uri d) (_parsedDocumentmap this);
               _unsubscribeMap := _unsubscribeMap this |} = false) as Hgone.
  { apply has_false. simpl. split; [apply lookup_delete_eq|].
    destruct Hs as [Hs Hplain]. auto. }
  split; [done|].
  eexists. split; [unfold add; rewrite Hgone; reflexivity|].
  split; [unfold find, get; simpl; by rewrite lookup_insert_eq|].
  pose proof (subscribed_remove (uri d) this Hs) as Hr.
  rewrite remove_filed in Hr by done. simpl in Hr.
  pose proof (subscribed_add d _ Hr) as Ha.
  unfold add in Ha. rewrite Hgone in Ha. exact Ha.
Qed.

End DocumentStoreFacts.

(** C9, on a sample: the store that holds index.php is offered index.php
    again. *)
Lemma add_duplicate_raises_witness :
  ParsedDocumentStore.add (fun _ => ()) Samples.index Samples.oneDocument
  = (Throw (Error "Duplicate key"), Samples.oneDocument)
  /\ exists removed,
       ParsedDocumentStore.remove (ParsedDocumentStore.uri Samples.index) Samples.oneDocument
       = (Ok (), removed)
       /\ ParsedDocumentStore.has (ParsedDocumentStore.uri Samples.index) removed = false
       /\ exists added,
            ParsedDocumentStore.add (fun _ => ()) Samples.index removed = (Ok (), added)
            /\ ParsedDocumentStore.find (ParsedDocumentStore.uri Samples.index) added
               = Own Samples.index
            /\ ParsedDocumentStore.subscribed added.
Proof.
  apply (add_duplicate_raises (fun _ => ()) Samples.index Samples.oneDocument).
  - apply subscribed_add, subscribed_new.
  - by exists Samples.index.
Defined.

(** ** Opening a document *)

Section OpenDocumentFacts.
Context {Unsubscribe SymbolStore SymbolTable DiagnosticsProvider : Type}.
Context (subscribe : ParsedDocumentStore.ParsedDocument -> Unsubscribe).
Context (SymbolTable_create : ParsedDocumentStore.ParsedDocument -> SymbolTable).
Context (SymbolTable_uri : SymbolTable -> string).
Context (symbolStore_remove : string -> SymbolStore -> SymbolStore).
Context (symbolStore_add : SymbolTable -> SymbolStore -> SymbolStore).
Context (diagnosticsProvider_add :
  ParsedDocumentStore.ParsedDocument -> DiagnosticsProvider -> DiagnosticsProvider).
Import Intelephense.

(** C10. [openDocument] of a document whose language is not php, or whose
    URI the document store already has, returns at once: the document
    store, the symbol store and the diagnostics provider are as before, and
    no symbol table has been created. *)
Theorem openDocument_noop textDocument
    (this : Intelephense.t (Unsubscribe := Unsubscribe) (SymbolStore := SymbolStore)
              (DiagnosticsProvider := DiagnosticsProvider)) :
  languageId textDocument <> "php"
  \/ ParsedDocumentStore.has (uri textDocument) (documentStore this) = true ->
  openDocument subscribe SymbolTable_create SymbolTable_uri symbolStore_remove
    symbolStore_add diagnosticsProvider_add textDocument this
  = {| completion := Ok (); after := this; created := [] |}.
Proof.
  intros H. unfold openDocument.
  destruct H as [Hlang|Hhas].
  - rewrite bool_decide_eq_false_2 by done. done.
  - rewrite Hhas, orb_true_r. done.
Qed.

End OpenDocumentFacts.

(** C10, on a sample: a stylesheet is offered to the engine. *)
Lemma openDocument_noop_witness :
  Intelephense.openDocument (fun _ => ()) (fun _ => ()) (fun _ => "") (fun _ s => s)
    (fun _ s => s) (fun _ d => d) Samples.stylesheet Samples.engine
  = {| Intelephense.completion := Ok (); Intelephense.after := Samples.engine;
       Intelephense.created := [] |}.
Proof.
  apply (openDocument_noop (fun _ => ()) (fun _ => ()) (fun _ => "") (fun _ s => s)
           (fun _ s => s) (fun _ d => d) Samples.stylesheet Samples.engine).
  left. discriminate.
Defined.

(** * Further properties of the code *)

(** ** _mergeMembers, name by name *)

Section MergeByName.
Context (E : SymbolEnums).
Import TypeAggregate.

Lemma firstOccurrences_elem l n : n ∈ firstOccurrences l <-> n ∈ l.
Proof.
  induction l as [|m l IH]; simpl; [done|].
  rewrite !elem_of_cons, <- IH, !list_elem_of_In, filter_In, negb_true_iff.
  destruct (decide (n = m)) as [->|Hne].
  - tauto.
  - rewrite bool_decide_eq_false. tauto.
Qed.

Lemma firstOccurrences_snoc l n :
  firstOccurrences (l ++ [n]) =
  if bool_decide (n ∈ l) then firstOccurrences l else firstOccurrences l ++ [n].
Proof.
  induction l as [|m l IH]; simpl; [done|].
  rewrite IH. destruct (decide (n = m)) as [->|Hne].
  - rewrite (bool_decide_eq_true_2 (m ∈ m :: l)) by apply list_elem_of_here.
    case_bool_decide; [done|].
    rewrite List.filter_app. simpl. rewrite bool_decide_eq_true_2 by done.
    simpl. by rewrite app_nil_r.
  - case_bool_decide as Hin.
    + by rewrite bool_decide_eq_true_2 by (by apply list_elem_of_further).
    + rewrite bool_decide_eq_false_2 by (rewrite elem_of_cons; tauto).
      rewrite List.filter_app. simpl. by rewrite bool_decide_eq_false_2 by done.
Qed.

Lemma keptBy_snoc strategy n l s :
  keptBy E strategy n (l ++ [s]) = keptStep E strategy n (keptBy E strategy n l) s.
Proof. unfold keptBy. by rewrite fold_left_app. Qed.

Lemma keptStep_other strategy n kept s :
  name s <> n -> keptStep E strategy n kept s = kept.
Proof. intros H. unfold keptStep. by rewrite bool_decide_eq_false_2. Qed.

Lemma keptBy_None strategy n l :
  n ∉ name <$> l -> keptBy E strategy n l = None.
Proof.
  induction l as [|s l IH] using rev_ind; [done|].
  rewrite fmap_app, elem_of_app. simpl. rewrite list_elem_of_singleton. intros H.
  rewrite keptBy_snoc, keptStep_other by (intros Heq; symmetry in Heq; tauto).
  apply IH. tauto.
Qed.

Lemma keptBy_elem strategy n l x :
  keptBy E strategy n l = Some x -> x ∈ l /\ name x = n.
Proof.
  induction l as [|s l IH] using rev_ind; [done|].
  rewrite keptBy_snoc. unfold keptStep. rewrite elem_of_app, list_elem_of_singleton.
  case_bool_decide as Hn.
  - destruct (keptBy E strategy n l) as [k|].
    + destruct (replaces E strategy k s); intros [= <-]; [tauto|].
      destruct IH as [? ?]; tauto.
    + intros [= <-]. tauto.
  - intros H. destruct (IH H). tauto.
Qed.

Lemma KeptInv_start strategy : KeptInv E strategy [] mergeStart.
Proof.
  split; [apply MergeInv_start|]. split; [done|].
  intros i x H. simpl in H. by rewrite lookup_nil in H.
Qed.

Lemma KeptInv_step strategy pre st s :
  KeptInv E strategy pre st -> inheritedKey (name s) = false ->
  exists st', mergeStep E strategy st s = Ok st' /\ KeptInv E strategy (pre ++ [s]) st'.
Proof.
  intros (Hinv & Hnames & Hkept) Hplain.
  assert (forall i x, merged st !! i = Some x -> name x = name s ->
            map st !! name s = Some i) as Hindex.
  { intros i x Hx Hn. apply Hinv. eauto. }
  assert (forall i x, merged st !! i = Some x -> name x <> name s ->
            keptBy E strategy (name x) (pre ++ [s]) = Some x) as Hother.
  { intros i x Hx Hn. rewrite keptBy_snoc, keptStep_other by done. eauto. }
  destruct (map st !! name s) as [index|] eqn:Hm.
  - destruct (proj1 (Hinv _ _) Hm) as (kept & Hk & Hn).
    rewrite (mergeStep_kept E _ _ _ _ _ Hm Hk).
    assert (name s ∈ name <$> pre) as Hin.
    { apply firstOccurrences_elem. rewrite <- Hnames, <- Hn.
      apply list_elem_of_fmap_2. by eapply list_elem_of_lookup_2. }
    assert (keptBy E strategy (name s) (pre ++ [s]) =
            Some (if replaces E strategy kept s then s else kept)) as Hnew.
    { rewrite keptBy_snoc.
      replace (keptBy E strategy (name s) pre) with (Some kept)
        by (rewrite <- Hn; symmetry; eauto).
      unfold keptStep. rewrite bool_decide_eq_true_2 by done.
      by destruct (replaces E strategy kept s). }
    assert (firstOccurrences (name <$> pre ++ [s]) = firstOccurrences (name <$> pre))
      as Hsame.
    { rewrite fmap_app. simpl. by rewrite firstOccurrences_snoc, bool_decide_eq_true_2. }
    destruct (replaces E strategy kept s); eexists; (split; [reflexivity|]).
    + split; [by eapply MergeInv_replace|]. split.
      * simpl. rewrite Hsame, <- Hnames, list_fmap_insert.
        apply list_insert_id. rewrite list_lookup_fmap, Hk. simpl. by rewrite Hn.
      * intros i x. simpl. destruct (decide (i = index)) as [->|Hne].
        -- rewrite list_lookup_insert_eq by (by eapply lookup_lt_Some).
           by intros [= <-].
        -- rewrite list_lookup_insert_ne by done. intros Hx.
           apply (Hother i x Hx). intros Heq.
           pose proof (Hindex i x Hx Heq). congruence.
    + split; [done|]. split; [by rewrite Hsame|].
      intros i x Hx. destruct (decide (name x = name s)) as [Heq|Hne].
      * pose proof (Hindex i x Hx Heq). assert (i = index) as -> by congruence.
        assert (x = kept) as -> by congruence. by rewrite Heq.
      * by apply (Hother i x).
  - rewrite mergeStep_push by done. eexists. split; [reflexivity|].
    assert (name s ∉ name <$> pre) as Hnew.
    { intros Hin. apply firstOccurrences_elem in Hin. rewrite <- Hnames in Hin.
      apply list_elem_of_fmap in Hin as (x & Hn & [i Hx]%list_elem_of_lookup).
      symmetry in Hn. pose proof (Hindex i x Hx Hn). congruence. }
    split; [by apply MergeInv_push|]. split.
    + simpl. rewrite !fmap_app. simpl.
      by rewrite firstOccurrences_snoc, bool_decide_eq_false_2, Hnames.
    + intros i x. simpl. intros Hx.
      destruct (decide (i < length (merged st))) as [Hlt|Hge].
      * rewrite lookup_app_l in Hx by done. apply (Hother i x Hx). intros Heq.
        pose proof (Hindex i x Hx Heq). congruence.
      * apply lookup_lt_Some in Hx as Hlen. rewrite length_app in Hlen. simpl in Hlen.
        assert (i = length (merged st)) as -> by lia.
        rewrite list_lookup_middle in Hx by done. injection Hx as <-.
        rewrite keptBy_snoc, (keptBy_None _ _ _ Hnew). unfold keptStep.
        by rewrite bool_decide_eq_true_2.
Qed.

Lemma KeptInv_loop strategy symbols :
  plainNames symbols = true ->
  exists st, for_each (mergeStep E strategy) symbols mergeStart = Ok st
             /\ KeptInv E strategy symbols st.
Proof.
  induction symbols as [|s pre IH] using rev_ind; intros Hplain.
  - exists mergeStart. split; [done | apply KeptInv_start].
  - rewrite plainNames_app in Hplain. apply andb_true_iff in Hplain as [Hpre Hs].
    apply plainNames_cons in Hs as [Hs _].
    destruct (IH Hpre) as (st & Hloop & Hinv).
    destruct (KeptInv_step strategy pre st s Hinv Hs) as (st' & Hstep & Hinv').
    exists st'. split; [|done]. rewrite for_each_app, Hloop. simpl. by rewrite Hstep.
Qed.

(** For every strategy but None, and members none of which goes by the
    name of a property of [Object.prototype], the merge returns, and what
    it returns holds one member for each name, in the order in which the
    names first occur; the member under a name is [keptBy] that name. *)
Lemma mergeMembers_keptBy strategy symbols :
  strategy <> MemberMergeStrategy.None -> plainNames symbols = true ->
  exists merged0, _mergeMembers E symbols strategy = Ok merged0
    /\ name <$> merged0 = firstOccurrences (name <$> symbols)
    /\ (forall y, y ∈ merged0 -> keptBy E strategy (name y) symbols = Some y).
Proof.
  intros Hs Hplain.
  destruct (KeptInv_loop strategy symbols Hplain) as (st & Hloop & _ & Hnames & Hkept).
  exists (merged st). unfold _mergeMembers.
  rewrite bool_decide_eq_false_2, Hloop by done. split; [done|]. split; [done|].
  intros y [i Hi]%list_elem_of_lookup. eauto.
Qed.

(** X1. For every strategy but None: when one of the members it is given
    goes by the name of a property of [Object.prototype] ([constructor],
    [toString], [valueOf], ...), [_mergeMembers] throws a TypeError.
    Otherwise it returns, and the list it returns holds exactly one member
    for each name that occurs among the members it was given, the names
    standing in the order in which they first occur; every member it
    returns is one of the members it was given. *)
Theorem merge_one_member_per_name strategy symbols :
  strategy <> MemberMergeStrategy.None ->
  if plainNames symbols
  then exists merged0, _mergeMembers E symbols strategy = Ok merged0
         /\ name <$> merged0 = firstOccurrences (name <$> symbols)
         /\ (forall y, y ∈ merged0 -> y ∈ symbols)
  else _mergeMembers E symbols strategy = Throw TypeError.
Proof.
  intros Hs. destruct (plainNames symbols) eqn:Hplain.
  - destruct (mergeMembers_keptBy strategy symbols Hs Hplain) as (m & Hm & Hnames & Hkept).
    exists m. split; [done|]. split; [done|].
    intros y Hy. by destruct (keptBy_elem _ _ _ _ (Hkept y Hy)).
  - by apply mergeMembers_throws.
Qed.

(** *** Base *)

Lemma replaces_Base kept s : replaces E MemberMergeStrategy.Base kept s = true.
Proof.
  unfold replaces.
  rewrite (bool_decide_eq_true_2 (MemberMergeStrategy.Base = MemberMergeStrategy.Base))
    by done.
  apply orb_true_r.
Qed.

Lemma lastNamed_snoc n l s :
  lastNamed n (l ++ [s]) = if bool_decide (name s = n) then Some s else lastNamed n l.
Proof. unfold lastNamed. by rewrite rev_app_distr. Qed.

Lemma keptBy_Base n l : keptBy E MemberMergeStrategy.Base n l = lastNamed n l.
Proof.
  induction l as [|s l IH] using rev_ind; [done|].
  rewrite keptBy_snoc, lastNamed_snoc, IH. unfold keptStep.
  case_bool_decide; [|done].
  destruct (lastNamed n l); [by rewrite replaces_Base | done].
Qed.

(** X2. Under the Base strategy, and unless a member goes by the name of
    a property of [Object.prototype] (then it throws a TypeError),
    [_mergeMembers] keeps, for each name, the last member of that name among
    the members it was given, whether magic or not; the names stand in the
    order in which they first occur. *)
Theorem merge_base_keeps_last symbols :
  if plainNames symbols
  then exists merged0, _mergeMembers E symbols MemberMergeStrategy.Base = Ok merged0
         /\ name <$> merged0 = firstOccurrences (name <$> symbols)
         /\ (forall y, y ∈ merged0 -> lastNamed (name y) symbols = Some y)
  else _mergeMembers E symbols MemberMergeStrategy.Base = Throw TypeError.
Proof.
  destruct (plainNames symbols) eqn:Hplain.
  - destruct (mergeMembers_keptBy MemberMergeStrategy.Base symbols)
      as (m & Hm & Hnames & Hkept); [done..|].
    exists m. split; [done|]. split; [done|].
    intros y Hy. rewrite <- keptBy_Base. by apply Hkept.
  - by apply mergeMembers_throws.
Qed.

(** *** Documented *)

Lemma replaces_Documented kept s :
  replaces E MemberMergeStrategy.Documented kept s
  = (isMagic E kept && negb (isMagic E s))
    || (negb (bool_decide (is_Some (doc kept))) && bool_decide (is_Some (doc s))).
Proof.
  unfold replaces. rewrite magic_positive. fold (isMagic E s).
  rewrite (bool_decide_eq_true_2
             (MemberMergeStrategy.Documented = MemberMergeStrategy.Documented)) by done.
  rewrite (bool_decide_eq_false_2
             (MemberMergeStrategy.Documented = MemberMergeStrategy.Base)) by done.
  simpl. by rewrite orb_false_r.
Qed.

Lemma keptBy_Documented n l :
  match firstDeclaredDocumented E n l with
  | Some x => keptBy E MemberMergeStrategy.Documented n l = Some x
  | None => forall k, keptBy E MemberMergeStrategy.Documented n l = Some k ->
                      isDeclaredDocumented E k = false
  end.
Proof.
  induction l as [|s l IH] using rev_ind; [done|].
  unfold firstDeclaredDocumented in *. rewrite find_snoc, keptBy_snoc.
  destruct (List.find _ l) as [x|] eqn:Hfind.
  - apply find_some in Hfind as [_ Hx]. apply andb_true_iff in Hx as [_ Hx].
    rewrite IH. unfold keptStep. case_bool_decide; [|done].
    rewrite replaces_Documented. unfold isDeclaredDocumented in Hx.
    apply andb_true_iff in Hx as [Hm Hd]. apply negb_true_iff in Hm.
    by rewrite Hm, Hd.
  - unfold keptStep. case_bool_decide as Hn; simpl; [|exact IH].
    destruct (isDeclaredDocumented E s) eqn:Hs.
    + destruct (keptBy E MemberMergeStrategy.Documented n l) as [k|]; [|done].
      rewrite replaces_Documented. specialize (IH k eq_refl).
      unfold isDeclaredDocumented in *.
      apply andb_true_iff in Hs as [Hm Hd]. apply negb_true_iff in Hm. rewrite Hm, Hd.
      destruct (isMagic E k); simpl in *; [done|]. by rewrite IH.
    + intros k. destruct (keptBy E MemberMergeStrategy.Documented n l) as [k0|].
      * destruct (replaces E MemberMergeStrategy.Documented k0 s); intros [= <-]; eauto.
      * by intros [= <-].
Qed.

(** X3. Under the Documented strategy, and unless a member goes by the
    name of a property of [Object.prototype] (then it throws a TypeError):
    when some member named [n] is declared in the source (not magic) and has
    a doc, [_mergeMembers] keeps under the name [n] the first such member,
    whatever members of that name stand before or after it. *)
Theorem merge_documented_keeps_declared_documented symbols n x :
  firstDeclaredDocumented E n symbols = Some x ->
  if plainNames symbols
  then exists merged0, _mergeMembers E symbols MemberMergeStrategy.Documented = Ok merged0
         /\ x ∈ merged0
         /\ (forall y, y ∈ merged0 -> name y = n -> y = x)
  else _mergeMembers E symbols MemberMergeStrategy.Documented = Throw TypeError.
Proof.
  intros Hx. destruct (plainNames symbols) eqn:Hplain;
    [|by apply mergeMembers_throws].
  destruct (mergeMembers_keptBy MemberMergeStrategy.Documented symbols)
    as (m & Hm & Hnames & Hkept); [done..|].
  pose proof (keptBy_Documented n symbols) as Hdoc. rewrite Hx in Hdoc.
  assert (forall y, y ∈ m -> name y = n -> y = x) as Hunique.
  { intros y Hy Hn. specialize (Hkept y Hy). rewrite Hn in Hkept. congruence. }
  exists m. split; [done|]. split; [|done].
  unfold firstDeclaredDocumented in Hx. apply find_some in Hx as [Hin Hn].
  apply andb_true_iff in Hn as [Hn _]. apply bool_decide_eq_true in Hn.
  assert (n ∈ name <$> m) as Hnm.
  { rewrite Hnames. apply firstOccurrences_elem. rewrite <- Hn.
    apply list_elem_of_fmap_2. by apply list_elem_of_In. }
  apply list_elem_of_fmap in Hnm as (y & Hny & Hy).
  by rewrite <- (Hunique y Hy).
Qed.

(** When the member kept has a doc, or the next member has none, the
    Documented strategy replaces as the Override strategy does. *)
Lemma replaces_Documented_Override kept s :
  is_Some (doc kept) \/ doc s = None ->
  replaces E MemberMergeStrategy.Documented kept s
  = replaces E MemberMergeStrategy.Override kept s.
Proof.
  intros H. rewrite replaces_Documented, replaces_Override.
  destruct H as [Hk| ->].
  - by rewrite (bool_decide_eq_true_2 _ Hk), orb_false_r.
  - rewrite (bool_decide_eq_false_2 (is_Some None)) by (by intros [? ?]).
    by rewrite andb_false_r, orb_false_r.
Qed.

(** X23. The Documented strategy differs from the Override strategy
    through the docs of the members only: when none of the members has a
    doc, and likewise when each of them has one, [_mergeMembers] returns
    under Documented what it returns under Override. *)
Theorem merge_documented_as_override symbols :
  Forall (fun s => doc s = None) symbols \/ Forall (fun s => is_Some (doc s)) symbols ->
  _mergeMembers E symbols MemberMergeStrategy.Documented
  = _mergeMembers E symbols MemberMergeStrategy.Override.
Proof.
  intros Hdocs. destruct (plainNames symbols) eqn:Hplain;
    [|by rewrite !mergeMembers_throws].
  unfold _mergeMembers.
  rewrite !bool_decide_eq_false_2 by done.
  assert (exists st,
            for_each (mergeStep E MemberMergeStrategy.Documented) symbols mergeStart = Ok st
            /\ for_each (mergeStep E MemberMergeStrategy.Override) symbols mergeStart = Ok st
            /\ KeptInv E MemberMergeStrategy.Documented symbols st) as (st & -> & -> & _);
    [|done].
  induction symbols as [|s pre IH] using rev_ind.
  - exists mergeStart. split; [done|]. split; [done | apply KeptInv_start].
  - rewrite plainNames_app in Hplain. apply andb_true_iff in Hplain as [Hpre Hs].
    apply plainNames_cons in Hs as [Hs _].
    destruct IH as (st & Hdoc & Hover & Hinv); [|done|].
    { destruct Hdocs as [H|H]; [left | right];
        apply Forall_app in H; tauto. }
    destruct (KeptInv_step MemberMergeStrategy.Documented pre st s Hinv Hs)
      as (st' & Hstep & Hinv').
    exists st'. rewrite !for_each_app, Hdoc, Hover. simpl.
    split; [by rewrite Hstep|]. split; [|done].
    rewrite <- Hstep. destruct Hinv as (Hm & _ & Hkept). unfold mergeStep, get.
    destruct (map st !! name s) as [index|]; [|by rewrite Hs].
    destruct (merged st !! index) as [kept|] eqn:Hk; [|done].
    rewrite replaces_Documented_Override;
      [by destruct (replaces E MemberMergeStrategy.Override kept s)|].
    destruct Hdocs as [H|H].
    + right. apply Forall_app in H as [_ H]. by apply Forall_inv in H.
    + left. apply Forall_app in H as [H _].
      destruct (keptBy_elem _ _ _ _ (Hkept _ _ Hk)) as [Hin _].
      rewrite Forall_forall in H. by apply H.
Qed.

End MergeByName.

(** ** The links _getAssociated follows *)

Section AssociatedLinks.
Context (store : SymbolStore).
Import TypeAggregate.

Lemma associatedLoop_closed root fuel : forall queue collected assoc,
  associatedLoop store fuel queue collected = Some assoc ->
  (forall s stub symbol,
     s ∈ root :: collected -> stub ∈ or_empty (associated s) ->
     resolve store stub = Some symbol ->
     stub ∈ queue \/ contains collected symbol = true) ->
  Closed store root assoc.
Proof.
  induction fuel as [|fuel IH]; intros queue collected assoc Hrun Hinv; [done|].
  simpl in Hrun. destruct queue as [|stub0 queue].
  { injection Hrun as <-. intros s stub symbol Hs Hstub Hres.
    destruct (Hinv s stub symbol Hs Hstub Hres) as [[]%elem_of_nil|]; done. }
  destruct (find store (name stub0) isClassLike) as [|symbol0 rest] eqn:Hfind.
  { apply (IH _ _ _ Hrun). intros s stub symbol Hs Hstub Hres.
    destruct (Hinv s stub symbol Hs Hstub Hres) as [[->|]%elem_of_cons|]; [|tauto..].
    unfold resolve in Hres. by rewrite Hfind in Hres. }
  destruct (contains collected symbol0) eqn:Hc.
  { apply (IH _ _ _ Hrun). intros s stub symbol Hs Hstub Hres.
    destruct (Hinv s stub symbol Hs Hstub Hres) as [[->|]%elem_of_cons|]; [|tauto..].
    unfold resolve in Hres. rewrite Hfind in Hres. injection Hres as <-. tauto. }
  apply (IH _ _ _ Hrun). intros s stub symbol Hs Hstub Hres.
  rewrite contains_snoc, elem_of_app.
  rewrite app_comm_cons, elem_of_app, list_elem_of_singleton in Hs.
  destruct Hs as [Hs| ->]; [|tauto].
  destruct (Hinv s stub symbol Hs Hstub Hres) as [[->|]%elem_of_cons|Hin]; [|tauto|].
  - unfold resolve in Hres. rewrite Hfind in Hres. injection Hres as <-.
    rewrite Nat.eqb_refl, orb_true_r. tauto.
  - rewrite Hin. tauto.
Qed.

Lemma associatedLoop_linked root fuel : forall queue collected assoc,
  associatedLoop store fuel queue collected = Some assoc ->
  Linked store root collected ->
  (forall stub, stub ∈ queue ->
     exists s, s ∈ root :: collected /\ stub ∈ or_empty (associated s)) ->
  Linked store root assoc.
Proof.
  induction fuel as [|fuel IH]; intros queue collected assoc Hrun Hlinked Hqueue; [done|].
  simpl in Hrun. destruct queue as [|stub0 queue].
  { by injection Hrun as <-. }
  assert (forall stub, stub ∈ queue ->
            exists s, s ∈ root :: collected /\ stub ∈ or_empty (associated s)) as Hrest.
  { intros stub Hin. apply Hqueue. by apply list_elem_of_further. }
  destruct (find store (name stub0) isClassLike) as [|symbol0 rest] eqn:Hfind.
  { by apply (IH _ _ _ Hrun). }
  destruct (contains collected symbol0) eqn:Hc.
  { by apply (IH _ _ _ Hrun). }
  apply (IH _ _ _ Hrun).
  - intros i c Hi. destruct (decide (i < length collected)) as [Hlt|Hge].
    + rewrite lookup_app_l in Hi by done. rewrite take_app_le by lia. by apply Hlinked.
    + apply lookup_lt_Some in Hi as Hlen. rewrite length_app in Hlen. simpl in Hlen.
      assert (i = length collected) as -> by lia.
      rewrite list_lookup_middle in Hi by done. injection Hi as <-.
      rewrite take_app_length.
      destruct (Hqueue stub0) as (s & Hs & Hstub); [apply list_elem_of_here|].
      exists s, stub0. split; [done|]. split; [done|]. unfold resolve. by rewrite Hfind.
  - intros stub [Hin|Hin]%elem_of_app.
    + destruct (Hrest stub Hin) as (s & Hs & Hstub). exists s. split; [|done].
      rewrite app_comm_cons, elem_of_app. tauto.
    + exists symbol0. split; [|done].
      rewrite app_comm_cons, elem_of_app, list_elem_of_singleton. tauto.
Qed.

Lemma getAssociated_links root :
  exists assoc,
    (forall fuel, associatedFuel store root <= fuel ->
       _getAssociated fuel (fresh store root) = Some (assoc, cached store root assoc))
    /\ Forall (Resolved store) assoc
    /\ Closed store root assoc
    /\ Linked store root assoc.
Proof.
  destruct (getAssociated_fresh store root) as (assoc & Hrun & _ & Hres).
  exists assoc. split; [exact Hrun|]. split; [exact Hres|]. clear Hres.
  specialize (Hrun (associatedFuel store root) (le_n _)).
  remember (associatedFuel store root) as fuel eqn:Hfuel. clear Hfuel.
  unfold _getAssociated, fresh, cached in Hrun. simpl in Hrun.
  destruct (associated root) as [[|stub stubs0]|] eqn:Ha.
  - injection Hrun as <-. split.
    + intros s stub symbol [->|[]%elem_of_nil]%elem_of_cons Hstub. rewrite Ha in Hstub.
      by apply elem_of_nil in Hstub.
    + intros i c Hi. by rewrite lookup_nil in Hi.
  - destruct (associatedLoop store _ (stub :: stubs0) []) as [a|] eqn:Hloop; [|done].
    simpl in Hrun. injection Hrun as ->. split.
    + apply (associatedLoop_closed root _ _ _ _ Hloop).
      intros s stub1 symbol [->|[]%elem_of_nil]%elem_of_cons Hstub _.
      rewrite Ha in Hstub. tauto.
    + apply (associatedLoop_linked root _ _ _ _ Hloop).
      * intros i c Hi. by rewrite lookup_nil in Hi.
      * intros stub1 Hin. exists root. split; [apply list_elem_of_here|]. by rewrite Ha.
  - injection Hrun as <-. split.
    + intros s stub symbol [->|[]%elem_of_nil]%elem_of_cons Hstub. rewrite Ha in Hstub.
      by apply elem_of_nil in Hstub.
    + intros i c Hi. by rewrite lookup_nil in Hi.
Qed.


(** X5. The array [_getAssociated] computes for a root is closed under the
    links of the store: whenever a stub of the root, or of a symbol of the
    array, stands for a class-like of the store, that class-like is in the
    array.  And nothing else is: every symbol of the array is what a stub
    of the root, or of a symbol that stands before it in the array, stands
    for. *)
Theorem associated_closed_under_links root :
  exists assoc,
    (forall fuel, associatedFuel store root <= fuel ->
       _getAssociated fuel (fresh store root) = Some (assoc, cached store root assoc))
    /\ Closed store root assoc
    /\ Linked store root assoc.
Proof.
  destruct (getAssociated_links root) as (assoc & Hrun & _ & Hclosed & Hlinked).
  exists assoc. split; [exact Hrun|]. split; [exact Hclosed | exact Hlinked].
Qed.

End AssociatedLinks.

(** ** members of a class root, and create *)

Section AggregateFacts.
Context (E : SymbolEnums).
Import TypeAggregate.

(** X4. For a class root, with the associated array computed within
    [associatedFuel] turns: [members] never returns a member of an ancestor
    or of a trait, and what it does is settled in this order, whatever the
    predicate and the depth of the stack.  When an associated class or
    interface has a child that is not private, it throws a RangeError.
    Otherwise, when the strategy is not None and one of the root's own
    children that the caller's predicate accepts goes by the name of a
    property of [Object.prototype], it throws a TypeError.  Otherwise, when
    an associated trait has a child that is not private, it throws a
    RangeError.  Otherwise it returns the root's own accepted children,
    private ones included: as they are under None, and merged by
    [_mergeMembers] under the other strategies. *)
Theorem class_members_outcome store root stack strategy predicate :
  kind root = SymbolKind.Class ->
  exists assoc,
    forall fuel, associatedFuel store root <= fuel ->
      _getAssociated fuel (fresh store root) = Some (assoc, cached store root assoc)
      /\ let own := accepted predicate (or_empty (children root)) in
         members E fuel stack (fresh store root) strategy predicate
         = Some (if negb (forallb (onlyPrivateChildren E)
                            (List.filter (fun s => negb (isTrait s)) assoc))
                 then Throw RangeError
                 else if negb (bool_decide (strategy = MemberMergeStrategy.None))
                         && negb (plainNames own)
                 then Throw TypeError
                 else if negb (forallb (onlyPrivateChildren E) (List.filter isTrait assoc))
                 then Throw RangeError
                 else if bool_decide (strategy = MemberMergeStrategy.None) then Ok own
                 else _mergeMembers E own strategy,
                 cached store root assoc)
         /\ (strategy <> MemberMergeStrategy.None -> plainNames own = true ->
             exists merged0, _mergeMembers E own strategy = Ok merged0
               /\ name <$> merged0 = firstOccurrences (name <$> own)
               /\ (forall y, y ∈ merged0 -> y ∈ own)).
Proof.
  intros Hk. destruct (getAssociated_fresh store root) as (assoc & Hrun & _).
  exists assoc. intros fuel Hfuel. split; [by apply Hrun|]. intros own. split.
  - rewrite (members_class E fuel stack (fresh store root) strategy predicate
               assoc (cached store root assoc) Hk (Hrun fuel Hfuel)).
    simpl. fold own. f_equal. f_equal.
    destruct (forallb _ (List.filter (fun s => negb (isTrait s)) assoc)); simpl; [|done].
    case_bool_decide as Hs; simpl.
    + subst strategy. unfold _mergeMembers. simpl.
      by destruct (forallb _ (List.filter isTrait assoc)).
    + destruct (plainNames own) eqn:Hplain; simpl.
      * destruct (mergeMembers_total E own strategy Hplain) as [m ->]. simpl.
        by destruct (forallb _ (List.filter isTrait assoc)).
      * by rewrite mergeMembers_throws.
  - intros Hs Hplain.
    destruct (mergeMembers_keptBy E strategy own Hs Hplain) as (m & Hm & Hnames & Hkept).
    exists m. split; [done|]. split; [done|].
    intros y Hy. by destruct (keptBy_elem E _ _ _ _ (Hkept y Hy)).
Qed.

(** X6. [TypeAggregate.create] never throws: the store is asked for
    class-likes only, so the constructor accepts what it is given.  It
    returns null for the empty name and for a name the store finds nothing
    under, and otherwise the new aggregate of the first symbol found. *)
Theorem create_never_throws store fqn :
  create E store fqn
  = Ok (if bool_decide (fqn = "") then None
        else fresh store <$> head (find store fqn isClassLike)).
Proof.
  unfold create. case_bool_decide; [done|].
  destruct (find store fqn isClassLike) as [|symbol rest] eqn:Hfind; [done|].
  assert (isClassLike symbol = true) as Hc.
  { apply (find_filter store fqn). rewrite Hfind. apply list_elem_of_here. }
  unfold new. by rewrite classLike_test, Hc.
Qed.

End AggregateFacts.

(** ** The tokens of a node (parsedDocument.ts) *)

Section NodeFacts.
Import ParsedDocument.

Lemma Node_induction (P : Node -> Prop) :
  (forall t, P (TokenNode t)) ->
  (forall phraseType children, Forall P children -> P (PhraseNode phraseType children)) ->
  forall node, P node.
Proof.
  intros Ht Hp. fix IH 1. intros [t|phraseType children]; [apply Ht|].
  apply Hp. induction children as [|c children IHc]; constructor; [apply IH | exact IHc].
Qed.

Lemma firstSome_head {A B} (f : A -> option B) (g : A -> list B) l :
  Forall (fun c => f c = head (g c)) l ->
  firstSome f l = head (concat (List.map g l)).
Proof.
  induction 1 as [|c l Hc _ IH]; simpl; [done|].
  rewrite Hc, IH. by destruct (g c).
Qed.

Lemma lastSome_last {A B} (f : A -> option B) (g : A -> list B) l :
  Forall (fun c => f c = last (g c)) l ->
  lastSome f l = last (concat (List.map g l)).
Proof.
  induction 1 as [|c l Hc _ IH]; simpl; [done|].
  rewrite Hc, IH, last_app. by destruct (last (concat (List.map g l))).
Qed.

Lemma firstToken_head node : firstToken node = head (tokens node).
Proof.
  induction node as [t|phraseType children IH] using Node_induction; [done|].
  simpl. by apply firstSome_head.
Qed.

Lemma lastToken_last node : lastToken node = last (tokens node).
Proof.
  induction node as [t|phraseType children IH] using Node_induction; [done|].
  simpl. by apply lastSome_last.
Qed.

(** X7. [firstToken] returns the leftmost token of the subtree of a node and
    [lastToken] the rightmost one, passing over phrases that hold no token;
    each returns null exactly when the subtree holds no token at all. *)
Theorem first_and_last_token node :
  firstToken node = head (tokens node) /\ lastToken node = last (tokens node).
Proof. split; [apply firstToken_head | apply lastToken_last]. Qed.

(** The offsets a token covers. *)
Lemma isOffsetInToken_spec o t :
  isOffsetInToken o (Some (TokenNode t)) = true
  <-> (0 <= o /\ offset t <= o <= offset t + length t - 1)%Z.
Proof.
  unfold isOffsetInToken. simpl. rewrite andb_true_r, !andb_true_iff.
  rewrite Z.ltb_lt, !Z.leb_le. lia.
Qed.

Lemma contiguous_cover l : forall tFirst tLast o,
  contiguous l = true -> head l = Some tFirst -> last l = Some tLast ->
  (offset tFirst <= offset tLast + length tLast)%Z
  /\ ((offset tFirst <= o <= offset tLast + length tLast - 1)%Z
      <-> exists t, t ∈ l /\ (offset t <= o <= offset t + length t - 1)%Z).
Proof.
  induction l as [|t0 l IH]; intros tFirst tLast o Hc Hh Hl; [done|].
  assert (t0 = tFirst) as -> by (by injection Hh). clear Hh. simpl in Hc.
  apply andb_true_iff in Hc as [Hc Hrest]. apply andb_true_iff in Hc as [Hlen Hnext].
  apply Z.leb_le in Hlen.
  destruct l as [|t' l'].
  - assert (tFirst = tLast) as -> by (by injection Hl). split; [lia|]. split.
    + intros Ho. exists tLast. split; [apply list_elem_of_here | done].
    + by intros (t & ->%list_elem_of_singleton & Ho).
  - apply Z.eqb_eq in Hnext.
    assert (last (t' :: l') = Some tLast) as Hl' by exact Hl.
    destruct (IH t' tLast o Hrest eq_refl Hl') as [Hspan Hcover].
    split; [lia|]. split.
    + intros Ho. destruct (decide (o < offset t')%Z) as [Hlt|Hge].
      * exists tFirst. split; [apply list_elem_of_here | lia].
      * destruct (proj1 Hcover) as (t & Hin & Ht); [lia|].
        exists t. split; [by apply list_elem_of_further | done].
    + intros (t & [->|Hin]%elem_of_cons & Ht); [lia|].
      assert (offset t' <= o <= offset tLast + length tLast - 1)%Z; [|lia].
      apply Hcover. eauto.
Qed.

(** X8. For a node whose tokens lie side by side in the text (each starts
    where the one before it ends): an offset is in the node, as
    [isOffsetInNode] sees it, exactly when it is in one of the tokens of
    the node, as [isOffsetInToken] sees it.  A negative offset is in
    neither, and no offset is in a phrase without tokens. *)
Theorem offset_in_node_iff_in_a_token o node :
  contiguous (tokens node) = true ->
  isOffsetInNode o (Some node)
  = existsb (fun t => isOffsetInToken o (Some (TokenNode t))) (tokens node).
Proof.
  intros Hc. apply Bool.eq_iff_eq_true. rewrite existsb_exists.
  destruct node as [t|phraseType children].
  - unfold isOffsetInNode. simpl isToken. simpl tokens. cbv iota.
    destruct (Z.ltb_spec o 0) as [Hneg|Hpos].
    + split; [done|]. intros (x & _ & Hx). apply isOffsetInToken_spec in Hx. lia.
    + split.
      * intros H. exists t. split; [by left | done].
      * by intros (x & [<-|[]] & Hx).
  - unfold isOffsetInNode. simpl isToken. cbv iota.
    rewrite firstToken_head, lastToken_last.
    destruct (tokens (PhraseNode phraseType children)) as [|t l] eqn:Ht.
    { simpl. destruct (o <? 0)%Z; split; try done; by intros (x & [] & _). }
    destruct (last (t :: l)) as [tLast|] eqn:Hlast;
      [|by apply last_None in Hlast].
    change (head (t :: l)) with (Some t). cbv iota.
    destruct (contiguous_cover (t :: l) t tLast o Hc eq_refl Hlast) as [_ Hcover].
    destruct (Z.ltb_spec o 0) as [Hneg|Hpos].
    + split; [done|]. intros (x & _ & Hx). apply isOffsetInToken_spec in Hx. lia.
    + rewrite andb_true_iff, !Z.leb_le. rewrite Hcover. split.
      * intros (x & Hin & Hx). exists x. split; [by apply list_elem_of_In|].
        apply isOffsetInToken_spec. lia.
      * intros (x & Hin & Hx). exists x. split; [by apply list_elem_of_In|].
        apply isOffsetInToken_spec in Hx. lia.
Qed.

Lemma filterLoop_filter (fn : Node -> bool) l filtered :
  fold_left (fun filtered child => if fn child then filtered ++ [child] else filtered)
    l filtered
  = filtered ++ List.filter fn l.
Proof.
  revert filtered. induction l as [|c l IH]; intros filtered; simpl.
  - by rewrite app_nil_r.
  - rewrite IH. destruct (fn c); [by rewrite <- app_assoc | done].
Qed.

(** X9. [filterChildren] returns the children of the parent that [fn]
    accepts, in their order, and [findChild] returns the first of them,
    undefined when there is none; a parent that is null or a token has no
    such child. *)
Theorem findChild_first_filtered parent fn :
  filterChildren parent fn
  = match parent with
    | Some (PhraseNode _ children) => List.filter fn children
    | _ => []
    end
  /\ findChild parent fn = head (filterChildren parent fn).
Proof.
  destruct parent as [[t|phraseType children]|]; try done.
  unfold filterChildren, findChild. rewrite filterLoop_filter. simpl. split; [done|].
  induction children as [|c children IH]; simpl; [done|].
  by destruct (fn c).
Qed.

End NodeFacts.

(** ** The document store: filing, round trip and reachable stores *)

Section DocumentStoreUse.
Context {Unsubscribe : Type}.
Context (subscribe : ParsedDocumentStore.ParsedDocument -> Unsubscribe).
Import ParsedDocumentStore.

Abbreviation documents := (ParsedDocumentStore.t (Unsubscribe := Unsubscribe)).

(** X10. [has] answers true for a URI under which a document is filed and
    for the name of every property of [Object.prototype] ([constructor],
    [toString], [__proto__], ...), and false for every other URI.  [add] of
    a document whose URI the store has throws [Error('Duplicate key')] and
    leaves the store as it was: the new store does so for a URI such as
    [constructor].  [add] of a document whose URI the store does not have
    returns; afterwards [find] and [has] know the document under its URI,
    [count] is one more than before, and what the store holds under every
    other URI is as before. *)
Theorem add_files_document d (this : documents) :
  has (uri d) this
  = bool_decide (is_Some (_parsedDocumentmap this !! uri d))
    || bool_decide (uri d ∈ prototypeKeys)
  /\ if has (uri d) this
     then add subscribe d this = (Throw (Error "Duplicate key"), this)
     else exists added,
            add subscribe d this = (Ok (), added)
            /\ find (uri d) added = Own d
            /\ has (uri d) added = true
            /\ count added = S (count this)
            /\ (forall u, u <> uri d ->
                  find u added = find u this /\ has u added = has u this).
Proof.
  split; [apply has_spec|].
  destruct (has (uri d) this) eqn:Hhas; [unfold add; by rewrite Hhas|].
  eexists. split; [unfold add; rewrite Hhas; reflexivity|].
  apply has_false in Hhas as [Hnone Hkey].
  split; [unfold find, get; simpl; by rewrite lookup_insert_eq|].
  split; [apply has_own; simpl; rewrite lookup_insert_eq; eauto|].
  split; [unfold count; simpl; by rewrite map_size_insert_None|].
  intros u Hu. unfold find, has, get. simpl. by rewrite lookup_insert_ne.
Qed.

Lemma remove_undoes_add_docs d (this : documents) :
  _parsedDocumentmap this !! uri d = None -> inheritedKey (uri d) = false ->
  remove (uri d) (snd (add subscribe d this))
  = (Ok (),
     {| _parsedDocumentmap := _parsedDocumentmap this;
        _unsubscribeMap := <[uri d := subscribe d]> (_unsubscribeMap this) |}).
Proof.
  intros Hnone Hkey. unfold add.
  rewrite (proj2 (has_false (uri d) this)) by done. simpl.
  unfold remove.
  rewrite has_own by (simpl; rewrite lookup_insert_eq; eauto).
  simpl. unfold get. rewrite lookup_insert_eq. by rewrite delete_insert_id.
Qed.

(** X11. [remove] undoes [add] as far as the documents go: after [add] of
    a document under whose URI no document was filed, the URI not being
    the name of a property of [Object.prototype], [remove] of that URI
    returns and the store holds the documents it held before.  The function
    that undoes the subscription is called but stays recorded under the
    URI: [remove] never deletes from [_unsubscribeMap]. *)
Theorem remove_undoes_add d (this : documents) :
  _parsedDocumentmap this !! uri d = None ->
  uri d ∉ prototypeKeys ->
  remove (uri d) (snd (add subscribe d this))
  = (Ok (),
     {| _parsedDocumentmap := _parsedDocumentmap this;
        _unsubscribeMap := <[uri d := subscribe d]> (_unsubscribeMap this) |}).
Proof.
  intros Hnone Hkey. apply remove_undoes_add_docs; [done|].
  by apply bool_decide_eq_false.
Qed.

Lemma reachable_subscribed (this : documents) : reachable subscribe this -> subscribed this.
Proof.
  induction 1 as [|d this _ IH|u this _ IH].
  - apply subscribed_new.
  - by apply subscribed_add.
  - by apply subscribed_remove.
Qed.

Lemma reachable_filed (this : documents) :
  reachable subscribe this -> forall u d, _parsedDocumentmap this !! u = Some d -> uri d = u.
Proof.
  induction 1 as [|d0 this _ IH|u0 this Hr IH]; intros u d.
  - simpl. by rewrite lookup_empty.
  - unfold add. destruct (has (uri d0) this); simpl; [apply IH|].
    destruct (decide (uri d0 = u)) as [<-|Hne].
    + rewrite lookup_insert_eq. by intros [= <-].
    + rewrite lookup_insert_ne by done. apply IH.
  - destruct (_parsedDocumentmap this !! u0) as [d0|] eqn:Hd.
    + rewrite remove_filed by eauto using reachable_subscribed. simpl.
      destruct (decide (u0 = u)) as [<-|Hne].
      * by rewrite lookup_delete_eq.
      * rewrite lookup_delete_ne by done. apply IH.
    + rewrite remove_not_filed by done. apply IH.
Qed.

(** [remove] of the name of a property of [Object.prototype], in a store
    where no subscription is recorded under such a name: the inherited
    property is called. *)
Lemma remove_inherited u (this : documents) :
  subscribed this -> inheritedKey u = true ->
  remove u this = (callInherited u, this).
Proof.
  intros [Hs Hplain] Hkey.
  assert (_unsubscribeMap this !! u = None) as Hu.
  { apply eq_None_not_Some. intros H. apply Hplain in H. congruence. }
  assert (_parsedDocumentmap this !! u = None) as Hd.
  { apply eq_None_not_Some. intros H. apply Hs in H. by rewrite Hu in H; destruct H. }
  pose proof (remove_not_filed u this Hd) as Hsame. revert Hsame.
  unfold remove. rewrite has_inherited by done. simpl. unfold get. rewrite Hu, Hkey.
  destruct (callInherited u) as [[]|e]; simpl; [by intros ->|done].
Qed.

(** X12. In every store a program can get hold of (the new store, and what
    calls of [add] and [remove] leave behind): every document is filed
    under its own URI, which is never the name of a property of
    [Object.prototype].  For a URI that is not such a name, [remove]
    returns, leaving the store without a document under it and the other
    documents in place.  For a URI that is such a name, [find] returns the
    inherited property and [remove] calls it and leaves the store as it
    is: the call returns for [constructor], [toString] and [isPrototypeOf],
    and throws a TypeError for the others, [__proto__] and [valueOf] among
    them. *)
Theorem reachable_store_sound (this : documents) :
  reachable subscribe this ->
  (forall u d, find u this = Own d -> uri d = u /\ u ∉ prototypeKeys)
  /\ (forall u, u ∉ prototypeKeys ->
        exists removed,
          remove u this = (Ok (), removed)
          /\ find u removed = Absent
          /\ (forall u', u' <> u -> find u' removed = find u' this))
  /\ (forall u, u ∈ prototypeKeys ->
        find u this = Inherited
        /\ remove u this
           = (if bool_decide (u ∈ ["constructor"; "toString"; "isPrototypeOf"])
              then Ok () else Throw TypeError, this)).
Proof.
  intros Hr. pose proof (reachable_subscribed this Hr) as Hs.
  assert (forall u, is_Some (_parsedDocumentmap this !! u) -> inheritedKey u = false)
    as Hplain by (destruct Hs as [Hs Hplain]; auto).
  split; [|split].
  - intros u d. unfold find, get.
    destruct (_parsedDocumentmap this !! u) as [d0|] eqn:Hd;
      [|by destruct (inheritedKey u)].
    intros [= ->]. split; [by eapply reachable_filed|].
    apply (bool_decide_eq_false_1 (u ∈ prototypeKeys)), Hplain. by rewrite Hd.
  - intros u Hkey. apply (bool_decide_eq_false_2 (u ∈ prototypeKeys)) in Hkey.
    fold (inheritedKey u) in Hkey.
    destruct (_parsedDocumentmap this !! u) as [d|] eqn:Hd.
    + rewrite remove_filed by eauto. eexists. split; [reflexivity|].
      unfold find, get. simpl. rewrite lookup_delete_eq, Hkey. split; [done|].
      intros u' Hne. by rewrite lookup_delete_ne.
    + exists this. unfold remove. rewrite (proj2 (has_false u this)) by done. simpl.
      split; [done|]. split; [|done]. unfold find, get. by rewrite Hd, Hkey.
  - intros u Hkey. apply (bool_decide_eq_true_2 (u ∈ prototypeKeys)) in Hkey.
    fold (inheritedKey u) in Hkey. split.
    + unfold find, get. destruct (_parsedDocumentmap this !! u) as [d|] eqn:Hd.
      * rewrite Hplain in Hkey; [done|]. by rewrite Hd.
      * by rewrite Hkey.
    + by rewrite remove_inherited.
Qed.

End DocumentStoreUse.

(** ** Opening, closing, discovering and forgetting a document *)

Section DocumentLifeCycle.
Context {Unsubscribe SymbolStore SymbolTable DiagnosticsProvider : Type}.
Context (subscribe : ParsedDocumentStore.ParsedDocument -> Unsubscribe).
Context (SymbolTable_create : ParsedDocumentStore.ParsedDocument -> SymbolTable).
Context (SymbolTable_uri : SymbolTable -> string).
Context (symbolStore_remove : string -> SymbolStore -> SymbolStore).
Context (symbolStore_add : SymbolTable -> SymbolStore -> SymbolStore).
Context (diagnosticsProvider_add :
  ParsedDocumentStore.ParsedDocument -> DiagnosticsProvider -> DiagnosticsProvider).
Context (diagnosticsProvider_remove : string -> DiagnosticsProvider -> DiagnosticsProvider).
Context (symbolStore_getSymbolTable : string -> SymbolStore -> option SymbolTable).
Context (SymbolTable_count : SymbolTable -> Z).
Import Intelephense.

Abbreviation bindings :=
  (Intelephense.t (Unsubscribe := Unsubscribe) (SymbolStore := SymbolStore)
     (DiagnosticsProvider := DiagnosticsProvider)).
Abbreviation open :=
  (openDocument subscribe SymbolTable_create SymbolTable_uri symbolStore_remove
     symbolStore_add diagnosticsProvider_add).
Abbreviation parsed textDocument :=
  {| ParsedDocumentStore.uri := uri textDocument;
     ParsedDocumentStore.text := text textDocument |}.

(** What [openDocument] does for a php document that is not open. *)
Lemma openDocument_new textDocument (this : bindings) :
  languageId textDocument = "php" ->
  ParsedDocumentStore.has (uri textDocument) (documentStore this) = false ->
  open textDocument this
  = {| completion := Ok ();
       after :=
         {| documentStore :=
              snd (ParsedDocumentStore.add subscribe (parsed textDocument) (documentStore this));
            symbolStore :=
              symbolStore_add (SymbolTable_create (parsed textDocument))
                (symbolStore_remove (SymbolTable_uri (SymbolTable_create (parsed textDocument)))
                   (symbolStore this));
            diagnosticsProvider :=
              diagnosticsProvider_add (parsed textDocument) (diagnosticsProvider this) |};
       created := [SymbolTable_create (parsed textDocument)] |}.
Proof.
  intros Hlang Hhas. unfold openDocument.
  rewrite (bool_decide_eq_true_2 _ Hlang), Hhas. simpl.
  unfold ParsedDocumentStore.add. simpl. by rewrite Hhas.
Qed.

(** After [openDocument] of a php document the store has its URI. *)
Lemma openDocument_has textDocument (this : bindings) :
  languageId textDocument = "php" ->
  ParsedDocumentStore.has (uri textDocument) (documentStore (after (open textDocument this)))
  = true.
Proof.
  intros Hlang.
  destruct (ParsedDocumentStore.has (uri textDocument) (documentStore this)) eqn:Hhas.
  - unfold openDocument. by rewrite Hhas, orb_true_r.
  - rewrite openDocument_new by done. simpl.
    unfold ParsedDocumentStore.add. simpl. rewrite Hhas. simpl.
    apply has_own. simpl. rewrite lookup_insert_eq. eauto.
Qed.

(** X13. [openDocument] of a php document returns without doing anything
    when a document is filed under its URI, and also when the URI is the
    name of a property of [Object.prototype] ([constructor], [__proto__],
    ...): a document with such a URI cannot be opened.  In every other
    case it returns having created exactly one symbol table; the document
    store knows the parsed document under its URI, the number of open
    documents is one more than before, and opening the same document again
    changes nothing and creates nothing. *)
Theorem openDocument_opens_once textDocument (this : bindings) :
  languageId textDocument = "php" ->
  let opened := open textDocument this in
  if bool_decide (is_Some (ParsedDocumentStore._parsedDocumentmap (documentStore this)
                             !! uri textDocument))
     || bool_decide (uri textDocument ∈ prototypeKeys)
  then opened = {| completion := Ok (); after := this; created := [] |}
  else completion opened = Ok ()
       /\ created opened = [SymbolTable_create (parsed textDocument)]
       /\ ParsedDocumentStore.find (uri textDocument) (documentStore (after opened))
          = Own (parsed textDocument)
       /\ numberDocumentsOpen (after opened) = S (numberDocumentsOpen this)
       /\ open textDocument (after opened)
          = {| completion := Ok (); after := after opened; created := [] |}.
Proof.
  intros Hlang opened.
  change (bool_decide (uri textDocument ∈ prototypeKeys))
    with (inheritedKey (uri textDocument)).
  rewrite <- has_spec.
  destruct (ParsedDocumentStore.has (uri textDocument) (documentStore this)) eqn:Hhas.
  { unfold opened, openDocument. by rewrite Hhas, orb_true_r. }
  pose proof (openDocument_has textDocument this Hlang) as Hopen. fold opened in Hopen.
  assert (open textDocument (after opened)
          = {| completion := Ok (); after := after opened; created := [] |}) as Hagain.
  { unfold openDocument at 1. by rewrite Hopen, orb_true_r. }
  revert Hagain. unfold opened. rewrite (openDocument_new textDocument this Hlang Hhas).
  simpl. intros Hagain.
  apply has_false in Hhas as Hnone. destruct Hnone as [Hnone Hkey].
  unfold ParsedDocumentStore.add in *. simpl in *. rewrite Hhas in *. simpl in *.
  split; [done|]. split; [done|].
  split; [unfold ParsedDocumentStore.find, get; simpl; by rewrite lookup_insert_eq|].
  split; [|done].
  unfold numberDocumentsOpen, ParsedDocumentStore.count. simpl.
  by rewrite map_size_insert_None.
Qed.

(** X14. Closing a php document right after it was opened, when no
    document was filed under its URI and the URI is not the name of a
    property of [Object.prototype], returns and leaves the documents that
    were open before, no more and no fewer; the symbol store keeps the
    symbol table that opening put there.  When the URI is such a name, and
    the document store is one that [add] and [remove] have built, opening
    does nothing and closing calls the inherited property: it throws a
    TypeError, leaving every binding as it was, unless the name is
    [constructor], [toString] or [isPrototypeOf]. *)
Theorem closeDocument_undoes_open textDocument (this : bindings) :
  languageId textDocument = "php" ->
  let opened := after (open textDocument this) in
  (ParsedDocumentStore._parsedDocumentmap (documentStore this) !! uri textDocument = None ->
   uri textDocument ∉ prototypeKeys ->
   exists closed,
     closeDocument diagnosticsProvider_remove (uri textDocument) opened = (Ok (), closed)
     /\ ParsedDocumentStore._parsedDocumentmap (documentStore closed)
        = ParsedDocumentStore._parsedDocumentmap (documentStore this)
     /\ numberDocumentsOpen closed = numberDocumentsOpen this
     /\ symbolStore closed = symbolStore opened)
  /\ (ParsedDocumentStore.reachable subscribe (documentStore this) ->
      uri textDocument ∈ prototypeKeys ->
      opened = this
      /\ closeDocument diagnosticsProvider_remove (uri textDocument) opened
         = if bool_decide (uri textDocument ∈ ["constructor"; "toString"; "isPrototypeOf"])
           then (Ok (),
                 {| documentStore := documentStore this;
                    symbolStore := symbolStore this;
                    diagnosticsProvider :=
                      diagnosticsProvider_remove (uri textDocument)
                        (diagnosticsProvider this) |})
           else (Throw TypeError, this)).
Proof.
  intros Hlang opened. split.
  - intros Hnone Hkey. apply (bool_decide_eq_false_2 (_ ∈ prototypeKeys)) in Hkey.
    fold (inheritedKey (uri textDocument)) in Hkey.
    assert (ParsedDocumentStore.has (uri textDocument) (documentStore this) = false)
      as Hhas by (by apply has_false).
    unfold opened.
    rewrite (openDocument_new textDocument this Hlang Hhas). simpl.
    unfold closeDocument. simpl.
    pose proof (remove_undoes_add_docs subscribe (parsed textDocument) (documentStore this)
                  Hnone Hkey) as Hremove.
    simpl in Hremove. rewrite Hremove.
    eexists. split; [reflexivity|]. done.
  - intros Hr Hkey. apply (bool_decide_eq_true_2 (_ ∈ prototypeKeys)) in Hkey.
    fold (inheritedKey (uri textDocument)) in Hkey.
    assert (opened = this) as ->.
    { unfold opened, openDocument. by rewrite has_inherited, orb_true_r. }
    split; [done|]. unfold closeDocument.
    rewrite remove_inherited by (by try eapply reachable_subscribed).
    unfold ParsedDocumentStore.callInherited.
    case_bool_decide; [done|]. by destruct this.
Qed.

(** X15. A document that is open is left alone by the workspace: after
    [openDocument] of a php document, [forget] of its URI returns 0 and
    [discover] of a document with its URI creates no new symbol table in
    the symbol store; neither changes any of the bindings. *)
Theorem open_document_is_left_alone textDocument other (this : bindings) :
  languageId textDocument = "php" ->
  uri other = uri textDocument ->
  let opened := after (open textDocument this) in
  forget SymbolTable_uri symbolStore_remove symbolStore_getSymbolTable SymbolTable_count
    (uri textDocument) opened = (0%Z, opened)
  /\ snd (discover SymbolTable_create symbolStore_remove symbolStore_add
            symbolStore_getSymbolTable SymbolTable_count other opened) = opened.
Proof.
  intros Hlang Huri opened.
  pose proof (openDocument_has textDocument this Hlang) as Hopen. fold opened in Hopen.
  unfold forget, discover. rewrite Huri, Hopen. simpl.
  by destruct (symbolStore_getSymbolTable (uri textDocument) (symbolStore opened)).
Qed.

End DocumentLifeCycle.

(** ** Registering a diagnostics handler *)

Section HandlerFacts.
Context {Unsubscribe DiagnosticsProvider StartHandler PublishHandler : Type}.
Context (startDiagnosticsEvent_subscribe :
  StartHandler -> DiagnosticsProvider -> Unsubscribe * DiagnosticsProvider).
Context (publishDiagnosticsEvent_subscribe :
  PublishHandler -> DiagnosticsProvider -> Unsubscribe * DiagnosticsProvider).
Import Intelephense.

Lemma unsubscribe_subscribed key (map : gmap string Unsubscribe) :
  is_Some (map !! key) -> unsubscribe key map = Throw TypeError.
Proof. intros [u Hu]. unfold unsubscribe. by rewrite Hu. Qed.

(** X16. A diagnostics handler can be registered once and never again: as
    soon as [onPublishDiagnostics] has been called with a handler, the
    subscription is recorded, and every later call, with another handler
    or with null, throws a TypeError and leaves the bindings as they are,
    so the handler is neither replaced nor removed.  The same holds of
    [onDiagnosticsStart]. *)
Theorem handler_cannot_be_replaced
    (this : Handlers (Unsubscribe := Unsubscribe) (DiagnosticsProvider := DiagnosticsProvider))
    (publish : PublishHandler) (laterPublish : option PublishHandler)
    (start : StartHandler) (laterStart : option StartHandler) :
  let published := snd (onPublishDiagnostics publishDiagnosticsEvent_subscribe
                          (Some publish) this) in
  let started := snd (onDiagnosticsStart startDiagnosticsEvent_subscribe
                        (Some start) this) in
  (is_Some (unsubscribeMap published !! "publishDiagnostics")
   /\ onPublishDiagnostics publishDiagnosticsEvent_subscribe laterPublish published
      = (Throw TypeError, published))
  /\ (is_Some (unsubscribeMap started !! "diagnosticsStart")
      /\ onDiagnosticsStart startDiagnosticsEvent_subscribe laterStart started
         = (Throw TypeError, started)).
Proof.
  intros published started. split.
  - assert (is_Some (unsubscribeMap published !! "publishDiagnostics")) as Hkey.
    { unfold published, onPublishDiagnostics.
      destruct (unsubscribe _ (unsubscribeMap this)) as [map|e] eqn:Hu; simpl.
      - destruct (publishDiagnosticsEvent_subscribe publish (provider this)) as [u p].
        simpl. rewrite lookup_insert_eq. eauto.
      - unfold unsubscribe in Hu.
        destruct (unsubscribeMap this !! "publishDiagnostics"); [eauto | done]. }
    split; [done|]. unfold onPublishDiagnostics at 1.
    by rewrite unsubscribe_subscribed.
  - assert (is_Some (unsubscribeMap started !! "diagnosticsStart")) as Hkey.
    { unfold started, onDiagnosticsStart.
      destruct (unsubscribe _ (unsubscribeMap this)) as [map|e] eqn:Hu; simpl.
      - destruct (startDiagnosticsEvent_subscribe start (provider this)) as [u p].
        simpl. rewrite lookup_insert_eq. eauto.
      - unfold unsubscribe in Hu.
        destruct (unsubscribeMap this !! "diagnosticsStart"); [eauto | done]. }
    split; [done|]. unfold onDiagnosticsStart at 1.
    by rewrite unsubscribe_subscribed.
Qed.

End HandlerFacts.

(** ** Reading a use statement *)

Section UseStatementFacts.
Context (E : SymbolEnums).
Import ImportTableReader.

(** X17. Reading a use statement.  When every element has an alias, the
    reader adds to the import table, for each element with a path, one
    rule, in the order of the elements: its FQN is the path as written, its
    name the alias, and its kind that of the flag of the statement; the
    flag of the element itself is overwritten, also when the statement has
    no flag, in which case the kind is 0.  The reader is otherwise left as
    it was found.  When an element has no alias, no rule is added and the
    traversal throws a TypeError at the node of the missing alias. *)
Theorem use_statement_adds_rules flag elements this :
  traverse E (useStatement flag elements) this
  = if forallb (fun e => bool_decide (is_Some (alias e))) elements
    then Some (Ok {| _stack := _stack this;
                     _active := _active this;
                     importTable :=
                       addRuleMany (statementRule E flag <$> List.filter written elements)
                         (importTable this) |})
    else Some (Throw TypeError).
Proof.
  unfold useStatement. rewrite traverse_unfold. change (shouldDescend _) with true.
  unfold preOrder. cbn [value].
  rewrite visitAll_cons, traverse_useList by done. fold aliased.
  destruct (forallb aliased elements); [|done].
  rewrite visitAll_nil. unfold postOrder. cbn.
  unfold _postOrderUseStatement. cbn.
  set (kept := List.filter written elements).
  assert (mapM (setKind (_useFlagToSymbolKind E flag))
            ((fun e => RuleValue {| kind := _useFlagToSymbolKind E (elementFlag e);
                                    fqn := path e; name := alias e |}) <$> kept)
          = Some (statementRule E flag <$> kept)) as ->; [|done].
  induction kept as [|e kept IH]; [done|].
  cbn. cbn in IH. rewrite IH. unfold statementRule. by rewrite useFlag_kind.
Qed.

End UseStatementFacts.

(** ** Modifiers of declared and of magic members (visitors.ts) *)

Section ModifierFacts.
Context (E : SymbolEnums).
Context (ModifierFinal ModifierAbstract ModifierPrivate ModifierProtected
         ModifierPublic ModifierStatic : Z).
Import SymbolReader.

Abbreviation small z := (0 <= z < 2 ^ 31)%Z.

Lemma modifier_bits_small m : small (modifier_bits E m).
Proof. pose proof (modifier_bits_range E m). lia. Qed.

Lemma js_or_lor a b : small a -> small b -> js_or a b = Z.lor a b.
Proof. intros Ha Hb. unfold js_or. by rewrite !int32_small. Qed.

Lemma js_or_small a b : small a -> small b -> small (js_or a b).
Proof. intros Ha Hb. rewrite js_or_lor by done. by apply lor_small. Qed.

Lemma orBits_small l : small (orBits E l).
Proof.
  induction l as [|m l IH]; simpl; [lia|].
  apply lor_small; [apply modifier_bits_small | exact IH].
Qed.

Lemma carries_orBits_elem m l : m ∈ l -> carries E m (orBits E l) = true.
Proof.
  intros Hin. unfold carries, js_and, truthy.
  rewrite !int32_small by (apply orBits_small || apply modifier_bits_small).
  apply negb_true_iff, Z.eqb_neq.
  induction Hin as [m l|m x l Hin IH]; simpl;
    rewrite Z.land_lor_distr_l, Z.lor_eq_0_iff.
  - rewrite Z.land_diag. pose proof (modifier_bits_range E m). lia.
  - tauto.
Qed.

Lemma carries_orBits m l :
  DisjointModifiers E -> carries E m (orBits E l) = bool_decide (m ∈ l).
Proof.
  intros Hd. case_bool_decide as Hin; [by apply carries_orBits_elem|].
  unfold carries, js_and, truthy.
  rewrite !int32_small by (apply orBits_small || apply modifier_bits_small).
  apply negb_false_iff, Z.eqb_eq.
  induction l as [|x l IH]; simpl; [done|].
  rewrite not_elem_of_cons in Hin. destruct Hin as [Hne Hin].
  rewrite Z.land_lor_distr_l, IH, Hd by done. done.
Qed.

Ltac small_bits :=
  repeat first [ apply js_or_small | apply lor_small | apply modifier_bits_small | lia ].

(** What [_nonTerminalFlagToSymbolModifier] computes: the bits of the
    declarable modifiers that the flag has. *)
Lemma decoded_orBits flag :
  _nonTerminalFlagToSymbolModifier E ModifierFinal ModifierAbstract ModifierPrivate
    ModifierProtected ModifierPublic ModifierStatic flag
  = orBits E (List.filter
                (declared ModifierFinal ModifierAbstract ModifierPrivate
                   ModifierProtected ModifierPublic ModifierStatic flag)
                declarable).
Proof.
  unfold _nonTerminalFlagToSymbolModifier, declarable, declared. cbn.
  destruct (flagSet flag ModifierFinal), (flagSet flag ModifierAbstract),
    (flagSet flag ModifierPrivate), (flagSet flag ModifierProtected),
    (flagSet flag ModifierPublic), (flagSet flag ModifierStatic);
    cbn; rewrite ?js_or_lor by small_bits;
    rewrite ?Z.lor_0_l, ?Z.lor_0_r, ?Z.lor_assoc; reflexivity.
Qed.

(** X18. When no two modifiers share a bit, the modifiers of a declaration
    are decoded exactly: the symbol carries Final, Abstract, Private,
    Protected, Public or Static exactly when the flag of the declaration
    has the parser's flag for it, and it never carries Magic, ReadOnly,
    WriteOnly, Anonymous or Use. *)
Theorem declared_modifiers_decoded flag m :
  DisjointModifiers E ->
  carries E m
    (_nonTerminalFlagToSymbolModifier E ModifierFinal ModifierAbstract ModifierPrivate
       ModifierProtected ModifierPublic ModifierStatic flag)
  = match parserFlag ModifierFinal ModifierAbstract ModifierPrivate
            ModifierProtected ModifierPublic ModifierStatic m with
    | Some F => flagSet flag F
    | None => false
    end.
Proof.
  intros Hd. rewrite decoded_orBits, carries_orBits by done.
  unfold declarable, declared.
  destruct m; cbn;
    destruct (flagSet flag ModifierFinal), (flagSet flag ModifierAbstract),
      (flagSet flag ModifierPrivate), (flagSet flag ModifierProtected),
      (flagSet flag ModifierPublic), (flagSet flag ModifierStatic);
    reflexivity.
Qed.

End ModifierFacts.

(** ** Docblocks of properties, classes and functions (visitors.ts) *)

Section DocblockMoreFacts.
Import SymbolReader.
Context {TypeString : Type}.
Context (newTypeString : string -> TypeString).
Context (merge : TypeString -> string -> TypeString).
Context (parse : string -> option PhpDoc).
Context (E : SymbolEnums).
Context (ModifierFinal ModifierAbstract ModifierPrivate ModifierProtected
         ModifierPublic ModifierStatic : Z).
Context (parseClassDoc : string -> option ClassPhpDoc).

Abbreviation Symbol := (SymbolReader.PhpSymbol (TypeString := TypeString)).
Abbreviation Node := (SymbolReader.Tree (TypeString := TypeString)).
Abbreviation decode :=
  (_nonTerminalFlagToSymbolModifier E ModifierFinal ModifierAbstract ModifierPrivate
     ModifierProtected ModifierPublic ModifierStatic).
Abbreviation declareProperties :=
  (_postOrderPropertyOrClassConstantDeclarationStatement newTypeString parse E
     ModifierFinal ModifierAbstract ModifierPrivate ModifierProtected
     ModifierPublic ModifierStatic).

Lemma propertyTagLoop_find (s : Symbol) l :
  propertyTagLoop newTypeString s l
  = match varTagFor s l with
    | Some tag => documentProperty newTypeString tag s
    | None => s
    end.
Proof.
  unfold varTagFor. induction l as [|tag l IH]; simpl; [done|].
  by destruct (isVarTagFor s tag).
Qed.

Lemma propertyLoop_map (f : Node -> Node) popped filtered :
  fold_left (fun filtered prop =>
               match prop with
               | None => filtered
               | Some prop => filtered ++ [f prop]
               end) popped filtered
  = filtered ++ (f <$> nonNull popped).
Proof.
  revert filtered. induction popped as [|[p|] popped IH]; intros filtered; simpl.
  - by rewrite app_nil_r.
  - rewrite IH. unfold nonNull. simpl. by rewrite <- app_assoc.
  - apply IH.
Qed.

(** X19. A property or class constant statement pushes its declarations
    that have a name, in their order, each with the modifiers decoded from
    the flag of the statement.  With a docblock, each declaration takes its
    type and description from the first [@var] tag that bears no name or
    its own name, the type replacing the one it had; a declaration that no
    such tag is for, and every declaration of a statement without docblock
    or with a docblock the parser returns null for, keeps both. *)
Theorem property_statement_documents_each popped flag doc :
  let pushed := declareProperties popped flag doc in
  let tags := match doc with
              | Some text => match parse text with Some phpDoc => tags phpDoc | None => [] end
              | None => []
              end in
  length pushed = length (nonNull popped)
  /\ forall i (p : Node), nonNull popped !! i = Some p ->
       exists p', pushed !! i = Some p'
         /\ treeChildren p' = treeChildren p
         /\ symbolKind (value p') = symbolKind (value p)
         /\ symbolName (value p') = symbolName (value p)
         /\ symbolScope (value p') = symbolScope (value p)
         /\ symbolModifiers (value p') = decode flag
         /\ match varTagFor (value p) tags with
            | Some tag =>
                symbolType (value p') = Some (newTypeString (typeString tag))
                /\ symbolDescription (value p') = Some (description tag)
            | None =>
                symbolType (value p') = symbolType (value p)
                /\ symbolDescription (value p') = symbolDescription (value p)
            end.
Proof.
  intros pushed tags0. unfold pushed, _postOrderPropertyOrClassConstantDeclarationStatement.
  rewrite propertyLoop_map. simpl. split; [by rewrite length_fmap|].
  intros i p Hi. rewrite list_lookup_fmap, Hi. simpl. eexists. split; [reflexivity|].
  simpl. repeat split.
  - destruct doc as [text|]; [destruct (parse text) as [phpDoc|]|]; simpl;
      rewrite ?propertyTagLoop_find; try done.
    unfold varTagFor. simpl. by destruct (List.find _ (tags phpDoc)).
  - destruct doc as [text|]; [destruct (parse text) as [phpDoc|]|]; simpl;
      rewrite ?propertyTagLoop_find; try done.
    unfold varTagFor. simpl. by destruct (List.find _ (tags phpDoc)).
  - destruct doc as [text|]; [destruct (parse text) as [phpDoc|]|]; simpl;
      rewrite ?propertyTagLoop_find; try done.
    unfold varTagFor. simpl. by destruct (List.find _ (tags phpDoc)).
  - destruct doc as [text|]; [destruct (parse text) as [phpDoc|]|]; simpl;
      rewrite ?propertyTagLoop_find; try done.
    unfold varTagFor. simpl. by destruct (List.find _ (tags phpDoc)).
  - unfold tags0.
    destruct doc as [text|]; [destruct (parse text) as [phpDoc|]|]; simpl;
      rewrite ?propertyTagLoop_find; try done.
    unfold varTagFor, isVarTagFor. simpl.
    by destruct (List.find _ (tags phpDoc)).
Qed.

(** *** The docblock of a class *)

Lemma methodTag_value (t : Node) ps :
  value (fold_left (fun t p => addChild (_methodTagParamToSymbol newTypeString p) t) ps t)
  = value t.
Proof. revert t. induction ps as [|p ps IH]; intros t; simpl; [done|]. by rewrite IH. Qed.

Lemma publicMagic_small :
  (0 <= js_or (modifier_bits E SymbolModifier.Public) (modifier_bits E SymbolModifier.Magic)
   < 2 ^ 31)%Z.
Proof. apply js_or_small; apply modifier_bits_small. Qed.

Lemma publicMagic_orBits :
  js_or (modifier_bits E SymbolModifier.Public) (modifier_bits E SymbolModifier.Magic)
  = orBits E [SymbolModifier.Public; SymbolModifier.Magic].
Proof.
  rewrite js_or_lor by apply modifier_bits_small. simpl. by rewrite Z.lor_0_r.
Qed.

Lemma publicMagic_with m :
  js_or (js_or (modifier_bits E SymbolModifier.Public) (modifier_bits E SymbolModifier.Magic))
        (modifier_bits E m)
  = orBits E [SymbolModifier.Public; SymbolModifier.Magic; m].
Proof.
  rewrite (js_or_lor _ (modifier_bits E m))
    by (apply publicMagic_small || apply modifier_bits_small).
  rewrite js_or_lor by apply modifier_bits_small. simpl.
  by rewrite Z.lor_0_r, Z.lor_assoc.
Qed.

Lemma memberOf_modifiers tag :
  symbolModifiers (value (memberOf newTypeString E tag)) = orBits E (memberModifiers tag).
Proof.
  unfold memberModifiers. destruct tag as [t|m]; simpl.
  - repeat case_bool_decide; by rewrite ?publicMagic_with, ?publicMagic_orBits.
  - unfold _methodTagToTreeSymbol. rewrite methodTag_value. simpl.
    apply publicMagic_orBits.
Qed.

Lemma memberOf_magic tag : isMagicMember E (memberOf newTypeString E tag) = true.
Proof.
  unfold isMagicMember. rewrite memberOf_modifiers.
  rewrite !carries_orBits_elem by (unfold memberModifiers; set_solver).
  destruct tag as [t|m]; simpl; [done|].
  unfold _methodTagToTreeSymbol. by rewrite methodTag_value.
Qed.

Lemma memberOf_kind_name tag :
  symbolKind (value (memberOf newTypeString E tag)) = memberKind tag
  /\ symbolName (value (memberOf newTypeString E tag)) = memberName tag.
Proof.
  destruct tag as [t|m]; simpl; [done|].
  unfold _methodTagToTreeSymbol. by rewrite methodTag_value.
Qed.

Lemma addClassMagicMembers_members (classNode : Node) l :
  forallb wellShaped l = true ->
  _addClassMagicMembers newTypeString E classNode l
  = Some (mkTree (value classNode)
            (treeChildren classNode
             ++ (memberOf newTypeString E <$> List.filter isMemberTag l))).
Proof.
  revert classNode. induction l as [|tag l IH]; intros classNode Hw; simpl.
  - rewrite app_nil_r. by destruct classNode.
  - simpl in Hw. apply andb_true_iff in Hw as [Htag Hl].
    unfold magicMemberStep, isMemberTag.
    destruct (includes "@property" (anyTagName tag)) eqn:Hp; simpl.
    + destruct tag as [t|m]; simpl in *; [|by rewrite Hp in Htag].
      rewrite IH by done. simpl. by rewrite <- app_assoc.
    + case_bool_decide as Hm; simpl.
      * destruct tag as [t|m]; simpl in *.
        -- by rewrite bool_decide_eq_true_2 in Htag.
        -- rewrite IH by done. simpl. by rewrite <- app_assoc.
      * by apply IH.
Qed.

(** X20. What [_assignClassPhpDoc] does to a class.  Without a docblock
    the class is left as it is.  With a docblock the parser returns null
    for, the call throws a TypeError.  Otherwise the summary becomes the
    description of the class, and for each [@property], [@property-read],
    [@property-write] and [@method] tag, in the order of the tags, one
    member is added after the members the class already has: a Property or
    a Method of the name the tag gives, which has no scope and whose
    modifiers are Public and Magic, with WriteOnly for [@property-write]
    and ReadOnly for [@property-read]. *)
Theorem class_docblock_declares_magic_members :
  (forall t : Node, _assignClassPhpDoc newTypeString E parseClassDoc t None = Some (Ok t))
  /\ (forall (t : Node) text,
        parseClassDoc text = None ->
        _assignClassPhpDoc newTypeString E parseClassDoc t (Some text)
        = Some (Throw TypeError))
  /\ (forall (t : Node) text phpDoc,
        parseClassDoc text = Some phpDoc ->
        forallb wellShaped (classTags phpDoc) = true ->
        exists added,
          _assignClassPhpDoc newTypeString E parseClassDoc t (Some text)
          = Some (Ok (mkTree (describe (classSummary phpDoc) (value t))
                        (treeChildren t ++ added)))
          /\ (fun m : Node => (symbolKind (value m), symbolName (value m))) <$> added
             = (fun tag => (memberKind tag, memberName tag))
               <$> List.filter isMemberTag (classTags phpDoc)
          /\ (fun m : Node => symbolModifiers (value m)) <$> added
             = (fun tag => orBits E (memberModifiers tag))
               <$> List.filter isMemberTag (classTags phpDoc)
          /\ forallb (isMagicMember E) added = true).
Proof.
  split; [done|]. split.
  - intros t text Hparse. unfold _assignClassPhpDoc. by rewrite Hparse.
  - intros t text phpDoc Hparse Hw. eexists.
    split; [|split; [|split]].
    + unfold _assignClassPhpDoc. rewrite Hparse.
      rewrite addClassMagicMembers_members by done. reflexivity.
    + rewrite <- list_fmap_compose. apply list_fmap_ext. intros i tag _. simpl.
      by destruct (memberOf_kind_name tag) as [-> ->].
    + rewrite <- list_fmap_compose. apply list_fmap_ext. intros i tag _. simpl.
      apply memberOf_modifiers.
    + apply forallb_forall. intros m [tag [<- _]]%in_map_iff. apply memberOf_magic.
Qed.

(** *** The docblock of a function, and parameters without name *)



End DocblockMoreFacts.

(** ** The further properties on the sample programs *)

(** X1, on a sample: two members called [foo] and one called [m], merged
    under Base. *)
Lemma merge_one_member_per_name_witness :
  exists merged0,
    TypeAggregate._mergeMembers flags [Samples.fooMagic; Samples.fooReal; Samples.publicM]
      MemberMergeStrategy.Base = Ok merged0
    /\ name <$> merged0 = ["foo"; "m"]
    /\ (forall y, y ∈ merged0 -> y ∈ [Samples.fooMagic; Samples.fooReal; Samples.publicM]).
Proof.
  refine (merge_one_member_per_name flags MemberMergeStrategy.Base
            [Samples.fooMagic; Samples.fooReal; Samples.publicM] _).
  discriminate.
Defined.

(** X3, on a sample: of three members called [foo], the third is the first
    one that is declared and has a doc. *)
Lemma merge_documented_keeps_declared_documented_witness :
  exists merged0,
    TypeAggregate._mergeMembers flags Samples.threeFoos MemberMergeStrategy.Documented
    = Ok merged0
    /\ Samples.fooRealDocumented ∈ merged0
    /\ (forall y, y ∈ merged0 -> name y = "foo" -> y = Samples.fooRealDocumented).
Proof.
  refine (merge_documented_keeps_declared_documented flags Samples.threeFoos "foo"
            Samples.fooRealDocumented _).
  reflexivity.
Defined.

(** X4, on a sample: the class [Stringable] has a method [toString] and
    uses a trait with a public method; the TypeError of the merge comes
    before the RangeError of the trait's members. *)
Lemma class_members_outcome_witness :
  TypeAggregate.members flags 3 0
    (TypeAggregate.fresh Samples.withTrait Samples.stringable)
    MemberMergeStrategy.Override None
  = Some (Throw TypeError,
          TypeAggregate.cached Samples.withTrait Samples.stringable [Samples.helperTrait]).
Proof.
  destruct (class_members_outcome flags Samples.withTrait Samples.stringable 0
              MemberMergeStrategy.Override None eq_refl) as (assoc & Houtcome).
  destruct (Houtcome 3) as (Hassoc & Hmembers & _); [vm_compute; lia|].
  assert (assoc = [Samples.helperTrait]) as -> by (by injection Hassoc).
  exact Hmembers.
Defined.

(** X8, on a sample: the offset 7 is in the last token of the phrase. *)
Lemma offset_in_node_iff_in_a_token_witness :
  ParsedDocument.isOffsetInNode 7 (Some Samples.phrase)
  = existsb (fun t => ParsedDocument.isOffsetInToken 7
                        (Some (ParsedDocument.TokenNode t)))
      (ParsedDocument.tokens Samples.phrase).
Proof.
  apply (offset_in_node_iff_in_a_token 7 Samples.phrase). reflexivity.
Defined.

(** X10, on a sample: the new store refuses a document whose URI is
    [constructor]. *)
Lemma add_files_document_witness :
  ParsedDocumentStore.add (fun _ => ())
    {| ParsedDocumentStore.uri := "constructor"; ParsedDocumentStore.text := "<?php" |}
    ParsedDocumentStore.new
  = (Throw (Error "Duplicate key"), ParsedDocumentStore.new).
Proof.
  exact (proj2 (add_files_document (fun _ => ())
                  {| ParsedDocumentStore.uri := "constructor";
                     ParsedDocumentStore.text := "<?php" |}
                  ParsedDocumentStore.new)).
Defined.

(** X11, on a sample: index.php is added to the new store and removed
    again. *)
Lemma remove_undoes_add_witness :
  ParsedDocumentStore.remove "file:///index.php" Samples.oneDocument
  = (Ok (),
     {| ParsedDocumentStore._parsedDocumentmap := ∅;
        ParsedDocumentStore._unsubscribeMap := {[ "file:///index.php" := () ]} |}).
Proof.
  apply (remove_undoes_add (fun _ => ()) Samples.index ParsedDocumentStore.new).
  - reflexivity.
  - apply (bool_decide_eq_false_1 (_ ∈ prototypeKeys)). reflexivity.
Defined.

(** X12, on a sample: from the store that holds index.php, [__proto__]
    cannot be removed. *)
Lemma reachable_store_sound_witness :
  ParsedDocumentStore.remove "__proto__" Samples.oneDocument
  = (Throw TypeError, Samples.oneDocument).
Proof.
  destruct (reachable_store_sound (fun _ => ()) Samples.oneDocument) as (_ & _ & Hproto).
  - apply ParsedDocumentStore.reachable_add, ParsedDocumentStore.reachable_new.
  - destruct (Hproto "__proto__") as [_ Hremove]; [|exact Hremove].
    apply (bool_decide_eq_true_1 (_ ∈ prototypeKeys)). reflexivity.
Defined.

(** X13, on a sample: page.php is opened in the workspace in which
    index.php is open. *)
Lemma openDocument_opens_once_witness :
  let open :=
    Intelephense.openDocument (fun _ => ()) ParsedDocumentStore.uri id Samples.without cons
      (fun d l => ParsedDocumentStore.uri d :: l) in
  let opened := open Samples.page Samples.workspace in
  Intelephense.completion opened = Ok ()
  /\ Intelephense.created opened = ["file:///page.php"]
  /\ ParsedDocumentStore.find "file:///page.php"
       (Intelephense.documentStore (Intelephense.after opened))
     = Own {| ParsedDocumentStore.uri := "file:///page.php";
              ParsedDocumentStore.text := "<?php" |}
  /\ Intelephense.numberDocumentsOpen (Intelephense.after opened) = 2
  /\ open Samples.page (Intelephense.after opened)
     = {| Intelephense.completion := Ok (); Intelephense.after := Intelephense.after opened;
          Intelephense.created := [] |}.
Proof.
  refine (openDocument_opens_once (fun _ => ()) ParsedDocumentStore.uri id Samples.without
            cons (fun d l => ParsedDocumentStore.uri d :: l) Samples.page Samples.workspace _).
  reflexivity.
Defined.

(** X14, on a sample: page.php is opened and closed. *)
Lemma closeDocument_undoes_open_witness :
  let opened :=
    Intelephense.after
      (Intelephense.openDocument (fun _ => ()) ParsedDocumentStore.uri id Samples.without cons
         (fun d l => ParsedDocumentStore.uri d :: l) Samples.page Samples.workspace) in
  exists closed,
    Intelephense.closeDocument Samples.without "file:///page.php" opened = (Ok (), closed)
    /\ ParsedDocumentStore._parsedDocumentmap (Intelephense.documentStore closed)
       = ParsedDocumentStore._parsedDocumentmap
           (Intelephense.documentStore Samples.workspace)
    /\ Intelephense.numberDocumentsOpen closed = 1
    /\ Intelephense.symbolStore closed = ["file:///page.php"; "file:///index.php"].
Proof.
  apply (proj1 (closeDocument_undoes_open (fun _ => ()) ParsedDocumentStore.uri id
                  Samples.without cons (fun d l => ParsedDocumentStore.uri d :: l)
                  Samples.without Samples.page Samples.workspace eq_refl)).
  - reflexivity.
  - apply (bool_decide_eq_false_1 (_ ∈ prototypeKeys)). reflexivity.
Defined.

(** X15, on a sample: page.php is open when the workspace is asked to
    forget it and to discover it. *)
Lemma open_document_is_left_alone_witness :
  let opened :=
    Intelephense.after
      (Intelephense.openDocument (fun _ => ()) ParsedDocumentStore.uri id Samples.without cons
         (fun d l => ParsedDocumentStore.uri d :: l) Samples.page Samples.workspace) in
  Intelephense.forget id Samples.without Samples.tableAt (fun _ => 1%Z)
    "file:///page.php" opened = (0%Z, opened)
  /\ snd (Intelephense.discover ParsedDocumentStore.uri Samples.without cons Samples.tableAt
            (fun _ => 1%Z) Samples.page opened) = opened.
Proof.
  apply (open_document_is_left_alone (fun _ => ()) ParsedDocumentStore.uri id Samples.without
           cons (fun d l => ParsedDocumentStore.uri d :: l) Samples.tableAt (fun _ => 1%Z)
           Samples.page Samples.page Samples.workspace).
  - reflexivity.
  - reflexivity.
Defined.

(** X18, on a sample: the flag of a private static declaration. *)
Lemma declared_modifiers_decoded_witness :
  SymbolReader.carries flags SymbolModifier.Private (Samples.decodeSample 36)
  = SymbolReader.flagSet 36 4.
Proof.
  apply (declared_modifiers_decoded flags 1 2 4 8 16 32 36 SymbolModifier.Private).
  intros m m' Hne. destruct m, m'; try reflexivity; by destruct Hne.
Defined.

(** X20, on a sample: [class C] with the docblock [@property string $x]
    has a magic property [x] of type [string]. *)
Lemma class_docblock_declares_magic_members_witness :
  exists added,
    SymbolReader._assignClassPhpDoc Samples.atoms flags (fun _ => Some Samples.classDoc)
      Samples.classC (Some "/** @property string $x */")
    = Some (Ok (SymbolReader.mkTree
                  (SymbolReader.describe "" (SymbolReader.value Samples.classC))
                  (SymbolReader.treeChildren Samples.classC ++ added)))
    /\ (fun m => (SymbolReader.symbolKind (SymbolReader.value m),
                  SymbolReader.symbolName (SymbolReader.value m))) <$> added
       = [(SymbolKind.Property, "x")]
    /\ (fun m => SymbolReader.symbolModifiers (SymbolReader.value m)) <$> added
       = [Samples.magic]
    /\ forallb (SymbolReader.isMagicMember flags) added = true.
Proof.
  apply (proj2 (proj2 (class_docblock_declares_magic_members Samples.atoms flags
                         (fun _ => Some Samples.classDoc)))
           Samples.classC "/** @property string $x */" Samples.classDoc).
  - reflexivity.
  - reflexivity.
Defined.

(** X23, on a sample: three members, none of which has a doc. *)
Lemma merge_documented_as_override_witness :
  TypeAggregate._mergeMembers flags [Samples.fooMagic; Samples.fooReal; Samples.publicM]
    MemberMergeStrategy.Documented
  = TypeAggregate._mergeMembers flags [Samples.fooMagic; Samples.fooReal; Samples.publicM]
      MemberMergeStrategy.Override.
Proof.
  apply (merge_documented_as_override flags
           [Samples.fooMagic; Samples.fooReal; Samples.publicM]).
  left. repeat constructor.
Defined.
